(** * OCR-aware code reconciliation: a shallow embedding of [src/core.py],
      [src/ocr_correction.py] and [src/code_filters.py].

    Python strings are lists of characters, Python [int]s are [Z] (or [nat]
    where the source only ever holds a length or an index), Python [float]s
    are IEEE-754 binary64 numbers ([PrimFloat]), Python sets of codes are
    lists used through their membership test.  The text handled by the engine
    is 7-bit ASCII (the OCR whitelist is [A-Z0-9]); [str.upper], [str.strip]
    and the regular expressions are modelled on that range. *)

From Stdlib Require Import ZArith List Ascii String Bool Arith Lia.
From Stdlib Require Import Permutation Sorted Floats.
Import ListNotations.

Set Implicit Arguments.
Set Warnings "-inexact-float".

(* ================================================================== *)
(** * Python primitives used by the engine *)
(* ================================================================== *)

Module Py.

(** A Python [str]. *)
Abbreviation str := (list ascii) (only parsing).

(** String literals of the source. *)
Definition lit (x : string) : str := list_ascii_of_string x.

Fixpoint str_eqb (a b : str) : bool :=
  match a, b with
  | [], [] => true
  | x :: a', y :: b' => Ascii.eqb x y && str_eqb a' b'
  | _, _ => false
  end.

(** [x in collection] for a list or a set of strings. *)
Definition mem (x : str) (l : list str) : bool := existsb (str_eqb x) l.

(** [c in "..."] for a character. *)
Definition char_in (c : ascii) (l : list ascii) : bool := existsb (Ascii.eqb c) l.

(** [str.upper] on ASCII. *)
Definition upper_char (c : ascii) : ascii :=
  let n := nat_of_ascii c in
  if (97 <=? n) && (n <=? 122) then ascii_of_nat (n - 32) else c.

Definition upper (s : str) : str := map upper_char s.

(** Whitespace as [str.strip], [str.split] and the regex class [\s] see it
    (ASCII range): TAB, LF, VT, FF, CR, FS, GS, RS, US and the blank. *)
Definition is_space (c : ascii) : bool :=
  let n := nat_of_ascii c in
  ((9 <=? n) && (n <=? 13)) || ((28 <=? n) && (n <=? 32)).

Fixpoint dropwhile (A : Type) (p : A -> bool) (l : list A) : list A :=
  match l with
  | [] => []
  | x :: t => if p x then dropwhile p t else l
  end.

Definition lstrip (s : str) : str := dropwhile is_space s.
Definition rstrip_with (p : ascii -> bool) (s : str) : str := rev (dropwhile p (rev s)).
Definition strip (s : str) : str := rstrip_with is_space (lstrip s).

(** [str.split()] without argument: the maximal runs of non-blank characters. *)
Fixpoint split_from (cur : str) (s : str) : list str :=
  match s with
  | [] => match cur with [] => [] | _ => [rev cur] end
  | c :: t =>
      if is_space c
      then match cur with [] => split_from [] t | _ => rev cur :: split_from [] t end
      else split_from (c :: cur) t
  end.

Definition split (s : str) : list str := split_from [] s.

(** ["sep".join(parts)]. *)
Fixpoint join (sep : str) (parts : list str) : str :=
  match parts with
  | [] => []
  | [p] => p
  | p :: rest => p ++ sep ++ join sep rest
  end.

(** [s in t] for two strings: substring test. *)
Fixpoint is_prefix (p s : str) : bool :=
  match p, s with
  | [], _ => true
  | x :: p', y :: s' => Ascii.eqb x y && is_prefix p' s'
  | _ :: _, [] => false
  end.

Fixpoint is_substring (p s : str) : bool :=
  is_prefix p s || match s with [] => false | _ :: t => is_substring p t end.

(** Index normalisation of a slice bound, as [list[a:b]] performs it. *)
Definition slice_bound (len i : Z) : Z :=
  if (i <? 0)%Z then Z.max 0 (i + len) else Z.min i len.

(** [l[a:b]] with integer bounds (negative bounds count from the end). *)
Definition slice (A : Type) (l : list A) (a b : Z) : list A :=
  let len := Z.of_nat (List.length l) in
  let a' := slice_bound len a in
  let b' := slice_bound len b in
  firstn (Z.to_nat (b' - a')) (skipn (Z.to_nat a') l).

(** [list.index(x)]: position of the first occurrence, [None] for the
    [ValueError] raised when [x] is absent. *)
Fixpoint index (x : str) (l : list str) : option nat :=
  match l with
  | [] => None
  | y :: t => if str_eqb y x then Some 0 else option_map S (index x t)
  end.

(** [itertools.product] over the pools: tuples in lexicographic order, the rightmost
    pool advancing fastest. *)
Fixpoint product (A : Type) (pools : list (list A)) : list (list A) :=
  match pools with
  | [] => [[]]
  | pool :: rest => flat_map (fun x => map (cons x) (product rest)) pool
  end.

(** [list.sort(key=...)] and [sorted(..., key=...)] are stable: an element is
    placed in front of the first later element whose key is not smaller.  A
    stable sort is determined by its input, so insertion sort stands for the
    library routine. *)
Section StableSort.

Variables (A K : Type) (key : A -> K) (leb : K -> K -> bool).

Fixpoint insert_sorted (x : A) (l : list A) : list A :=
  match l with
  | [] => [x]
  | y :: t => if leb (key x) (key y) then x :: l else y :: insert_sorted x t
  end.

Definition sort_by (l : list A) : list A := fold_right insert_sorted [] l.

End StableSort.

(** Python sets of strings, through membership. *)
Definition set_add (x : str) (s : list str) : list str :=
  if mem x s then s else s ++ [x].
Definition intersection (a b : list str) : list str := filter (fun x => mem x b) a.
Definition difference (a b : list str) : list str := filter (fun x => negb (mem x b)) a.
Definition union (a b : list str) : list str := a ++ difference b a.

(** The iteration order of a small Python [set] of characters follows the
    hashes of its elements; string hashing is salted per interpreter run, so
    the order is a parameter of a run: some enumeration of the distinct
    elements. *)
Record HashOrder : Type := {
  iter_set : list ascii -> list ascii;
  iter_set_perm : forall l, Permutation (nodup ascii_dec l) (iter_set l)
}.

(** [max(a, b)] and [min(a, b)] on floats: the first argument is kept unless
    the second is strictly greater (smaller). *)
Definition fmax (a b : float) : float := if PrimFloat.ltb a b then b else a.
Definition fmin (a b : float) : float := if PrimFloat.ltb b a then b else a.

(** Conversion of an [int] to [float] in mixed arithmetic: round to nearest,
    ties to even.  (CPython raises [OverflowError] from 2^1024 on; the model
    saturates to infinity there.  Counts in this program are bounded by
    string lengths.) *)
Definition float_of_int (z : Z) : float := SF2Prim (binary_normalize prec emax z 0 false).

End Py.

Unset Implicit Arguments.

Import Py.

Open Scope char_scope.
Open Scope nat_scope.

(* ================================================================== *)
(** * [src/code_filters.py] *)
(* ================================================================== *)

Module CodeFilters.

(** [is_control_code]: a non-empty code whose upper-cased form starts with
    the letter I. *)
Definition is_control_code (code : str) : bool :=
  match code with
  | [] => false
  | _ => is_prefix ["I"] (upper code)
  end.

Record categories : Type := { normal : list str; control : list str }.

(** [categorize_codes_by_type]: every code goes to exactly one of the two
    sets. *)
Definition categorize_codes_by_type (codes_set : list str) : categories :=
  {| normal := filter (fun code => negb (is_control_code code)) codes_set;
     control := filter is_control_code codes_set |}.

End CodeFilters.

(* ================================================================== *)
(** * [src/ocr_correction.py]: class [OCRCorrector] *)
(* ================================================================== *)

Module OCRCorrector.

(** [self.substitutions]; [None] when the character is not a key. *)
Definition substitutions (c : ascii) : option (list ascii) :=
  match c with
  | "B" => Some ["8"]
  | "8" => Some ["B"]
  | "O" => Some ["0"]
  | "0" => Some ["O"]
  | "I" => Some ["1"; "l"]
  | "1" => Some ["I"; "l"]
  | "l" => Some ["I"; "1"]
  | "S" => Some ["5"; "Z"]
  | "5" => Some ["S"; "Z"]
  | "Z" => Some ["S"; "5"; "2"]
  | "2" => Some ["Z"]
  | "G" => Some ["6"]
  | "6" => Some ["G"]
  | "E" => Some ["F"]
  | "F" => Some ["E"]
  | _ => None
  end.

(** [clean_whitespace]: [re.sub(r'\s+', '', code.strip())]. *)
Definition clean_whitespace (code : str) : str :=
  filter (fun c => negb (is_space c)) (strip code).

(** [apply_zero_rule]: drop a zero in second place of a code longer than
    three characters. *)
Definition apply_zero_rule (code : str) : str :=
  if (3 <? List.length code) && (1 <? List.length code) && Ascii.eqb (nth 1 code " ") "0"
  then
    let potential_cleaned := firstn 1 code ++ skipn 2 code in
    if 3 <=? List.length potential_cleaned then potential_cleaned else code
  else code.

(** [variant = list(code); variant[i] = replacement; ''.join(variant)]
    for an index in range. *)
Fixpoint set_char (i : nat) (c : ascii) (code : str) : str :=
  match code, i with
  | [], _ => []
  | _ :: t, O => c :: t
  | x :: t, S j => x :: set_char j c t
  end.

(** Characters with their positions: [enumerate(code)]. *)
Definition enumerate {A : Type} (l : list A) : list (nat * A) :=
  combine (seq 0 (List.length l)) l.

(** [generate_simple_variants]: single substitutions, each also tried with
    the zero rule; a list without repetitions, in generation order. *)
Definition generate_simple_variants (code : str) : list str :=
  let cleaned_code := upper (clean_whitespace code) in
  fold_left
    (fun variants '(i, char) =>
       match substitutions char with
       | None => variants
       | Some replacements =>
           fold_left
             (fun variants replacement =>
                let variant_code := set_char i replacement cleaned_code in
                let variant_with_zero_rule := apply_zero_rule variant_code in
                let variants :=
                  if negb (mem variant_code variants)
                  then variants ++ [variant_code] else variants in
                if negb (mem variant_with_zero_rule variants)
                   && negb (str_eqb variant_with_zero_rule variant_code)
                then variants ++ [variant_with_zero_rule] else variants)
             replacements variants
       end)
    (enumerate cleaned_code) [].

(** [generate_variants]: the set of all combinations of substitutions, each
    also with the zero rule applied. *)
Definition generate_variants (code : str) : list str :=
  let cleaned_code := upper (clean_whitespace code) in
  let variants := set_add cleaned_code [] in
  let positions_to_substitute :=
    flat_map (fun '(i, char) =>
                match substitutions char with
                | Some replacements => [(i, char, replacements)]
                | None => []
                end) (enumerate cleaned_code) in
  match positions_to_substitute with
  | [] => variants
  | _ =>
      let substitution_combinations :=
        map (fun '(pos, original_char, replacements) =>
               (pos, original_char) :: map (fun repl => (pos, repl)) replacements)
            positions_to_substitute in
      fold_left
        (fun variants combination =>
           let variant_code :=
             fold_left (fun variant '(pos, new_char) =>
                          if negb (Ascii.eqb (nth pos variant " ") new_char)
                          then set_char pos new_char variant else variant)
                       combination cleaned_code in
           let variant_with_zero_rule := apply_zero_rule variant_code in
           set_add variant_with_zero_rule (set_add variant_code variants))
        (product substitution_combinations) variants
  end.

End OCRCorrector.

(* ================================================================== *)
(** * [src/core.py] *)
(* ================================================================== *)

Module Core.

Import CodeFilters.

Section Resolver.

(** Iteration order of the character sets built during this run. *)
Variable h : HashOrder.

(** The confusion table [ocr_substitutions] of [generate_all_ocr_variants];
    [None] when the character is not a key. *)
Definition ocr_substitutions (c : ascii) : option (list ascii) :=
  match c with
  | "0" => Some ["O"]
  | "O" => Some ["0"]
  | "8" => Some ["B"]
  | "B" => Some ["8"]
  | "I" => Some ["1"; "L"]
  | "1" => Some ["I"; "L"]
  | "L" => Some ["I"; "1"]
  | "5" => Some ["S"]
  | "S" => Some ["5"]
  | "6" => Some ["G"]
  | "G" => Some ["6"]
  | "2" => Some ["Z"]
  | "Z" => Some ["2"]
  | _ => None
  end.

(** [get_variants_for_position]: [list(set(variants))], the original
    character and its confusables in the set's iteration order. *)
Definition get_variants_for_position (char : ascii) : list ascii :=
  let variants :=
    [char] ++ match ocr_substitutions char with
              | Some l => l
              | None => []
              end in
  iter_set h variants.

(** [count_changes]: positions, within the length of [code], at which
    [variant] differs from [code]. *)
Fixpoint count_changes (code variant : str) : nat :=
  match variant, code with
  | v :: variant', c :: code' =>
      (if Ascii.eqb v c then 0 else 1) + count_changes code' variant'
  | _, _ => 0
  end.

(** [generate_all_ocr_variants]. *)
Definition generate_all_ocr_variants (code : str) : list str :=
  let position_variants := map get_variants_for_position code in
  let all_variants :=
    filter (fun variant => negb (str_eqb variant code)) (product position_variants) in
  code :: sort_by (count_changes code) Nat.leb all_variants.

Definition is_trailing_punct (c : ascii) : bool :=
  char_in c ["."; ","; ":"; ";"; ")"].

Definition newline : ascii := ascii_of_nat 10.

(** [re.sub(r'[.,:;)]+$', '', s)]: the trailing run of punctuation is
    removed; [$] also matches just before a final line feed. *)
Definition sub_trailing_punct (s : str) : str :=
  match rev s with
  | last :: r =>
      if Ascii.eqb last newline
      then rev (dropwhile is_trailing_punct r) ++ [last]
      else rstrip_with is_trailing_punct s
  | [] => []
  end.

(** The first element of [variants] that is a vocabulary member: the
    [for variant in variants: if variant in master_codes_set: return] loop. *)
Definition first_hit (master_codes_set : list str) (variants : list str) : option str :=
  find (fun variant => mem variant master_codes_set) variants.

(** [clean_code_advanced] (the log lines are left out). *)
Definition clean_code_advanced (code : str) (master_codes_set : list str) : str :=
  match code with
  | [] => upper (strip code)
  | _ =>
      let cleaned := upper (sub_trailing_punct (strip code)) in
      match master_codes_set with
      | [] => cleaned
      | _ =>
          match first_hit master_codes_set (generate_all_ocr_variants cleaned) with
          | Some variant => variant
          | None =>
              if (3 <? List.length cleaned) && (1 <? List.length cleaned)
                 && char_in (nth 1 cleaned " ") ["0"; "O"]
              then
                let shortened := firstn 1 cleaned ++ skipn 2 cleaned in
                if 3 <=? List.length shortened
                then match first_hit master_codes_set
                             (generate_all_ocr_variants shortened) with
                     | Some variant => variant
                     | None => cleaned
                     end
                else cleaned
              else cleaned
          end
      end
  end.

End Resolver.

(** [count_corrections_needed]. *)
Definition count_corrections_needed (original corrected : str) : Z :=
  if str_eqb original corrected then 0%Z
  else
    let original := strip (upper original) in
    let corrected := strip (upper corrected) in
    let length_diff :=
      Z.abs (Z.of_nat (List.length original) - Z.of_nat (List.length corrected)) in
    let corrections := length_diff in
    let min_length := Nat.min (List.length original) (List.length corrected) in
    fold_left
      (fun corrections i =>
         if negb (Ascii.eqb (nth i original " ") (nth i corrected " "))
         then (corrections + 1)%Z else corrections)
      (seq 0 min_length) corrections.

(** The dictionary [{'before': [...], 'after': [...]}]. *)
Record context : Type := { before : list str; after : list str }.

(** [get_validated_context_codes]: the window around the position given by
    [list.index]; the [ValueError] of an absent target is caught. *)
Definition get_validated_context_codes
    (all_validated_codes : list str) (target_code : str) (context_size : Z) : context :=
  match index target_code all_validated_codes with
  | Some idx =>
      let index := Z.of_nat idx in
      {| before := slice all_validated_codes (Z.max 0 (index - context_size)) index;
         after := slice all_validated_codes (index + 1) (index + 1 + context_size) |}
  | None => {| before := []; after := [] |}
  end.

(** The dictionary [context_details]. *)
Record context_details : Type := {
  before_matches : nat;
  after_matches : nat;
  before_total : nat;
  after_total : nat
}.

Local Open Scope float_scope.

(** One of the two context loops of [calculate_precise_probability]:
    [for i in range(total): if xs[i] == ys[i]: bonus += weights[i]; matches += 1]. *)
Definition context_loop (xs ys : list str) (weights : list float) (total : nat)
    (start : float * nat) : float * nat :=
  fold_left
    (fun '(context_bonus, matches) i =>
       if str_eqb (nth i xs []) (nth i ys [])
       then (context_bonus + nth i weights 0, S matches)
       else (context_bonus, matches))
    (seq 0 total) start.

(** [calculate_precise_probability].  [before[-(i+1)]] is read as element
    [i] of the reversed list. *)
Definition calculate_precise_probability
    (code : str) (corrections_pdf1 corrections_pdf2 : Z)
    (context_pdf1 context_pdf2 : context) (is_in_both : bool)
  : float * context_details :=
  let probability := if is_in_both then 0.80 else 0.40 in
  let total_corrections := (corrections_pdf1 + corrections_pdf2)%Z in
  let probability := probability - float_of_int total_corrections * 0.10 in
  let probability := fmax 0.0 probability in
  if is_in_both then
    let context_bonus := 0.0 in
    let '(before_weights, after_weights) :=
      if (total_corrections =? 0)%Z
      then ([0.10; 0.05; 0.02], [0.08; 0.05; 0.02])
      else if (total_corrections =? 2)%Z && (corrections_pdf1 =? 1)%Z
              && (corrections_pdf2 =? 1)%Z
      then ([0.10; 0.07; 0.03], [0.10; 0.07; 0.03])
      else ([0.08; 0.05; 0.02], [0.08; 0.05; 0.02]) in
    let before_pdf1 := before context_pdf1 in
    let before_pdf2 := before context_pdf2 in
    let before_total :=
      Nat.min (Nat.min (List.length before_pdf1) (List.length before_pdf2)) 3 in
    let '(context_bonus, before_matches) :=
      context_loop (rev before_pdf1) (rev before_pdf2) before_weights before_total
                   (context_bonus, 0%nat) in
    let after_pdf1 := after context_pdf1 in
    let after_pdf2 := after context_pdf2 in
    let after_total :=
      Nat.min (Nat.min (List.length after_pdf1) (List.length after_pdf2)) 3 in
    let '(context_bonus, after_matches) :=
      context_loop after_pdf1 after_pdf2 after_weights after_total
                   (context_bonus, 0%nat) in
    let probability := probability + context_bonus in
    (fmax 0.0 (fmin 1.0 probability),
     {| before_matches := before_matches; after_matches := after_matches;
        before_total := before_total; after_total := after_total |})
  else
    (fmax 0.0 (fmin 1.0 probability),
     {| before_matches := 0; after_matches := 0; before_total := 0; after_total := 0 |}).

Local Close Scope float_scope.

(** One clause of the text returned by [analyze_corrections]; the returned
    string is the clauses joined by commas. *)
Inductive correction_detail : Type :=
| Zero_removed                       (* "0 an 2. Stelle entfernt" *)
| Substituted (orig_char corr_char : ascii)
| Blank_removed                      (* "Leerzeichen entfernt" *)
| Generic_OCR.                       (* "OCR-Korrektur" *)

(** The character pairs that [analyze_corrections] names. *)
Definition named_pair (orig_char corr_char : ascii) : bool :=
  existsb (fun '(a, b) => Ascii.eqb orig_char a && Ascii.eqb corr_char b)
    [("8", "B"); ("B", "8"); ("I", "1"); ("1", "I"); ("0", "O"); ("O", "0");
     ("5", "S"); ("S", "5"); ("6", "G"); ("G", "6"); ("2", "Z"); ("Z", "2")].

(** [analyze_corrections]: [None] for equal strings, otherwise a non-empty
    description. *)
Definition analyze_corrections (original corrected : str)
  : option (list correction_detail) :=
  if str_eqb original corrected then None
  else if (List.length corrected <? List.length original)
          && (1 <? List.length original)
          && char_in (nth 1 original " ") ["0"; "O"]
          && str_eqb (firstn 1 original ++ skipn 2 original) corrected
  then Some [Zero_removed]
  else
    let correction_details :=
      flat_map (fun '(orig_char, corr_char) =>
                  if negb (Ascii.eqb orig_char corr_char) && named_pair orig_char corr_char
                  then [Substituted orig_char corr_char] else [])
               (combine original corrected) in
    let correction_details :=
      if char_in " " original && negb (char_in " " corrected)
      then correction_details ++ [Blank_removed] else correction_details in
    Some (match correction_details with
          | [] => [Generic_OCR]
          | _ => correction_details
          end).

(** An entry of [correction_info], as [extract_codes] records it. *)
Record corr_info : Type := {
  ci_original : str;
  ci_corrected : str;
  ci_page : Z;
  ci_position : Z;
  ci_corrections_applied : list (list correction_detail);
  ci_corrections_count : nat
}.

(** Truth value of a string that may be [None]. *)
Definition truthy (m : option str) : bool :=
  match m with
  | Some (_ :: _) => true
  | _ => false
  end.

Section Engine.

Variable h : HashOrder.

(** The loop [for i, code in enumerate(raw_codes)] of [extract_codes]
    (validation of the raw codes against the master list), one iteration.
    The state is [(validated_codes_from_pdf, correction_info)]. *)
Definition validate_code (master_codes_set : list str)
    (st : list str * list corr_info) (entry : nat * str) : list str * list corr_info :=
  let '(validated_codes_from_pdf, correction_info) := st in
  let '(i, code) := entry in
  let original_code := strip (upper code) in
  let basic_cleaned := upper (sub_trailing_punct (strip original_code)) in
  if mem basic_cleaned master_codes_set
  then (set_add basic_cleaned validated_codes_from_pdf, correction_info)
  else
    let corrections_applied := [] in
    let current_code := basic_cleaned in
    let found_match := first_hit master_codes_set (generate_all_ocr_variants h current_code) in
    let corrections_applied :=
      match found_match with
      | Some variant =>
          if negb (str_eqb variant current_code)
          then match analyze_corrections current_code variant with
               | Some variant_corrections => corrections_applied ++ [variant_corrections]
               | None => corrections_applied
               end
          else corrections_applied
      | None => corrections_applied
      end in
    let '(found_match, corrections_applied) :=
      if negb (truthy found_match)
         && (3 <? List.length current_code) && (1 <? List.length current_code)
         && char_in (nth 1 current_code " ") ["0"; "O"]
      then
        let shortened := firstn 1 current_code ++ skipn 2 current_code in
        if 3 <=? List.length shortened
        then
          let corrections_applied := corrections_applied ++ [[Zero_removed]] in
          let current_code := shortened in
          match first_hit master_codes_set (generate_all_ocr_variants h current_code) with
          | Some variant =>
              (Some variant,
               if negb (str_eqb variant current_code)
               then match analyze_corrections current_code variant with
                    | Some additional_corrections =>
                        corrections_applied ++ [additional_corrections]
                    | None => corrections_applied
                    end
               else corrections_applied)
          | None => (found_match, corrections_applied)
          end
        else (found_match, corrections_applied)
      else (found_match, corrections_applied) in
    match found_match with
    | Some (c :: m) =>
        let found := c :: m in
        (set_add found validated_codes_from_pdf,
         match corrections_applied with
         | [] => correction_info
         | _ =>
             correction_info ++
             [{| ci_original := original_code;
                 ci_corrected := found;
                 ci_page := (Z.of_nat i / 10 + 1)%Z;
                 ci_position := Z.of_nat i;
                 ci_corrections_applied := corrections_applied;
                 ci_corrections_count := List.length corrections_applied |}]
         end)
    | _ => (validated_codes_from_pdf, correction_info)
    end.

(** The validation part of [extract_codes]: from the raw codes to the set of
    validated codes and the correction records. *)
Definition validate_codes (raw_codes : list str) (master_codes_set : list str)
  : list str * list corr_info :=
  fold_left (validate_code master_codes_set) (OCRCorrector.enumerate raw_codes) ([], []).

(** ** [compare_codes_with_correction] *)

Inductive correction_type : Type :=
| Erweiterte_OCR_Korrektur
| Korrekturmatch
| Direkter_Match.

(** An entry of [all_corrections] (page and comment text are left out). *)
Record correction : Type := {
  c_original : str;
  c_corrected : str;
  c_probability : float;
  c_type : correction_type
}.

(** The three membership sets. *)
Record membership : Type := {
  in_both : list str;
  only_in_pdf1 : list str;
  only_in_pdf2 : list str
}.

(** The sets of one comparison: overall and per category. *)
Record comparison : Type := {
  overall : membership;
  normal_sets : membership;
  control_sets : membership
}.

(** The dictionary returned by [compare_codes_with_correction] (without the
    constant legend). *)
Record result : Type := {
  original : comparison;
  corrected : comparison;
  corrections : list correction
}.

(** The set algebra that the function performs on the validated sets, and
    again on the corrected ones. *)
Definition compare_sets (codes_pdf1 codes_pdf2 : list str) : comparison :=
  let pdf1_categories := categorize_codes_by_type codes_pdf1 in
  let pdf2_categories := categorize_codes_by_type codes_pdf2 in
  let normal_in_both := intersection (normal pdf1_categories) (normal pdf2_categories) in
  let normal_only_in_pdf1 := difference (normal pdf1_categories) (normal pdf2_categories) in
  let normal_only_in_pdf2 := difference (normal pdf2_categories) (normal pdf1_categories) in
  let control_in_both := intersection (control pdf1_categories) (control pdf2_categories) in
  let control_only_in_pdf1 := difference (control pdf1_categories) (control pdf2_categories) in
  let control_only_in_pdf2 := difference (control pdf2_categories) (control pdf1_categories) in
  {| overall := {| in_both := union normal_in_both control_in_both;
                   only_in_pdf1 := union normal_only_in_pdf1 control_only_in_pdf1;
                   only_in_pdf2 := union normal_only_in_pdf2 control_only_in_pdf2 |};
     normal_sets := {| in_both := normal_in_both;
                       only_in_pdf1 := normal_only_in_pdf1;
                       only_in_pdf2 := normal_only_in_pdf2 |};
     control_sets := {| in_both := control_in_both;
                        only_in_pdf1 := control_only_in_pdf1;
                        only_in_pdf2 := control_only_in_pdf2 |} |}.

(** A raw code with its page and position. *)
Definition raw_code : Type := (str * Z * Z)%type.

(** [sorted(raw_codes, key=lambda x: (x[1], x[2]))]. *)
Definition position_leb (a b : Z * Z) : bool :=
  (fst a <? fst b)%Z || ((fst a =? fst b)%Z && (snd a <=? snd b)%Z).

Definition sort_raw (raw_codes : list raw_code) : list raw_code :=
  sort_by (fun x : raw_code => (snd (fst x), snd x)) position_leb raw_codes.

(** [all_validated_pdf1] and [all_validated_pdf2]: the resolved codes of a
    document in reading order, restricted to vocabulary members. *)
Definition all_validated (raw_codes : list raw_code) (master_codes_set : list str)
  : list str :=
  filter (fun code => mem code master_codes_set)
         (map (fun x : raw_code => clean_code_advanced h (fst (fst x)) master_codes_set)
              (sort_raw raw_codes)).

(** The loop state: [(all_corrections, corrected_codes_pdf1)]. *)
Definition state : Type := (list correction * list str)%type.

(** Resolver-sourced corrections of document 1 (lines 819-855). *)
Definition add_resolver_corrections_pdf1
    (all_validated_pdf1 all_validated_pdf2 : list str)
    (correction_info_pdf1 : list corr_info) (st : state) : state :=
  fold_left
    (fun '(all_corrections, corrected_codes_pdf1) info =>
       let context_pdf1 := get_validated_context_codes all_validated_pdf1 (ci_corrected info) 3 in
       let context_pdf2 := get_validated_context_codes all_validated_pdf2 (ci_corrected info) 3 in
       let corrections_count := count_corrections_needed (ci_original info) (ci_corrected info) in
       let '(probability, _) :=
         calculate_precise_probability (ci_corrected info) corrections_count 0
                                       context_pdf1 context_pdf2 true in
       (all_corrections ++
        [{| c_original := ci_original info; c_corrected := ci_corrected info;
            c_probability := probability; c_type := Erweiterte_OCR_Korrektur |}],
        set_add (ci_corrected info) corrected_codes_pdf1))
    correction_info_pdf1 st.

(** Resolver-sourced corrections of document 2 (lines 857-890): recorded,
    the set of document 1 is left as it is. *)
Definition add_resolver_corrections_pdf2
    (all_validated_pdf1 all_validated_pdf2 : list str)
    (correction_info_pdf2 : list corr_info) (st : state) : state :=
  fold_left
    (fun '(all_corrections, corrected_codes_pdf1) info =>
       let context_pdf1 := get_validated_context_codes all_validated_pdf1 (ci_corrected info) 3 in
       let context_pdf2 := get_validated_context_codes all_validated_pdf2 (ci_corrected info) 3 in
       let corrections_count := count_corrections_needed (ci_original info) (ci_corrected info) in
       let '(probability, _) :=
         calculate_precise_probability (ci_corrected info) 0 corrections_count
                                       context_pdf1 context_pdf2 true in
       (all_corrections ++
        [{| c_original := ci_original info; c_corrected := ci_corrected info;
            c_probability := probability; c_type := Erweiterte_OCR_Korrektur |}],
        corrected_codes_pdf1))
    correction_info_pdf2 st.

(** An entry of [whitespace_combinations]. *)
Record combination : Type := {
  combined : str;
  parts : list str;
  line : nat;
  substitutions : list str;
  penalty : float
}.

(** [range(a, b)]. *)
Definition range (a b : nat) : list nat := seq a (b - a).

(** The token groups of one text line and what they give rise to
    (lines 911-953).  The set [potential_fragments] of the source only feeds
    a log line and is left out. *)
Definition line_combinations (master_codes_set : list str) (line_idx : nat) (text : str)
  : list combination :=
  let tokens := split text in
  flat_map
    (fun start_idx =>
       flat_map
         (fun end_idx =>
            let token_group :=
              slice tokens (Z.of_nat start_idx) (Z.of_nat end_idx) in
            let base_combined := OCRCorrector.clean_whitespace (join [] token_group) in
            if (3 <=? List.length base_combined) && (List.length base_combined <=? 7)
            then
              let is_relevant :=
                existsb (fun token =>
                           let clean_token := upper (OCRCorrector.clean_whitespace token) in
                           existsb (fun master_code => is_substring clean_token master_code)
                                   master_codes_set)
                        token_group in
              if is_relevant
              then
                {| combined := base_combined; parts := token_group; line := line_idx;
                   substitutions := []; penalty := 0%float |}
                ::
                flat_map
                  (fun variant =>
                     if negb (str_eqb variant base_combined)
                        && (3 <=? List.length variant) && (List.length variant <=? 7)
                     then [{| combined := variant; parts := token_group; line := line_idx;
                              substitutions := [lit "OCR-Korrektur"]; penalty := 0.1%float |}]
                     else [])
                  (firstn 3 (OCRCorrector.generate_simple_variants base_combined))
              else []
            else [])
         (range (start_idx + 2) (Nat.min (start_idx + 4) (List.length tokens + 1))))
    (range 0 (List.length tokens)).

(** [whitespace_combinations] (lines 895-969).  An absent ([None]) text
    corpus is the empty list. *)
Definition whitespace_combinations (raw_codes_pdf1 : list raw_code)
    (master_codes_set : list str) (all_text_lines_pdf1 : list str) : list combination :=
  match all_text_lines_pdf1 with
  | _ :: _ =>
      flat_map (fun '(line_idx, text) => line_combinations master_codes_set line_idx text)
               (OCRCorrector.enumerate all_text_lines_pdf1)
  | [] =>
      let raw_codes_only := map (fun x : raw_code => fst (fst x)) raw_codes_pdf1 in
      flat_map
        (fun i =>
           let first := nth i raw_codes_only [] in
           let second := nth (i + 1) raw_codes_only [] in
           let combined := OCRCorrector.clean_whitespace (first ++ second) in
           if (3 <=? List.length combined) && (List.length combined <=? 7)
           then [{| combined := combined; parts := [first; second]; line := i;
                    substitutions := []; penalty := 0%float |}]
           else [])
        (range 0 (List.length raw_codes_only - 1))
  end.

(** Fragment-merge corrections (lines 971-1028).  The two context look-ups
    inside the [try] block are never read and are left out. *)
Definition add_whitespace_corrections
    (codes_pdf2 master_codes_set all_validated_pdf1 all_validated_pdf2 : list str)
    (combos : list combination) (st : state) : state :=
  fold_left
    (fun '(all_corrections, corrected_codes_pdf1) combo =>
       let combined_cleaned := clean_code_advanced h (combined combo) master_codes_set in
       if mem combined_cleaned master_codes_set && mem combined_cleaned codes_pdf2
       then
         let has_substitutions := 0 <? List.length (substitutions combo) in
         let context_pdf1_unified :=
           get_validated_context_codes all_validated_pdf1 combined_cleaned 3 in
         let context_pdf2_unified :=
           get_validated_context_codes all_validated_pdf2 combined_cleaned 3 in
         let corrections_count :=
           count_corrections_needed (join [" "%char] (parts combo)) combined_cleaned in
         let '(probability, _) :=
           calculate_precise_probability combined_cleaned corrections_count 0
                                         context_pdf1_unified context_pdf2_unified true in
         let probability :=
           if has_substitutions
           then (fmax 0.1 (fmin 1.0 (probability + (0.1 - penalty combo))))%float
           else probability in
         if PrimFloat.leb 0.6%float probability
         then (all_corrections ++
               [{| c_original := join [" "%char] (parts combo);
                   c_corrected := combined_cleaned;
                   c_probability := probability; c_type := Korrekturmatch |}],
               set_add combined_cleaned corrected_codes_pdf1)
         else (all_corrections, corrected_codes_pdf1)
       else (all_corrections, corrected_codes_pdf1))
    combos st.

(** Cross-document substitution corrections (lines 1032-1092).  Positions,
    neighbour look-ups and the substitution flag computed by the source are
    never read and are left out. *)
Definition add_substitution_corrections
    (only_in_pdf2 : list str) (raw_codes_pdf1 : list raw_code)
    (master_codes_set all_validated_pdf1 all_validated_pdf2 : list str)
    (st : state) : state :=
  fold_left
    (fun st target_code =>
       let possible_variants := OCRCorrector.generate_variants target_code in
       fold_left
         (fun '(all_corrections, corrected_codes_pdf1) (raw : raw_code) =>
            let cleaned_raw := clean_code_advanced h (fst (fst raw)) master_codes_set in
            if mem cleaned_raw possible_variants && negb (mem cleaned_raw master_codes_set)
            then
              let context_pdf1_unified :=
                get_validated_context_codes all_validated_pdf1 target_code 3 in
              let context_pdf2_unified :=
                get_validated_context_codes all_validated_pdf2 target_code 3 in
              let corrections_count := count_corrections_needed cleaned_raw target_code in
              let '(probability, _) :=
                calculate_precise_probability target_code corrections_count 0
                                              context_pdf1_unified context_pdf2_unified true in
              if PrimFloat.leb 0.6%float probability
              then (all_corrections ++
                    [{| c_original := cleaned_raw; c_corrected := target_code;
                        c_probability := probability; c_type := Korrekturmatch |}],
                    set_add target_code corrected_codes_pdf1)
              else (all_corrections, corrected_codes_pdf1)
            else (all_corrections, corrected_codes_pdf1))
         raw_codes_pdf1 st)
    only_in_pdf2 st.

(** Classification of the baseline matches (lines 1097-1140). *)
Definition add_direct_matches
    (in_both_codes all_validated_pdf1 all_validated_pdf2 : list str)
    (correction_info_pdf1 correction_info_pdf2 : list corr_info)
    (all_corrections : list correction) : list correction :=
  let codes_with_corrections :=
    fold_left (fun acc info =>
                 if 0 <? ci_corrections_count info then set_add (ci_corrected info) acc else acc)
              (correction_info_pdf1 ++ correction_info_pdf2) [] in
  fold_left
    (fun all_corrections code =>
       let had_corrections := mem code codes_with_corrections in
       if had_corrections then all_corrections
       else
         let context_pdf1_unified := get_validated_context_codes all_validated_pdf1 code 1 in
         let context_pdf2_unified := get_validated_context_codes all_validated_pdf2 code 1 in
         let '(probability, _) :=
           calculate_precise_probability code 0 0
                                         context_pdf1_unified context_pdf2_unified true in
         all_corrections ++
         [{| c_original := code; c_corrected := code;
             c_probability := probability; c_type := Direkter_Match |}])
    in_both_codes all_corrections.

(** The corrections found and document 1's corrected set, after the three
    discovery passes: the state of [all_corrections] and
    [corrected_codes_pdf1] at line 1093. *)
Definition discover_corrections
    (codes_pdf1 codes_pdf2 : list str) (raw_codes_pdf1 raw_codes_pdf2 : list raw_code)
    (master_codes_set : list str) (all_text_lines_pdf1 : list str)
    (correction_info_pdf1 correction_info_pdf2 : list corr_info) : state :=
  let only_in_pdf2 := only_in_pdf2 (overall (compare_sets codes_pdf1 codes_pdf2)) in
  let all_validated_pdf1 := all_validated raw_codes_pdf1 master_codes_set in
  let all_validated_pdf2 := all_validated raw_codes_pdf2 master_codes_set in
  let st : state := ([], codes_pdf1) in
  let st := add_resolver_corrections_pdf1 all_validated_pdf1 all_validated_pdf2
                                          correction_info_pdf1 st in
  let st := add_resolver_corrections_pdf2 all_validated_pdf1 all_validated_pdf2
                                          correction_info_pdf2 st in
  let st := add_whitespace_corrections codes_pdf2 master_codes_set
              all_validated_pdf1 all_validated_pdf2
              (whitespace_combinations raw_codes_pdf1 master_codes_set all_text_lines_pdf1)
              st in
  add_substitution_corrections only_in_pdf2 raw_codes_pdf1 master_codes_set
                               all_validated_pdf1 all_validated_pdf2 st.

(** [compare_codes_with_correction].  Absent ([None]) correction records
    are the empty list. *)
Definition compare_codes_with_correction
    (codes_pdf1 codes_pdf2 : list str) (raw_codes_pdf1 raw_codes_pdf2 : list raw_code)
    (master_codes_set : list str) (all_text_lines_pdf1 : list str)
    (correction_info_pdf1 correction_info_pdf2 : list corr_info) : result :=
  let baseline := compare_sets codes_pdf1 codes_pdf2 in
  let all_validated_pdf1 := all_validated raw_codes_pdf1 master_codes_set in
  let all_validated_pdf2 := all_validated raw_codes_pdf2 master_codes_set in
  let '(all_corrections, corrected_codes_pdf1) :=
    discover_corrections codes_pdf1 codes_pdf2 raw_codes_pdf1 raw_codes_pdf2
                         master_codes_set all_text_lines_pdf1
                         correction_info_pdf1 correction_info_pdf2 in
  let all_corrections :=
    add_direct_matches (in_both (overall baseline)) all_validated_pdf1 all_validated_pdf2
                       correction_info_pdf1 correction_info_pdf2 all_corrections in
  {| original := baseline;
     corrected := compare_sets corrected_codes_pdf1 codes_pdf2;
     corrections := all_corrections |}.

(** The run of [main.py]: both documents are validated by [extract_codes],
    then compared. *)
Definition run_comparison
    (raw_codes_pdf1 raw_codes_pdf2 : list raw_code) (master_codes_set : list str)
    (all_text_lines_pdf1 : list str) : result :=
  let '(codes_pdf1, correction_info_pdf1) :=
    validate_codes (map (fun x : raw_code => fst (fst x)) raw_codes_pdf1) master_codes_set in
  let '(codes_pdf2, correction_info_pdf2) :=
    validate_codes (map (fun x : raw_code => fst (fst x)) raw_codes_pdf2) master_codes_set in
  compare_codes_with_correction codes_pdf1 codes_pdf2 raw_codes_pdf1 raw_codes_pdf2
                                master_codes_set all_text_lines_pdf1
                                correction_info_pdf1 correction_info_pdf2.

End Engine.

(** ** Further functions of [core.py] *)

(** [clean_code]: the wrapper kept for backward compatibility. *)
Definition clean_code (h : HashOrder) (code : str) (master_codes_set : list str) : str :=
  clean_code_advanced h code master_codes_set.

(** [calculate_unified_probability]: the corrections are split between the
    two documents ([//] is the floor division) and the match is scored as
    present in both. *)
Definition calculate_unified_probability
    (original corrected : str) (context_pdf1 context_pdf2 : context)
    (master_codes_set : list str) : float :=
  let corrections_count := count_corrections_needed original corrected in
  let corrections_pdf1 := (corrections_count / 2)%Z in
  let corrections_pdf2 := (corrections_count - corrections_pdf1)%Z in
  fst (calculate_precise_probability corrected corrections_pdf1 corrections_pdf2
                                     context_pdf1 context_pdf2 true).

(** [compare_codes]: the three sets of the plain comparison. *)
Definition compare_codes (codes_pdf1 codes_pdf2 : list str) : membership :=
  {| in_both := intersection codes_pdf1 codes_pdf2;
     only_in_pdf1 := difference codes_pdf1 codes_pdf2;
     only_in_pdf2 := difference codes_pdf2 codes_pdf1 |}.

End Core.

(* ================================================================== *)
(** * [src/ocr_correction.py]: the methods of [OCRCorrector] that work on
      positions and contexts *)
(* ================================================================== *)

Module OCRCorrectorContext.

Import OCRCorrector.

(** [str.lower] on ASCII. *)
Definition lower_char (c : ascii) : ascii :=
  let n := nat_of_ascii c in
  if (65 <=? n) && (n <=? 90) then ascii_of_nat (n + 32) else c.

Definition lower (s : str) : str := map lower_char s.

(** The test of [filter_codes_before_minus_options] on one line. *)
Definition mentions_minus_options (text : str) : bool :=
  is_substring (lit "minus options") (lower text)
  || is_substring (lit "minus-options") (lower text).

(** Index of the first line that mentions the marker: the search loop with
    its [break]. *)
Fixpoint find_minus_options (line_idx : nat) (all_text_lines : list str) : option nat :=
  match all_text_lines with
  | [] => None
  | text :: rest =>
      if mentions_minus_options text then Some line_idx
      else find_minus_options (S line_idx) rest
  end.

(** [filter_codes_before_minus_options]. *)
Definition filter_codes_before_minus_options
    (all_text_lines : list str) (raw_codes_with_positions : list Core.raw_code)
  : list Core.raw_code :=
  match find_minus_options 0 all_text_lines with
  | None => raw_codes_with_positions
  | Some minus_options_line =>
      filter (fun x : Core.raw_code =>
                let estimated_line := (snd x / 10)%Z in
                (estimated_line <=? Z.of_nat minus_options_line)%Z)
             raw_codes_with_positions
  end.

(** [get_context_codes]: the codes around a position of a list; nothing for
    a position outside the list. *)
Definition get_context_codes (codes_list : list str) (position context_size : Z)
  : Core.context :=
  let len := Z.of_nat (List.length codes_list) in
  if (0 <=? position)%Z && (position <? len)%Z
  then
    let start_before := Z.max 0 (position - context_size) in
    let end_after := Z.min len (position + context_size + 1) in
    {| Core.before := slice codes_list start_before position;
       Core.after := slice codes_list (position + 1) end_after |}
  else {| Core.before := []; Core.after := [] |}.

(** The cleaning step written out in [get_validated_context_codes]. *)
Definition clean_for_context (code : str) : str :=
  let cleaned := upper (clean_whitespace code) in
  if (3 <? List.length cleaned) && Ascii.eqb (nth 1 cleaned " ") "0"
  then
    let potential_cleaned := firstn 1 cleaned ++ skipn 2 cleaned in
    if 3 <=? List.length potential_cleaned then potential_cleaned else cleaned
  else cleaned.

(** Position of the first entry with the given position field. *)
Fixpoint find_position (position : Z) (validated_codes : list Core.raw_code) : option nat :=
  match validated_codes with
  | [] => None
  | x :: rest =>
      if (snd x =? position)%Z then Some 0
      else option_map S (find_position position rest)
  end.

(** [[l[i][0] for i in range(a, b)]] for a lower bound that is not
    negative. *)
Definition codes_between (validated_codes : list Core.raw_code) (a b : Z) : list str :=
  map (fun i => fst (fst (nth i validated_codes ([], 0%Z, 0%Z))))
      (seq (Z.to_nat a) (Z.to_nat (b - a))).

(** [get_validated_context_codes] (the method): the validated codes in
    reading order around the entry at a position. *)
Definition get_validated_context_codes
    (all_codes_with_positions : list Core.raw_code) (master_codes_set : list str)
    (position : Z) (context_size : Z) : Core.context :=
  let validated_codes :=
    flat_map (fun x : Core.raw_code =>
                let cleaned := clean_for_context (fst (fst x)) in
                if mem cleaned master_codes_set
                then [(cleaned, snd (fst x), snd x)] else [])
             all_codes_with_positions in
  let validated_codes :=
    sort_by (fun x : Core.raw_code => (snd (fst x), snd x)) Core.position_leb
            validated_codes in
  match find_position position validated_codes with
  | Some idx =>
      let current_index := Z.of_nat idx in
      let len := Z.of_nat (List.length validated_codes) in
      {| Core.before :=
           codes_between validated_codes
             (Z.max 0 (current_index - context_size)) current_index;
         Core.after :=
           codes_between validated_codes (current_index + 1)
             (Z.min len (current_index + context_size + 1)) |}
  | None => {| Core.before := []; Core.after := [] |}
  end.

(** An entry of [generate_substitution_variants]: the variant, the
    substitutions made, the penalty. *)
Definition substitution_variant : Type := (str * list (ascii * ascii) * float)%type.

(** [subs[char][:1]]: the first replacement of a key, nothing for a
    character that is not a key. *)
Definition first_replacement (c : ascii) : list ascii :=
  match substitutions c with
  | Some l => firstn 1 l
  | None => []
  end.

(** [generate_substitution_variants]: single substitutions, for a short text
    also double ones, cut off after ten entries. *)
Definition generate_substitution_variants (text : str) : list substitution_variant :=
  let singles :=
    flat_map (fun '(i, char) =>
                match substitutions char with
                | Some replacements =>
                    map (fun replacement =>
                           (set_char i replacement text, [(char, replacement)], 0%float))
                        replacements
                | None => []
                end)
             (enumerate text) in
  let doubles :=
    if List.length text <=? 5
    then
      flat_map
        (fun i =>
           flat_map
             (fun j =>
                let char1 := nth i text " " in
                let char2 := nth j text " " in
                match substitutions char1, substitutions char2 with
                | Some _, Some _ =>
                    flat_map
                      (fun repl1 =>
                         map (fun repl2 =>
                                (set_char j repl2 (set_char i repl1 text),
                                 [(char1, repl1); (char2, repl2)], 0.2%float))
                             (first_replacement char2))
                      (first_replacement char1)
                | _, _ => []
                end)
             (seq (i + 1) (List.length text - (i + 1))))
        (seq 0 (List.length text))
    else [] in
  firstn 10 (singles ++ doubles).

End OCRCorrectorContext.

(* ================================================================== *)
(** * Specification-side definitions *)
(* ================================================================== *)

Module Spec.

Import Core.

(** The Normalizer: trim, strip a trailing run of punctuation, upper-case. *)
Definition normalize (code : str) : str := upper (sub_trailing_punct (strip code)).

(** Number of positions, up to the shorter length, at which two forms carry
    different characters. *)
Definition positional_mismatches (a b : str) : nat :=
  List.length (filter (fun '(x, y) => negb (Ascii.eqb x y)) (combine a b)).

(** Operation count: length delta plus positional mismatches. *)
Definition operation_count (a b : str) : Z :=
  (Z.abs (Z.of_nat (List.length a) - Z.of_nat (List.length b))
   + Z.of_nat (positional_mismatches a b))%Z.

Local Open Scope float_scope.

(** [clamp(x, 0, 1)]. *)
Definition clamp01 (x : float) : float := fmax 0.0 (fmin 1.0 x).

(** Base probability of the Confidence Scorer.  Sums and products are taken
    in the order in which the scorer evaluates them. *)
Definition base_probability (is_in_both : bool) (c1 c2 : Z) : float :=
  if is_in_both
  then if (c1 + c2 =? 0)%Z then 0.80
       else fmax 0.0 (0.80 - float_of_int (c1 + c2) * 0.10)
  else fmax 0.0 (0.40 - float_of_int (c1 + c2) * 0.10).

(** Context weights [(before, after)], index 0 being the nearest code. *)
Definition context_weights (c1 c2 : Z) : list float * list float :=
  if (c1 + c2 =? 0)%Z then ([0.10; 0.05; 0.02], [0.08; 0.05; 0.02])
  else if (c1 =? 1)%Z && (c2 =? 1)%Z then ([0.10; 0.07; 0.03], [0.10; 0.07; 0.03])
  else ([0.08; 0.05; 0.02], [0.08; 0.05; 0.02]).

(** The weight of every relative offset at which the two documents agree is
    added to [acc]; [xs] and [ys] list the context codes nearest first. *)
Fixpoint agreement_bonus (weights : list float) (xs ys : list str) (acc : float) : float :=
  match weights, xs, ys with
  | w :: weights', x :: xs', y :: ys' =>
      agreement_bonus weights' xs' ys' (if str_eqb x y then acc + w else acc)
  | _, _, _ => acc
  end.

Definition context_bonus (c1 c2 : Z) (w1 w2 : context) : float :=
  let '(before_weights, after_weights) := context_weights c1 c2 in
  agreement_bonus after_weights (after w1) (after w2)
    (agreement_bonus before_weights (rev (before w1)) (rev (before w2)) 0.0).

(** Final = clamp(base + bonus, 0, 1), the bonus being added only for a
    code present in both documents. *)
Definition scorer (c1 c2 : Z) (w1 w2 : context) (is_in_both : bool) : float :=
  if is_in_both
  then clamp01 (base_probability true c1 c2 + context_bonus c1 c2 w1 w2)
  else clamp01 (base_probability false c1 c2).

End Spec.

(* ================================================================== *)
(** * Two iteration orders *)
(* ================================================================== *)

(** A run in which character sets are iterated in insertion order. *)
Definition insertion_order : HashOrder :=
  {| iter_set := nodup ascii_dec;
     iter_set_perm := fun l => Permutation_refl (nodup ascii_dec l) |}.

(** A run in which they are iterated in the opposite order. *)
Definition reversed_order : HashOrder :=
  {| iter_set := fun l => rev (nodup ascii_dec l);
     iter_set_perm := fun l => Permutation_rev (nodup ascii_dec l) |}.

(* ================================================================== *)
(** * Properties stated about the engine *)
(* ================================================================== *)

Section Properties.

Import CodeFilters Core.

(** Ascending order of the keys. *)
Definition ascending (A : Type) (key : A -> nat) (l : list A) : Prop :=
  StronglySorted (fun a b => key a <= key b) l.

(** A variant of one character: the character itself or one of the
    characters the table lists for it. *)
Definition char_variant (c v : ascii) : Prop :=
  v = c \/ exists l, ocr_substitutions c = Some l /\ In v l.

(** A substitution permutation of [code]: position by position a variant of
    the character of [code]. *)
Definition substitution_permutation (code variant : str) : Prop :=
  Forall2 char_variant code variant.

(** Shape of the elements of [OCRCorrector.generate_variants]: a same-length
    variant, or the zero rule applied to one. *)
Definition variant_shape (cleaned v : str) : Prop :=
  List.length v = List.length cleaned
  \/ (List.length v + 1 = List.length cleaned
      /\ exists w, List.length w = List.length cleaned
                   /\ nth 1 w " "%char = "0"%char
                   /\ v = OCRCorrector.apply_zero_rule w).

(** The admission gate. *)
Definition passes_gate (e : correction) : Prop :=
  PrimFloat.leb 0.6%float (c_probability e) = true.

(** Invariant of the discovery loops: corrections of type Korrekturmatch
    passed the gate, the codes validated at the start stay in document 1's
    set, and a code is in that set only as a validated code, as the corrected
    code of a resolver record of document 1, or through a Korrekturmatch. *)
Definition discovery_invariant
    (codes_pdf1 : list str) (correction_info_pdf1 : list corr_info) (st : state) : Prop :=
  (forall e, In e (fst st) -> c_type e = Korrekturmatch -> passes_gate e)
  /\ (forall c, In c codes_pdf1 -> In c (snd st))
  /\ (forall c, In c (snd st) ->
        In c codes_pdf1
        \/ In c (map ci_corrected correction_info_pdf1)
        \/ exists e, In e (fst st) /\ c_type e = Korrekturmatch
                     /\ c_corrected e = c /\ passes_gate e).

(** C1 as stated: every correction whose corrected code is in the final
    corrected membership sets has a probability of at least 0.60. *)
Definition admitted_corrections_pass_gate (r : result) : Prop :=
  forall e,
    In e (corrections r) -> c_type e <> Direkter_Match ->
    (In (c_corrected e) (in_both (overall (corrected r)))
     \/ In (c_corrected e) (only_in_pdf1 (overall (corrected r)))
     \/ In (c_corrected e) (only_in_pdf2 (overall (corrected r)))) ->
    passes_gate e.

(** The comparison of two empty sets. *)
Definition nothing : membership :=
  {| in_both := []; only_in_pdf1 := []; only_in_pdf2 := [] |}.

Definition empty_comparison : comparison :=
  {| overall := nothing; normal_sets := nothing; control_sets := nothing |}.

(** C8 as stated, in the part that fails: every candidate is reported as
    exclusive to its document. *)
Definition candidates_reported_exclusive
    (raw_codes_pdf1 raw_codes_pdf2 : list raw_code) (r : result) : Prop :=
  (forall x, In x raw_codes_pdf1 ->
             In (Spec.normalize (fst (fst x))) (only_in_pdf1 (overall (corrected r))))
  /\ (forall x, In x raw_codes_pdf2 ->
                In (Spec.normalize (fst (fst x))) (only_in_pdf2 (overall (corrected r)))).

End Properties.

Arguments ascending {A} key l.

(* ================================================================== *)
(** * Basic facts about the Python primitives *)
(* ================================================================== *)

Section PyFacts.

Lemma str_eqb_eq (a b : str) : str_eqb a b = true <-> a = b.
Proof.
  revert b; induction a as [|x a IH]; intros [|y b]; simpl; split; try congruence; intros H.
  - apply andb_true_iff in H as [Hx Hr].
    apply Ascii.eqb_eq in Hx. apply IH in Hr. congruence.
  - inversion H; subst. rewrite Ascii.eqb_refl. simpl. now apply IH.
Qed.

Lemma str_eqb_refl (a : str) : str_eqb a a = true.
Proof. now apply str_eqb_eq. Qed.

Lemma str_eqb_neq (a b : str) : str_eqb a b = false <-> a <> b.
Proof.
  split.
  - intros H E. apply str_eqb_eq in E. congruence.
  - intros H. destruct (str_eqb a b) eqn:E; [apply str_eqb_eq in E; contradiction | reflexivity].
Qed.

Lemma mem_In (x : str) (l : list str) : mem x l = true <-> In x l.
Proof.
  unfold mem. rewrite existsb_exists. split.
  - intros [y [Hy E]]. apply str_eqb_eq in E. now subst.
  - intros H. exists x. split; [assumption | apply str_eqb_refl].
Qed.

Lemma mem_nil (x : str) : mem x [] = false.
Proof. reflexivity. Qed.

Lemma set_add_In (x y : str) (s : list str) : In y (set_add x s) <-> y = x \/ In y s.
Proof.
  unfold set_add. destruct (mem x s) eqn:E.
  - apply mem_In in E. split; [tauto | intros [->|H]; assumption].
  - rewrite in_app_iff. simpl. split; intros H; intuition congruence.
Qed.

Lemma intersection_In (x : str) (a b : list str) :
  In x (intersection a b) <-> In x a /\ In x b.
Proof. unfold intersection. rewrite filter_In, mem_In. tauto. Qed.

Lemma difference_In (x : str) (a b : list str) :
  In x (difference a b) <-> In x a /\ ~ In x b.
Proof.
  unfold difference. rewrite filter_In, negb_true_iff.
  split; intros [Ha Hb]; split; try assumption.
  - intros H. apply mem_In in H. congruence.
  - destruct (mem x b) eqn:E; [apply mem_In in E; contradiction | reflexivity].
Qed.

Lemma union_In (x : str) (a b : list str) : In x (union a b) <-> In x a \/ In x b.
Proof.
  unfold union. rewrite in_app_iff, difference_In. split; [tauto|].
  intros [H|H]; [now left|].
  destruct (mem x a) eqn:E; [left; now apply mem_In | right].
  split; [assumption|]. intros Ha. apply mem_In in Ha. congruence.
Qed.

(** An invariant of a loop holds after the loop. *)
Lemma fold_left_invariant (A B : Type) (P : A -> Prop) (f : A -> B -> A) (l : list B) :
  (forall st x, In x l -> P st -> P (f st x)) ->
  forall st, P st -> P (fold_left f l st).
Proof.
  induction l as [|x l IH]; simpl; intros Hf st Hst; [assumption|].
  apply IH; [intros; apply Hf; auto | apply Hf; auto].
Qed.

(** A loop over [range(n)] that reads position [i + 1] is the loop over the
    tails. *)
Lemma fold_left_seq_shift (A : Type) (f : A -> nat -> A) (n : nat) (st : A) :
  fold_left f (seq 1 n) st = fold_left (fun a i => f a (S i)) (seq 0 n) st.
Proof.
  rewrite <- seq_shift. generalize (seq 0 n) as l. intros l; revert st.
  induction l as [|i l IH]; simpl; intros st; [reflexivity | apply IH].
Qed.

End PyFacts.

(* ================================================================== *)
(** * The correction-operation count *)
(* ================================================================== *)

Section OperationCount.

Import Core Spec.

Lemma positional_mismatches_refl (a : str) : positional_mismatches a a = 0.
Proof.
  unfold positional_mismatches. induction a as [|x a IH]; simpl; [reflexivity|].
  now rewrite Ascii.eqb_refl.
Qed.

Lemma operation_count_refl (a : str) : operation_count a a = 0%Z.
Proof. unfold operation_count. rewrite positional_mismatches_refl. lia. Qed.

(** The substitution loop of [count_corrections_needed] adds the number of
    positional mismatches. *)
Lemma substitution_loop_mismatches (a b : str) (acc : Z) :
  fold_left
    (fun corrections i =>
       if negb (Ascii.eqb (nth i a " "%char) (nth i b " "%char))
       then (corrections + 1)%Z else corrections)
    (seq 0 (Nat.min (List.length a) (List.length b))) acc
  = (acc + Z.of_nat (positional_mismatches a b))%Z.
Proof.
  revert b acc. induction a as [|x a IH]; intros [|y b] acc; simpl;
    try (unfold positional_mismatches; simpl; lia).
  rewrite fold_left_seq_shift. simpl. rewrite IH.
  unfold positional_mismatches. simpl.
  destruct (Ascii.eqb x y); simpl; lia.
Qed.

End OperationCount.

(** C9: the correction-operation count of two forms, compared after
    upper-casing and trimming, is the absolute difference of their lengths
    plus the number of positions, up to the shorter length, at which their
    characters differ; it is 0 when the compared forms are equal. *)
Theorem count_corrections_needed_operation_count (original corrected : str) :
  Core.count_corrections_needed original corrected
  = Spec.operation_count (strip (upper original)) (strip (upper corrected))
  /\ (strip (upper original) = strip (upper corrected) ->
      Core.count_corrections_needed original corrected = 0%Z).
Proof.
  assert (E : Core.count_corrections_needed original corrected
              = Spec.operation_count (strip (upper original)) (strip (upper corrected))).
  { unfold Core.count_corrections_needed.
    destruct (str_eqb original corrected) eqn:Heq.
    - apply str_eqb_eq in Heq. subst. now rewrite operation_count_refl.
    - rewrite substitution_loop_mismatches. reflexivity. }
  split; [exact E|].
  intros H. rewrite E, H. apply operation_count_refl.
Qed.

Lemma count_corrections_needed_operation_count_witness :
  Core.count_corrections_needed (lit " p08 ") (lit "P08") = 0%Z
  /\ Core.count_corrections_needed (lit "P0AB") (lit "PA8") = 3%Z.
Proof.
  split.
  - apply (proj2 (count_corrections_needed_operation_count (lit " p08 ") (lit "P08"))).
    reflexivity.
  - rewrite (proj1 (count_corrections_needed_operation_count (lit "P0AB") (lit "PA8"))).
    reflexivity.
Defined.

(* ================================================================== *)
(** * The context query *)
(* ================================================================== *)

Section ContextQuery.

Import Core.

(** [list.index] finds the first occurrence. *)
Lemma index_first_occurrence (target : str) (pre post : list str) :
  ~ In target pre ->
  index target (pre ++ target :: post) = Some (List.length pre).
Proof.
  induction pre as [|y pre IH]; simpl; intros Hnin.
  - now rewrite str_eqb_refl.
  - destruct (str_eqb y target) eqn:E.
    + apply str_eqb_eq in E. subst. exfalso. apply Hnin. now left.
    + rewrite IH; [reflexivity | tauto].
Qed.

Lemma index_absent (target : str) (l : list str) :
  ~ In target l -> index target l = None.
Proof.
  induction l as [|y l IH]; simpl; intros Hnin; [reflexivity|].
  destruct (str_eqb y target) eqn:E.
  - apply str_eqb_eq in E. subst. exfalso. apply Hnin. now left.
  - rewrite IH; [reflexivity | tauto].
Qed.

(** The slice [l[max(0, i - k) : i]] taken at the end of a prefix. *)
Lemma slice_before (A : Type) (pre : list A) (x : A) (post : list A) (k : Z) :
  (0 <= k)%Z ->
  slice (pre ++ x :: post)
        (Z.max 0 (Z.of_nat (List.length pre) - k)) (Z.of_nat (List.length pre))
  = skipn (List.length pre - Z.to_nat k) pre.
Proof.
  intros Hk. unfold slice, slice_bound.
  rewrite length_app. simpl List.length.
  set (n := List.length pre). set (m := List.length post).
  destruct (Z.max 0 (Z.of_nat n - k) <? 0)%Z eqn:E1; [apply Z.ltb_lt in E1; lia|].
  destruct (Z.of_nat n <? 0)%Z eqn:E2; [apply Z.ltb_lt in E2; lia|].
  replace (Z.to_nat (Z.min (Z.max 0 (Z.of_nat n - k)) (Z.of_nat (n + S m))))
    with (n - Z.to_nat k) by lia.
  replace (Z.to_nat (Z.min (Z.of_nat n) (Z.of_nat (n + S m))
                     - Z.min (Z.max 0 (Z.of_nat n - k)) (Z.of_nat (n + S m))))
    with (n - (n - Z.to_nat k)) by lia.
  rewrite skipn_app.
  replace (n - Z.to_nat k - List.length pre) with 0 by (subst n; lia).
  simpl skipn at 2.
  rewrite firstn_app.
  rewrite length_skipn. fold n.
  replace (n - (n - Z.to_nat k) - (n - (n - Z.to_nat k))) with 0 by lia.
  simpl firstn at 2. rewrite app_nil_r.
  apply firstn_all2. rewrite length_skipn. fold n. lia.
Qed.

(** The slice [l[i + 1 : i + 1 + k]] taken behind position [i]. *)
Lemma slice_after (A : Type) (pre : list A) (x : A) (post : list A) (k : Z) :
  (0 <= k)%Z ->
  slice (pre ++ x :: post)
        (Z.of_nat (List.length pre) + 1) (Z.of_nat (List.length pre) + 1 + k)
  = firstn (Z.to_nat k) post.
Proof.
  intros Hk. unfold slice, slice_bound.
  rewrite length_app. simpl List.length.
  set (n := List.length pre). set (m := List.length post).
  destruct (Z.of_nat n + 1 <? 0)%Z eqn:E1; [apply Z.ltb_lt in E1; lia|].
  destruct (Z.of_nat n + 1 + k <? 0)%Z eqn:E2; [apply Z.ltb_lt in E2; lia|].
  replace (Z.to_nat (Z.min (Z.of_nat n + 1) (Z.of_nat (n + S m)))) with (S n) by lia.
  replace (Z.to_nat (Z.min (Z.of_nat n + 1 + k) (Z.of_nat (n + S m))
                     - Z.min (Z.of_nat n + 1) (Z.of_nat (n + S m))))
    with (Nat.min (Z.to_nat k) m) by lia.
  replace (pre ++ x :: post) with ((pre ++ [x]) ++ post) by now rewrite <- app_assoc.
  rewrite skipn_app.
  rewrite skipn_all2 by (rewrite length_app; simpl; subst n; lia).
  rewrite length_app. simpl List.length.
  replace (S n - (List.length pre + 1)) with 0 by (subst n; lia).
  simpl. subst m.
  destruct (Nat.le_ge_cases (Z.to_nat k) (List.length post)) as [Hle|Hge].
  - now rewrite Nat.min_l.
  - rewrite Nat.min_r by assumption.
    rewrite !firstn_all2; auto.
Qed.

End ContextQuery.

(** C7: for a list of validated codes, a target code and a window size
    [k >= 0], the context query returns the (up to) [k] codes immediately
    before and the (up to) [k] codes immediately after the first occurrence
    of the target, in list order; later occurrences are ignored, and an absent
    target yields two empty windows instead of an error. *)
Theorem get_validated_context_codes_first_occurrence
    (all_validated_codes : list str) (target_code : str) (k : Z) :
  (0 <= k)%Z ->
  (forall pre post,
      all_validated_codes = pre ++ target_code :: post ->
      ~ In target_code pre ->
      let c := Core.get_validated_context_codes all_validated_codes target_code k in
      Core.before c = skipn (List.length pre - Z.to_nat k) pre
      /\ Core.after c = firstn (Z.to_nat k) post
      /\ (List.length (Core.before c) <= Z.to_nat k)%nat
      /\ (List.length (Core.after c) <= Z.to_nat k)%nat)
  /\ (~ In target_code all_validated_codes ->
      Core.get_validated_context_codes all_validated_codes target_code k
      = {| Core.before := []; Core.after := [] |}).
Proof.
  intros Hk. split.
  - intros pre post -> Hnin. unfold Core.get_validated_context_codes.
    rewrite index_first_occurrence by assumption. cbn [Core.before Core.after].
    rewrite slice_before, slice_after by assumption.
    repeat split.
    + rewrite length_skipn. lia.
    + rewrite length_firstn. lia.
  - intros Hnin. unfold Core.get_validated_context_codes.
    now rewrite index_absent.
Qed.

Lemma get_validated_context_codes_first_occurrence_witness :
  let l := map lit ["A1X"; "B2Y"; "P0B"; "C3Z"; "P0B"; "D4W"; "E5V"]%string in
  let c := Core.get_validated_context_codes l (lit "P0B") 2 in
  Core.before c = map lit ["A1X"; "B2Y"]%string
  /\ Core.after c = map lit ["C3Z"; "P0B"]%string.
Proof.
  intros l c.
  pose proof (get_validated_context_codes_first_occurrence l (lit "P0B") 2) as H.
  destruct H as [H _]; [lia|].
  specialize (H (map lit ["A1X"; "B2Y"]%string)
                (map lit ["C3Z"; "P0B"; "D4W"; "E5V"]%string) eq_refl).
  destruct H as (Hb & Ha & _).
  - simpl. intros [E|[E|[]]]; discriminate E.
  - split; [exact Hb | exact Ha].
Defined.

(* ================================================================== *)
(** * The confidence scorer *)
(* ================================================================== *)

Section Scorer.

Import Core Spec.

Lemma fold_left_ext (A B : Type) (f g : A -> B -> A) (l : list B) :
  (forall a x, f a x = g a x) -> forall a, fold_left f l a = fold_left g l a.
Proof.
  intros Hfg. induction l as [|x l IH]; simpl; intros a; [reflexivity|].
  now rewrite Hfg, IH.
Qed.

(** One turn of a context loop. *)
Lemma context_loop_cons (x y : str) (xs ys : list str) (w : float)
      (weights : list float) (n : nat) (acc : float) (m : nat) :
  context_loop (x :: xs) (y :: ys) (w :: weights) (S n) (acc, m)
  = context_loop xs ys weights n
      (if str_eqb x y then ((acc + w)%float, S m) else (acc, m)).
Proof.
  unfold context_loop. cbn [seq fold_left nth].
  rewrite fold_left_seq_shift.
  apply fold_left_ext. intros [b k] i. reflexivity.
Qed.

(** A context loop of the scorer adds the weights of the agreeing offsets. *)
Lemma context_loop_agreement (weights : list float) (xs ys : list str)
      (acc : float) (m : nat) :
  fst (context_loop xs ys weights
         (Nat.min (Nat.min (List.length xs) (List.length ys)) (List.length weights))
         (acc, m))
  = agreement_bonus weights xs ys acc.
Proof.
  revert xs ys acc m.
  induction weights as [|w weights IH]; intros xs ys acc m.
  - rewrite Nat.min_0_r. reflexivity.
  - destruct xs as [|x xs]; [reflexivity|].
    destruct ys as [|y ys]; [rewrite Nat.min_0_r; reflexivity|].
    cbn [List.length Nat.min agreement_bonus].
    rewrite context_loop_cons.
    destruct (str_eqb x y); apply IH.
Qed.

Lemma context_loop_three (w1 w2 w3 : float) (xs ys : list str) (acc : float) (m : nat) :
  fst (context_loop xs ys [w1; w2; w3]
         (Nat.min (Nat.min (List.length xs) (List.length ys)) 3) (acc, m))
  = agreement_bonus [w1; w2; w3] xs ys acc.
Proof. apply (context_loop_agreement [w1; w2; w3]). Qed.

(** Without corrections the penalty vanishes and the base is 0.80. *)
Lemma base_without_corrections :
  fmax 0.0 (0.80 - float_of_int 0 * 0.10)%float = 0.80%float.
Proof. vm_compute. reflexivity. Qed.

End Scorer.

(** C2: [calculate_precise_probability] returns clamp(base + bonus, 0, 1):
    the base is 0.80 for a code in both documents without corrections,
    max(0, 0.80 - 0.10 (c1 + c2)) with corrections, and
    max(0, 0.40 - 0.10 corrections) for a code in one document; the bonus is
    added only for a code in both documents, with the weights
    [0.10, 0.05, 0.02] before and [0.08, 0.05, 0.02] after when c1 + c2 = 0,
    [0.10, 0.07, 0.03] both ways when c1 = c2 = 1, [0.08, 0.05, 0.02] both
    ways otherwise, one weight per relative offset at which the two
    documents' context codes agree. *)
Theorem calculate_precise_probability_scorer
    (code : str) (c1 c2 : Z) (context_pdf1 context_pdf2 : Core.context)
    (is_in_both : bool) :
  fst (Core.calculate_precise_probability code c1 c2 context_pdf1 context_pdf2 is_in_both)
  = Spec.scorer c1 c2 context_pdf1 context_pdf2 is_in_both.
Proof.
  unfold Core.calculate_precise_probability, Spec.scorer, Spec.context_bonus,
    Spec.context_weights, Spec.base_probability, Spec.clamp01.
  destruct is_in_both; [|reflexivity].
  destruct (c1 + c2 =? 0)%Z eqn:E0.
  - apply Z.eqb_eq in E0. rewrite E0, base_without_corrections.
    pose proof (context_loop_three 0.10 0.05 0.02
                  (rev (Core.before context_pdf1)) (rev (Core.before context_pdf2))
                  0.0 0)%float as Hb.
    rewrite !length_rev in Hb.
    destruct (Core.context_loop (rev (Core.before context_pdf1)) _ _ _ _) as [b bm].
    cbn [fst] in Hb. subst b.
    pose proof (context_loop_three 0.08 0.05 0.02
                  (Core.after context_pdf1) (Core.after context_pdf2)
                  (Spec.agreement_bonus [0.10; 0.05; 0.02]
                     (rev (Core.before context_pdf1)) (rev (Core.before context_pdf2)) 0.0)
                  0)%float as Ha.
    destruct (Core.context_loop (Core.after context_pdf1) _ _ _ _) as [a am].
    cbn [fst] in Ha. subst a. reflexivity.
  - assert (Hsame : ((c1 + c2 =? 2)%Z && (c1 =? 1)%Z && (c2 =? 1)%Z
                     = (c1 =? 1)%Z && (c2 =? 1)%Z)).
    { destruct (c1 =? 1)%Z eqn:E1, (c2 =? 1)%Z eqn:E2;
        rewrite ?andb_false_r; try reflexivity.
      apply Z.eqb_eq in E1, E2. subst. reflexivity. }
    rewrite Hsame.
    destruct ((c1 =? 1)%Z && (c2 =? 1)%Z).
    + pose proof (context_loop_three 0.10 0.07 0.03
                    (rev (Core.before context_pdf1)) (rev (Core.before context_pdf2))
                    0.0 0)%float as Hb.
      rewrite !length_rev in Hb.
      destruct (Core.context_loop (rev (Core.before context_pdf1)) _ _ _ _) as [b bm].
      cbn [fst] in Hb. subst b.
      pose proof (context_loop_three 0.10 0.07 0.03
                    (Core.after context_pdf1) (Core.after context_pdf2)
                    (Spec.agreement_bonus [0.10; 0.07; 0.03]
                       (rev (Core.before context_pdf1)) (rev (Core.before context_pdf2)) 0.0)
                    0)%float as Ha.
      destruct (Core.context_loop (Core.after context_pdf1) _ _ _ _) as [a am].
      cbn [fst] in Ha. subst a. reflexivity.
    + pose proof (context_loop_three 0.08 0.05 0.02
                    (rev (Core.before context_pdf1)) (rev (Core.before context_pdf2))
                    0.0 0)%float as Hb.
      rewrite !length_rev in Hb.
      destruct (Core.context_loop (rev (Core.before context_pdf1)) _ _ _ _) as [b bm].
      cbn [fst] in Hb. subst b.
      pose proof (context_loop_three 0.08 0.05 0.02
                    (Core.after context_pdf1) (Core.after context_pdf2)
                    (Spec.agreement_bonus [0.08; 0.05; 0.02]
                       (rev (Core.before context_pdf1)) (rev (Core.before context_pdf2)) 0.0)
                    0)%float as Ha.
      destruct (Core.context_loop (Core.after context_pdf1) _ _ _ _) as [a am].
      cbn [fst] in Ha. subst a. reflexivity.
Qed.

(* ================================================================== *)
(** * The variant generator *)
(* ================================================================== *)

Section StableSortFacts.

Variables (A : Type) (key : A -> nat).

Lemma insert_sorted_perm (x : A) (l : list A) :
  Permutation (x :: l) (insert_sorted key Nat.leb x l).
Proof.
  induction l as [|y l IH]; simpl; [apply Permutation_refl|].
  destruct (Nat.leb (key x) (key y)); [apply Permutation_refl|].
  eapply perm_trans; [apply perm_swap | apply perm_skip, IH].
Qed.

Lemma sort_by_perm (l : list A) : Permutation l (sort_by key Nat.leb l).
Proof.
  induction l as [|x l IH]; simpl; [constructor|].
  eapply perm_trans; [apply perm_skip, IH | apply insert_sorted_perm].
Qed.

Lemma insert_sorted_ascending (x : A) (l : list A) :
  ascending key l -> ascending key (insert_sorted key Nat.leb x l).
Proof.
  unfold ascending. induction l as [|y l IH]; simpl; intros Hs.
  - constructor; constructor.
  - inversion Hs as [|? ? Hl Hy]; subst.
    destruct (Nat.leb (key x) (key y)) eqn:E.
    + apply Nat.leb_le in E. constructor; [assumption|].
      constructor; [assumption|].
      eapply Forall_impl; [|exact Hy]. simpl. intros; lia.
    + apply Nat.leb_gt in E. constructor; [now apply IH|].
      eapply Permutation_Forall; [apply insert_sorted_perm|].
      constructor; [lia | assumption].
Qed.

Lemma sort_by_ascending (l : list A) : ascending key (sort_by key Nat.leb l).
Proof.
  induction l as [|x l IH]; simpl; [constructor | now apply insert_sorted_ascending].
Qed.



End StableSortFacts.

Section Generator.

Import Core.

Variable h : HashOrder.

Lemma product_In (A : Type) (pools : list (list A)) (v : list A) :
  In v (product pools) <-> Forall2 (fun x pool => In x pool) v pools.
Proof.
  revert v. induction pools as [|pool pools IH]; intros v; simpl.
  - split.
    + intros [<-|[]]. constructor.
    + intros H. inversion H. now left.
  - rewrite in_flat_map. split.
    + intros [x [Hx Hv]]. apply in_map_iff in Hv as [t [<- Ht]].
      constructor; [assumption | now apply IH].
    + intros H. inversion H as [|x ? t ? Hx Ht]; subst.
      exists x. split; [assumption|]. apply in_map. now apply IH.
Qed.

Lemma get_variants_for_position_In (c v : ascii) :
  In v (get_variants_for_position h c) <-> char_variant c v.
Proof.
  unfold get_variants_for_position, char_variant.
  split.
  - intros H. apply (Permutation_in _ (Permutation_sym (iter_set_perm h _))) in H.
    apply nodup_In in H. simpl in H. destruct H as [H|H]; [now left|].
    destruct (ocr_substitutions c) as [l|]; [right; now exists l | destruct H].
  - intros H. apply (Permutation_in _ (iter_set_perm h _)).
    apply nodup_In. simpl. destruct H as [->|[l [E Hl]]]; [now left|].
    right. now rewrite E.
Qed.

Lemma position_variants_In (code v : str) :
  In v (product (map (get_variants_for_position h) code))
  <-> substitution_permutation code v.
Proof.
  rewrite product_In. unfold substitution_permutation.
  revert v. induction code as [|c code IH]; intros v; simpl.
  - split; intros H; inversion H; constructor.
  - split; intros H; inversion H; subst; constructor;
      try (now apply get_variants_for_position_In); now apply IH.
Qed.

Lemma substitution_permutation_length (code v : str) :
  substitution_permutation code v -> List.length v = List.length code.
Proof. intros H. symmetry. exact (Forall2_length H). Qed.

Lemma substitution_permutation_refl (code : str) : substitution_permutation code code.
Proof. induction code; constructor; [now left | assumption]. Qed.

(** What [generate_all_ocr_variants] contains. *)
Lemma generate_all_ocr_variants_In (code v : str) :
  In v (generate_all_ocr_variants h code) <-> substitution_permutation code v.
Proof.
  unfold generate_all_ocr_variants. simpl. split.
  - intros [<-|H]; [apply substitution_permutation_refl|].
    apply (Permutation_in _ (Permutation_sym (sort_by_perm _ _ _))) in H.
    apply filter_In in H as [H _]. now apply position_variants_In.
  - intros H. destruct (str_eqb v code) eqn:E.
    + left. symmetry. now apply str_eqb_eq.
    + right. apply (Permutation_in _ (sort_by_perm _ _ _)).
      apply filter_In. split; [now apply position_variants_In | now rewrite E].
Qed.

Lemma generate_all_ocr_variants_length (code v : str) :
  In v (generate_all_ocr_variants h code) -> List.length v = List.length code.
Proof.
  intros H. apply substitution_permutation_length. now apply generate_all_ocr_variants_In.
Qed.

(** The sort key of the generator counts the positions at which the variant
    differs from the code: it is the number of positional mismatches. *)
Lemma count_changes_positional_mismatches (code variant : str) :
  count_changes code variant = Spec.positional_mismatches code variant.
Proof.
  unfold Spec.positional_mismatches.
  revert variant. induction code as [|c code IH]; intros [|v variant]; try reflexivity.
  simpl. rewrite IH, (Ascii.eqb_sym v c).
  destruct (Ascii.eqb c v); reflexivity.
Qed.


End Generator.


(* ================================================================== *)
(** * Lengths of the generated variants *)
(* ================================================================== *)

Section VariantLengths.

Import OCRCorrector.

Lemma set_char_length (i : nat) (c : ascii) (code : str) :
  List.length (set_char i c code) = List.length code.
Proof.
  revert i. induction code as [|x code IH]; intros [|i]; simpl; auto.
Qed.

(** The zero rule keeps a code or removes exactly one character. *)
Lemma apply_zero_rule_length (code : str) :
  (apply_zero_rule code = code)
  \/ (List.length (apply_zero_rule code) + 1 = List.length code
      /\ nth 1 code " "%char = "0"%char
      /\ apply_zero_rule code = firstn 1 code ++ skipn 2 code).
Proof.
  unfold apply_zero_rule.
  destruct ((3 <? List.length code) && (1 <? List.length code)
            && Ascii.eqb (nth 1 code " "%char) "0"%char) eqn:E; [|now left].
  destruct (3 <=? List.length (firstn 1 code ++ skipn 2 code)) eqn:E3; [|now left].
  right. apply andb_true_iff in E as [E Hz]. apply andb_true_iff in E as [Hlen _].
  apply Nat.ltb_lt in Hlen. apply Ascii.eqb_eq in Hz.
  repeat split; try assumption.
  rewrite length_app, length_firstn, length_skipn. lia.
Qed.

(** Upper-casing and whitespace removal leave a code without blanks at its
    length. *)
Lemma upper_length (s : str) : List.length (upper s) = List.length s.
Proof. apply length_map. Qed.

Lemma dropwhile_none (A : Type) (p : A -> bool) (l : list A) :
  forallb (fun x => negb (p x)) l = true -> dropwhile p l = l.
Proof.
  destruct l as [|x l]; simpl; [reflexivity|].
  intros H. apply andb_true_iff in H as [Hx _].
  apply negb_true_iff in Hx. now rewrite Hx.
Qed.

Lemma clean_whitespace_no_blank (s : str) :
  forallb (fun c => negb (is_space c)) s = true -> clean_whitespace s = s.
Proof.
  intros H. unfold clean_whitespace, strip, lstrip, rstrip_with.
  rewrite (dropwhile_none _ _ _ H).
  rewrite dropwhile_none, rev_involutive.
  - clear - H. induction s as [|c s IH]; simpl in *; [reflexivity|].
    apply andb_true_iff in H as [Hc Hs]. rewrite Hc. f_equal. now apply IH.
  - rewrite forallb_forall in *. intros x Hx. apply H. now apply in_rev.
Qed.

(** The substitutions of one combination keep the length. *)
Lemma apply_combination_length (combination : list (nat * ascii)) (code : str) :
  List.length
    (fold_left (fun variant '(pos, new_char) =>
                  if negb (Ascii.eqb (nth pos variant " "%char) new_char)
                  then set_char pos new_char variant else variant)
               combination code)
  = List.length code.
Proof.
  revert code. induction combination as [|[pos ch] comb IH]; intros code; simpl;
    [reflexivity|].
  rewrite IH. destruct (negb _); [apply set_char_length | reflexivity].
Qed.

Lemma generate_variants_shape (code v : str) :
  In v (generate_variants code) -> variant_shape (upper (clean_whitespace code)) v.
Proof.
  unfold generate_variants.
  set (cleaned := upper (clean_whitespace code)).
  assert (Hinit : forall x, In x (set_add cleaned []) -> variant_shape cleaned x).
  { intros x Hx. apply set_add_In in Hx as [->|[]]. now left. }
  destruct (flat_map _ _) as [|p ps]; [intros H; now apply Hinit|].
  generalize (product (map (fun '(pos, original_char, replacements) =>
                              (pos, original_char) :: map (fun repl : ascii => (pos, repl)) replacements)
                           (p :: ps))) as combos.
  intros combos. revert v.
  apply (fold_left_invariant _ _
           (fun variants => forall v, In v variants -> variant_shape cleaned v));
    [|exact Hinit].
  intros variants combination _ IH v Hv.
  apply set_add_In in Hv as [->|Hv].
  - pose proof (apply_combination_length combination cleaned) as Hlen.
    destruct (apply_zero_rule_length
                (fold_left (fun variant '(pos, new_char) =>
                              if negb (Ascii.eqb (nth pos variant " "%char) new_char)
                              then set_char pos new_char variant else variant)
                           combination cleaned)) as [->|(Hl & Hz & _)].
    + now left.
    + right. split; [lia|]. eexists. split; [exact Hlen|]. split; [exact Hz | reflexivity].
  - apply set_add_In in Hv as [->|Hv]; [|now apply IH].
    left. apply apply_combination_length.
Qed.

End VariantLengths.

(** C5: every element produced by the variant generator for a code [c] has
    the length of [c]; the only shorter outputs are those of the shortening
    heuristic (zero rule), which have length [len(c) - 1]. *)
Theorem variant_lengths (h : HashOrder) (c : str) :
  (forall v, In v (Core.generate_all_ocr_variants h c) -> List.length v = List.length c)
  /\ (forall v, In v (Core.generate_all_ocr_variants h (firstn 1 c ++ skipn 2 c)) ->
                3 < List.length c -> List.length v = List.length c - 1)
  /\ (forall v, In v (OCRCorrector.generate_variants c) ->
                forallb (fun ch => negb (is_space ch)) c = true ->
                List.length v = List.length c
                \/ (List.length v = List.length c - 1
                    /\ exists w, List.length w = List.length c
                                 /\ nth 1 w " "%char = "0"%char
                                 /\ v = OCRCorrector.apply_zero_rule w)).
Proof.
  split; [|split].
  - intros v. apply generate_all_ocr_variants_length.
  - intros v Hv Hlen. rewrite (generate_all_ocr_variants_length _ _ _ Hv).
    rewrite length_app, length_firstn, length_skipn. lia.
  - intros v Hv Hc. apply generate_variants_shape in Hv.
    rewrite (clean_whitespace_no_blank _ Hc) in Hv.
    destruct Hv as [Hv|(Hv & w & Hw & Hz & E)].
    + left. now rewrite Hv, upper_length.
    + rewrite upper_length in *. right. split; [lia|]. now exists w.
Qed.

Lemma variant_lengths_witness :
  List.length (lit "1Z3") = 3
  /\ List.length (lit "PB1") = 3
  /\ (List.length (lit "PB1") = List.length (lit "P0B1")
      \/ (List.length (lit "PB1") = List.length (lit "P0B1") - 1
          /\ exists w, List.length w = List.length (lit "P0B1")
                       /\ nth 1 w " "%char = "0"%char
                       /\ lit "PB1" = OCRCorrector.apply_zero_rule w)).
Proof.
  destruct (variant_lengths insertion_order (lit "I23")) as (H1 & _ & _).
  destruct (variant_lengths insertion_order (lit "P0B1")) as (_ & H2 & H3).
  split; [|split].
  - apply (H1 (lit "1Z3")). vm_compute. tauto.
  - apply (H2 (lit "PB1")); [vm_compute; tauto | vm_compute; lia].
  - apply (H3 (lit "PB1")); [vm_compute; tauto | reflexivity].
Defined.

(* ================================================================== *)
(** * The normalizer *)
(* ================================================================== *)

Section Normalizer.

Import Core Spec.

Ltac by_cases_on_char c := destruct c as [[] [] [] [] [] [] [] []]; reflexivity.

Lemma upper_char_space (c : ascii) : is_space (upper_char c) = is_space c.
Proof. by_cases_on_char c. Qed.

Lemma upper_char_punct (c : ascii) :
  is_trailing_punct (upper_char c) = is_trailing_punct c.
Proof. by_cases_on_char c. Qed.

Lemma upper_char_newline (c : ascii) :
  Ascii.eqb (upper_char c) newline = Ascii.eqb c newline.
Proof. by_cases_on_char c. Qed.

Lemma upper_char_idempotent (c : ascii) : upper_char (upper_char c) = upper_char c.
Proof. by_cases_on_char c. Qed.

Lemma upper_idempotent (s : str) : upper (upper s) = upper s.
Proof.
  unfold upper. rewrite map_map. apply map_ext. apply upper_char_idempotent.
Qed.

Lemma dropwhile_map (A : Type) (p : A -> bool) (f : A -> A) (l : list A) :
  (forall x, p (f x) = p x) -> dropwhile p (map f l) = map f (dropwhile p l).
Proof.
  intros Hp. induction l as [|x l IH]; simpl; [reflexivity|].
  rewrite Hp. destruct (p x); [exact IH | reflexivity].
Qed.

Lemma rstrip_with_map (p : ascii -> bool) (f : ascii -> ascii) (s : str) :
  (forall x, p (f x) = p x) -> rstrip_with p (map f s) = map f (rstrip_with p s).
Proof.
  intros Hp. unfold rstrip_with.
  now rewrite <- map_rev, dropwhile_map, map_rev.
Qed.

Lemma strip_upper (s : str) : strip (upper s) = upper (strip s).
Proof.
  unfold strip, lstrip, upper.
  rewrite dropwhile_map by apply upper_char_space.
  apply rstrip_with_map, upper_char_space.
Qed.

Lemma sub_trailing_punct_upper (s : str) :
  sub_trailing_punct (upper s) = upper (sub_trailing_punct s).
Proof.
  unfold sub_trailing_punct, upper. rewrite <- map_rev.
  destruct (rev s) as [|last r] eqn:E; [reflexivity|].
  cbn [map]. rewrite upper_char_newline.
  destruct (Ascii.eqb last newline).
  - rewrite dropwhile_map by apply upper_char_punct.
    now rewrite map_app, map_rev.
  - apply rstrip_with_map, upper_char_punct.
Qed.

Lemma dropwhile_idempotent (A : Type) (p : A -> bool) (l : list A) :
  dropwhile p (dropwhile p l) = dropwhile p l.
Proof.
  induction l as [|x l IH]; simpl; [reflexivity|].
  destruct (p x) eqn:E; [exact IH | simpl; now rewrite E].
Qed.

Lemma dropwhile_snoc (A : Type) (p : A -> bool) (l : list A) (x : A) :
  p x = false -> dropwhile p (l ++ [x]) = dropwhile p l ++ [x].
Proof.
  intros Hx. induction l as [|y l IH]; simpl; [now rewrite Hx|].
  destruct (p y); [exact IH | reflexivity].
Qed.

(** Trimming on the right keeps a leading non-blank character in place. *)
Lemma lstrip_rstrip (s : str) : lstrip (rstrip_with is_space (lstrip s)) = rstrip_with is_space (lstrip s).
Proof.
  unfold lstrip at 2 3.
  assert (H : dropwhile is_space s = []
              \/ exists c t, dropwhile is_space s = c :: t /\ is_space c = false).
  { induction s as [|c s IH]; simpl; [now left|].
    destruct (is_space c) eqn:E; [exact IH | right; now exists c, s]. }
  destruct H as [->|(c & t & -> & Hc)]; [reflexivity|].
  unfold rstrip_with. simpl rev.
  rewrite dropwhile_snoc by assumption.
  rewrite rev_app_distr. simpl. unfold lstrip. simpl. now rewrite Hc.
Qed.

Lemma strip_idempotent (s : str) : strip (strip s) = strip s.
Proof.
  unfold strip at 1. rewrite (lstrip_rstrip s : lstrip (strip s) = strip s).
  unfold strip, rstrip_with. now rewrite rev_involutive, dropwhile_idempotent.
Qed.

(** The form computed by [extract_codes] before its direct test is the
    normalized form. *)
Lemma basic_cleaned_normalize (code : str) :
  upper (sub_trailing_punct (strip (strip (upper code)))) = normalize code.
Proof.
  unfold normalize.
  now rewrite strip_idempotent, strip_upper, sub_trailing_punct_upper, upper_idempotent.
Qed.

End Normalizer.

(* ================================================================== *)
(** * The resolver *)
(* ================================================================== *)

Section ResolverFacts.

Import Core Spec.

Variable h : HashOrder.

(** The search loop only asks the vocabulary for membership. *)
Lemma first_hit_membership (m1 m2 variants : list str) :
  (forall x, In x m1 <-> In x m2) ->
  first_hit m1 variants = first_hit m2 variants.
Proof.
  intros Hm. unfold first_hit. induction variants as [|v vs IH]; simpl; [reflexivity|].
  assert (E : mem v m1 = mem v m2).
  { destruct (mem v m1) eqn:E1, (mem v m2) eqn:E2; try reflexivity.
    - apply mem_In, Hm, mem_In in E1. congruence.
    - apply mem_In, Hm, mem_In in E2. congruence. }
  rewrite E. destruct (mem v m2); [reflexivity | exact IH].
Qed.

(** For one iteration order of the character sets, the result of the
    resolver depends on the vocabulary only through its members, not through
    the order in which it lists them. *)
Lemma clean_code_advanced_membership (code : str) (m1 m2 : list str) :
  (forall x, In x m1 <-> In x m2) ->
  clean_code_advanced h code m1 = clean_code_advanced h code m2.
Proof.
  intros Hm. unfold clean_code_advanced.
  destruct code as [|c code]; [reflexivity|].
  destruct m1 as [|a m1], m2 as [|b m2]; try reflexivity.
  - exfalso. apply (proj2 (Hm b)). now left.
  - exfalso. apply (proj1 (Hm a)). now left.
  - now rewrite !(first_hit_membership (a :: m1) (b :: m2) _ Hm).
Qed.

Lemma first_hit_nil (variants : list str) : first_hit [] variants = None.
Proof. unfold first_hit. induction variants; simpl; auto. Qed.

Lemma first_hit_original (master : list str) (code : str) :
  In code master ->
  first_hit master (generate_all_ocr_variants h code) = Some code.
Proof.
  intros H. unfold first_hit, generate_all_ocr_variants. simpl.
  now rewrite (proj2 (mem_In code master) H).
Qed.

End ResolverFacts.

(** C6: a candidate whose normalized form is a vocabulary member is resolved
    to that form unchanged: it is the first entry of the variant list, no
    substitution variant and no shortening is applied, the operation count
    is 0, and [extract_codes] validates it without a correction record. *)
Theorem resolver_short_circuit (h : HashOrder) (code : str) (master_codes_set : list str) :
  In (Spec.normalize code) master_codes_set ->
  Core.clean_code_advanced h code master_codes_set = Spec.normalize code
  /\ Core.first_hit master_codes_set
       (Core.generate_all_ocr_variants h (Spec.normalize code))
     = nth_error (Core.generate_all_ocr_variants h (Spec.normalize code)) 0
  /\ Core.count_corrections_needed
       (Spec.normalize code) (Core.clean_code_advanced h code master_codes_set) = 0%Z
  /\ (forall validated info i,
         Core.validate_code h master_codes_set (validated, info) (i, code)
         = (set_add (Spec.normalize code) validated, info)).
Proof.
  intros Hin.
  assert (E : Core.clean_code_advanced h code master_codes_set = Spec.normalize code).
  { unfold Core.clean_code_advanced.
    destruct code as [|c code]; [reflexivity|].
    destruct master_codes_set as [|m ms]; [destruct Hin|].
    fold (Spec.normalize (c :: code)).
    now rewrite first_hit_original. }
  split; [exact E|]. split; [now rewrite first_hit_original|]. split.
  - rewrite E. unfold Core.count_corrections_needed. now rewrite str_eqb_refl.
  - intros validated info i. unfold Core.validate_code.
    rewrite basic_cleaned_normalize.
    now rewrite (proj2 (mem_In _ _) Hin).
Qed.

Lemma resolver_short_circuit_witness :
  Core.clean_code_advanced insertion_order (lit " p0b.;") [lit "P08"; lit "P0B"] = lit "P0B".
Proof.
  apply (resolver_short_circuit insertion_order (lit " p0b.;") [lit "P08"; lit "P0B"]).
  vm_compute. tauto.
Defined.

(** C3 (the resolver on one input under two iteration orders of the
    per-position character sets): the candidate I23 and the vocabulary
    {123, L23} resolve to 123 in one run and to L23 in the other. *)
Theorem clean_code_advanced_iteration_order :
  Core.clean_code_advanced insertion_order (lit "I23") [lit "123"; lit "L23"] = lit "123"
  /\ Core.clean_code_advanced reversed_order (lit "I23") [lit "123"; lit "L23"] = lit "L23"
  /\ Core.count_changes (lit "I23") (lit "123") = Core.count_changes (lit "I23") (lit "L23").
Proof. repeat split; vm_compute; reflexivity. Qed.

(* ================================================================== *)
(** * The reconciliation engine *)
(* ================================================================== *)

Section SetAlgebra.

Import CodeFilters Core.

Lemma In_decidable (x : str) (l : list str) : In x l \/ ~ In x l.
Proof.
  destruct (mem x l) eqn:E; [left; now apply mem_In | right].
  intros H. apply mem_In in H. congruence.
Qed.

(** Codes of document 1 are spread over "in both" and "only in 1". *)
Lemma compare_sets_pdf1 (codes_pdf1 codes_pdf2 : list str) (c : str) :
  In c (in_both (overall (compare_sets codes_pdf1 codes_pdf2)))
  \/ In c (only_in_pdf1 (overall (compare_sets codes_pdf1 codes_pdf2)))
  <-> In c codes_pdf1.
Proof.
  unfold compare_sets, categorize_codes_by_type. cbn [overall in_both only_in_pdf1 normal control].
  rewrite !union_In, !intersection_In, !difference_In, !filter_In.
  split; [tauto|]. intros H.
  destruct (is_control_code c) eqn:Ec; simpl.
  - destruct (In_decidable c codes_pdf2); tauto.
  - destruct (In_decidable c codes_pdf2); tauto.
Qed.

(** Codes of document 2 are spread over "in both" and "only in 2". *)
Lemma compare_sets_pdf2 (codes_pdf1 codes_pdf2 : list str) (c : str) :
  In c (in_both (overall (compare_sets codes_pdf1 codes_pdf2)))
  \/ In c (only_in_pdf2 (overall (compare_sets codes_pdf1 codes_pdf2)))
  <-> In c codes_pdf2.
Proof.
  unfold compare_sets, categorize_codes_by_type. cbn [overall in_both only_in_pdf2 normal control].
  rewrite !union_In, !intersection_In, !difference_In, !filter_In.
  split; [tauto|]. intros H.
  destruct (is_control_code c) eqn:Ec; simpl.
  - destruct (In_decidable c codes_pdf1); tauto.
  - destruct (In_decidable c codes_pdf1); tauto.
Qed.

Lemma filter_mem_nil (l : list str) : filter (fun code => mem code []) l = [].
Proof. induction l; simpl; auto. Qed.

End SetAlgebra.

Section Discovery.

Import CodeFilters Core.

Variable h : HashOrder.
Variables (codes_pdf1 : list str) (correction_info_pdf1 : list corr_info).

Lemma discovery_invariant_init :
  discovery_invariant codes_pdf1 correction_info_pdf1 ([], codes_pdf1).
Proof.
  repeat split; simpl; try tauto.
Qed.

(** Recording an entry of another type. *)
Lemma discovery_invariant_record (all : list correction) (s : list str) (e : correction) :
  c_type e <> Korrekturmatch ->
  discovery_invariant codes_pdf1 correction_info_pdf1 (all, s) -> discovery_invariant codes_pdf1 correction_info_pdf1 (all ++ [e], s).
Proof.
  intros Ht (H1 & H2 & H3). repeat split; cbn [fst snd] in *.
  - intros e' He' Hk. apply in_app_iff in He' as [He'|[<-|[]]]; [auto | contradiction].
  - exact H2.
  - intros c Hc. destruct (H3 c Hc) as [H|[H|(e' & He' & Hr)]]; auto.
    right; right. exists e'. split; [apply in_app_iff; now left | exact Hr].
Qed.

(** Recording a resolver record of document 1 and adding its code. *)
Lemma discovery_invariant_resolver (all : list correction) (s : list str)
      (e : correction) (info : corr_info) :
  c_type e <> Korrekturmatch -> In info correction_info_pdf1 ->
  discovery_invariant codes_pdf1 correction_info_pdf1 (all, s) ->
  discovery_invariant codes_pdf1 correction_info_pdf1 (all ++ [e], set_add (ci_corrected info) s).
Proof.
  intros Ht Hinfo Hinv.
  destruct (discovery_invariant_record _ _ _ Ht Hinv) as (H1 & H2 & H3).
  repeat split; cbn [fst snd] in *.
  - exact H1.
  - intros c Hc. apply set_add_In. right. now apply H2.
  - intros c Hc. apply set_add_In in Hc as [->|Hc]; [|now apply H3].
    right; left. now apply in_map.
Qed.

(** Admitting a correction that passed the gate. *)
Lemma discovery_invariant_admit (all : list correction) (s : list str) (e : correction) :
  passes_gate e -> c_type e = Korrekturmatch ->
  discovery_invariant codes_pdf1 correction_info_pdf1 (all, s) ->
  discovery_invariant codes_pdf1 correction_info_pdf1 (all ++ [e], set_add (c_corrected e) s).
Proof.
  intros Hg Ht (H1 & H2 & H3). repeat split; cbn [fst snd] in *.
  - intros e' He' Hk. apply in_app_iff in He' as [He'|[<-|[]]]; auto.
  - intros c Hc. apply set_add_In. right. now apply H2.
  - intros c Hc. apply set_add_In in Hc as [->|Hc].
    + right; right. exists e. split; [apply in_app_iff; right; now left | auto].
    + destruct (H3 c Hc) as [H|[H|(e' & He' & Hr)]]; auto.
      right; right. exists e'. split; [apply in_app_iff; now left | exact Hr].
Qed.

Lemma add_resolver_corrections_pdf1_invariant (v1 v2 : list str) (st : state) :
  discovery_invariant codes_pdf1 correction_info_pdf1 st ->
  discovery_invariant codes_pdf1 correction_info_pdf1 (add_resolver_corrections_pdf1 v1 v2 correction_info_pdf1 st).
Proof.
  unfold add_resolver_corrections_pdf1.
  apply fold_left_invariant. intros [all s] info Hinfo Hinv.
  destruct (calculate_precise_probability _ _ _ _ _ _) as [p d].
  apply discovery_invariant_resolver; [discriminate | assumption | assumption].
Qed.

Lemma add_resolver_corrections_pdf2_invariant (v1 v2 : list str)
      (correction_info_pdf2 : list corr_info) (st : state) :
  discovery_invariant codes_pdf1 correction_info_pdf1 st ->
  discovery_invariant codes_pdf1 correction_info_pdf1 (add_resolver_corrections_pdf2 v1 v2 correction_info_pdf2 st).
Proof.
  unfold add_resolver_corrections_pdf2.
  apply fold_left_invariant. intros [all s] info Hinfo Hinv.
  destruct (calculate_precise_probability _ _ _ _ _ _) as [p d].
  apply discovery_invariant_record; [discriminate | assumption].
Qed.

Lemma add_whitespace_corrections_invariant
      (codes_pdf2 master v1 v2 : list str) (combos : list combination) (st : state) :
  discovery_invariant codes_pdf1 correction_info_pdf1 st ->
  discovery_invariant codes_pdf1 correction_info_pdf1 (add_whitespace_corrections h codes_pdf2 master v1 v2 combos st).
Proof.
  unfold add_whitespace_corrections.
  apply fold_left_invariant. intros [all s] combo Hcombo Hinv.
  destruct (mem _ master && mem _ codes_pdf2); [|assumption].
  destruct (calculate_precise_probability _ _ _ _ _ _) as [p d].
  match goal with
  | |- context [PrimFloat.leb 0.6%float ?q] => destruct (PrimFloat.leb 0.6%float q) eqn:Hg
  end; [|assumption].
  match goal with
  | |- discovery_invariant _ _ (_ ++ [?e], set_add ?c _) =>
      apply (discovery_invariant_admit all s e); [exact Hg | reflexivity | assumption]
  end.
Qed.

Lemma add_substitution_corrections_invariant
      (targets : list str) (raw_codes_pdf1 : list raw_code)
      (master v1 v2 : list str) (st : state) :
  discovery_invariant codes_pdf1 correction_info_pdf1 st ->
  discovery_invariant codes_pdf1 correction_info_pdf1
    (add_substitution_corrections h targets raw_codes_pdf1 master v1 v2 st).
Proof.
  unfold add_substitution_corrections.
  apply fold_left_invariant. intros st' target _.
  apply fold_left_invariant. intros [all s] raw _ Hinv.
  destruct (mem _ _ && negb (mem _ master)); [|assumption].
  destruct (calculate_precise_probability _ _ _ _ _ _) as [p d].
  destruct (PrimFloat.leb 0.6%float p) eqn:Hg; [|assumption].
  match goal with
  | |- discovery_invariant _ _ (_ ++ [?e], set_add ?c _) =>
      apply (discovery_invariant_admit all s e); [exact Hg | reflexivity | assumption]
  end.
Qed.

Lemma discover_corrections_invariant
      (codes_pdf2 : list str) (raw_codes_pdf1 raw_codes_pdf2 : list raw_code)
      (master lines : list str) (correction_info_pdf2 : list corr_info) :
  discovery_invariant codes_pdf1 correction_info_pdf1
    (discover_corrections h codes_pdf1 codes_pdf2 raw_codes_pdf1 raw_codes_pdf2
                          master lines correction_info_pdf1 correction_info_pdf2).
Proof.
  unfold discover_corrections.
  apply add_substitution_corrections_invariant,
        add_whitespace_corrections_invariant,
        add_resolver_corrections_pdf2_invariant,
        add_resolver_corrections_pdf1_invariant,
        discovery_invariant_init.
Qed.

(** A loop that appends to a list. *)
Lemma fold_left_append (A B : Type) (g : B -> list A) (f : list A -> B -> list A) :
  (forall a x, f a x = a ++ g x) ->
  forall l a, fold_left f l a = a ++ flat_map g l.
Proof.
  intros Hf. induction l as [|x l IH]; intros a; simpl.
  - now rewrite app_nil_r.
  - now rewrite IH, Hf, <- app_assoc.
Qed.

(** The classification of the baseline matches keeps the entries found so
    far and only appends entries of type Direkter Match. *)
Lemma add_direct_matches_entries (codes v1 v2 : list str) (ci1 ci2 : list corr_info)
      (all : list correction) (e : correction) :
  (In e all -> In e (add_direct_matches codes v1 v2 ci1 ci2 all))
  /\ (In e (add_direct_matches codes v1 v2 ci1 ci2 all) ->
      In e all \/ c_type e = Direkter_Match).
Proof.
  unfold add_direct_matches.
  set (cwc := fold_left _ (ci1 ++ ci2) []).
  rewrite (fold_left_append _ _
             (fun code =>
                if mem code cwc then []
                else [{| c_original := code; c_corrected := code;
                         c_probability :=
                           fst (calculate_precise_probability code 0 0
                                  (get_validated_context_codes v1 code 1)
                                  (get_validated_context_codes v2 code 1) true);
                         c_type := Direkter_Match |}])).
  - rewrite in_app_iff, in_flat_map. split; [tauto|].
    intros [H|(code & _ & H)]; [now left | right].
    destruct (mem code cwc); [destruct H|].
    destruct H as [<-|[]]. reflexivity.
  - intros a code. destruct (mem code cwc); [now rewrite app_nil_r|].
    destruct (calculate_precise_probability code 0 0 _ _ true) as [p d]. reflexivity.
Qed.

(** A loop whose turns keep a property, once one turn has established it,
    ends with it. *)
Lemma fold_left_reaches (A B : Type) (P : A -> Prop) (f : A -> B -> A)
      (x0 : B) (l : list B) :
  In x0 l -> (forall st, P (f st x0)) -> (forall st x, P st -> P (f st x)) ->
  forall st, P (fold_left f l st).
Proof.
  intros Hin Hx Hkeep. induction l as [|x l IH]; [destruct Hin|].
  intros st. simpl. destruct Hin as [->|Hin]; [|now apply IH].
  apply fold_left_invariant; [intros; now apply Hkeep | apply Hx].
Qed.

(** The entry written for a resolver record, with the correction counts
    charged to the two documents. *)
Lemma resolver_corrections_pdf1_recorded
      (v1 v2 : list str) (info : corr_info) (st : state) :
  In info correction_info_pdf1 ->
  let st' := add_resolver_corrections_pdf1 v1 v2 correction_info_pdf1 st in
  In {| c_original := ci_original info; c_corrected := ci_corrected info;
        c_probability :=
          fst (calculate_precise_probability (ci_corrected info)
                 (count_corrections_needed (ci_original info) (ci_corrected info)) 0
                 (get_validated_context_codes v1 (ci_corrected info) 3)
                 (get_validated_context_codes v2 (ci_corrected info) 3) true);
        c_type := Erweiterte_OCR_Korrektur |} (fst st')
  /\ In (ci_corrected info) (snd st').
Proof.
  intros Hinfo st'. subst st'. unfold add_resolver_corrections_pdf1.
  match goal with
  | |- In ?e (fst (fold_left ?f _ _)) /\ In ?c _ =>
      apply (fold_left_reaches _ _ (fun st : state => In e (fst st) /\ In c (snd st))
               f info); [assumption | |]
  end.
  - intros [all s].
    destruct (calculate_precise_probability _ _ _ _ _ _) as [p d]. cbn [fst snd].
    split; [apply in_app_iff; right; now left | apply set_add_In; now left].
  - intros [all s] x [He Hc].
    destruct (calculate_precise_probability (ci_corrected x) _ _ _ _ _) as [p d].
    cbn [fst snd] in *.
    split; [apply in_app_iff; now left | apply set_add_In; now right].
Qed.

Lemma resolver_corrections_pdf2_recorded
      (v1 v2 : list str) (correction_info_pdf2 : list corr_info)
      (info : corr_info) (st : state) :
  In info correction_info_pdf2 ->
  In {| c_original := ci_original info; c_corrected := ci_corrected info;
        c_probability :=
          fst (calculate_precise_probability (ci_corrected info) 0
                 (count_corrections_needed (ci_original info) (ci_corrected info))
                 (get_validated_context_codes v1 (ci_corrected info) 3)
                 (get_validated_context_codes v2 (ci_corrected info) 3) true);
        c_type := Erweiterte_OCR_Korrektur |}
     (fst (add_resolver_corrections_pdf2 v1 v2 correction_info_pdf2 st)).
Proof.
  intros Hinfo. unfold add_resolver_corrections_pdf2.
  match goal with
  | |- In ?e (fst (fold_left ?f _ _)) =>
      apply (fold_left_reaches _ _ (fun st : state => In e (fst st)) f info);
        [assumption | |]
  end.
  - intros [all s].
    destruct (calculate_precise_probability _ _ _ _ _ _) as [p d]. cbn [fst].
    apply in_app_iff; right; now left.
  - intros [all s] x He.
    destruct (calculate_precise_probability (ci_corrected x) _ _ _ _ _) as [p d].
    cbn [fst] in *. apply in_app_iff; now left.
Qed.

(** The passes after the resolver records only append entries and only add
    codes. *)
Lemma add_resolver_corrections_pdf2_keeps
      (v1 v2 : list str) (correction_info_pdf2 : list corr_info)
      (e : correction) (c : str) (st : state) :
  (In e (fst st) -> In e (fst (add_resolver_corrections_pdf2 v1 v2 correction_info_pdf2 st)))
  /\ (In c (snd st) -> In c (snd (add_resolver_corrections_pdf2 v1 v2 correction_info_pdf2 st))).
Proof.
  unfold add_resolver_corrections_pdf2.
  split;
    [apply (fold_left_invariant _ _ (fun st : state => In e (fst st)))
    |apply (fold_left_invariant _ _ (fun st : state => In c (snd st)))];
    intros [all s] x _ H;
    destruct (calculate_precise_probability _ _ _ _ _ _) as [p d]; cbn [fst snd] in *;
    [apply in_app_iff; now left | assumption].
Qed.

Lemma add_whitespace_corrections_keeps
      (codes_pdf2 master v1 v2 : list str) (combos : list combination)
      (e : correction) (c : str) (st : state) :
  (In e (fst st) ->
   In e (fst (add_whitespace_corrections h codes_pdf2 master v1 v2 combos st)))
  /\ (In c (snd st) ->
      In c (snd (add_whitespace_corrections h codes_pdf2 master v1 v2 combos st))).
Proof.
  unfold add_whitespace_corrections.
  split;
    [apply (fold_left_invariant _ _ (fun st : state => In e (fst st)))
    |apply (fold_left_invariant _ _ (fun st : state => In c (snd st)))];
    intros [all s] x _ H;
    (destruct (mem _ master && mem _ codes_pdf2); [|assumption]);
    destruct (calculate_precise_probability _ _ _ _ _ _) as [p d];
    match goal with
    | |- context [PrimFloat.leb 0.6%float ?q] => destruct (PrimFloat.leb 0.6%float q)
    end; try assumption; cbn [fst snd] in *;
    [apply in_app_iff; now left | apply set_add_In; now right].
Qed.

Lemma add_substitution_corrections_keeps
      (targets : list str) (raw_codes_pdf1 : list raw_code)
      (master v1 v2 : list str) (e : correction) (c : str) (st : state) :
  (In e (fst st) ->
   In e (fst (add_substitution_corrections h targets raw_codes_pdf1 master v1 v2 st)))
  /\ (In c (snd st) ->
      In c (snd (add_substitution_corrections h targets raw_codes_pdf1 master v1 v2 st))).
Proof.
  unfold add_substitution_corrections.
  split;
    [apply (fold_left_invariant _ _ (fun st : state => In e (fst st)));
     intros st' target _;
     apply (fold_left_invariant _ _ (fun st : state => In e (fst st)))
    |apply (fold_left_invariant _ _ (fun st : state => In c (snd st)));
     intros st' target _;
     apply (fold_left_invariant _ _ (fun st : state => In c (snd st)))];
    intros [all s] raw _ H;
    (destruct (mem _ _ && negb (mem _ master)); [|assumption]);
    destruct (calculate_precise_probability _ _ _ _ _ _) as [p d];
    destruct (PrimFloat.leb 0.6%float p); try assumption; cbn [fst snd] in *;
    [apply in_app_iff; now left | apply set_add_In; now right].
Qed.

(** Every resolver record is written to the list of corrections, with the
    probability computed for it, and the code of a record of document 1 is
    added to document 1's set: no threshold is tested. *)
Lemma resolver_corrections_recorded
      (codes_pdf2 : list str) (raw_codes_pdf1 raw_codes_pdf2 : list raw_code)
      (master lines : list str) (correction_info_pdf2 : list corr_info) :
  let final := discover_corrections h codes_pdf1 codes_pdf2 raw_codes_pdf1 raw_codes_pdf2
                 master lines correction_info_pdf1 correction_info_pdf2 in
  let v1 := all_validated h raw_codes_pdf1 master in
  let v2 := all_validated h raw_codes_pdf2 master in
  (forall info, In info correction_info_pdf1 ->
     In {| c_original := ci_original info; c_corrected := ci_corrected info;
           c_probability :=
             fst (calculate_precise_probability (ci_corrected info)
                    (count_corrections_needed (ci_original info) (ci_corrected info)) 0
                    (get_validated_context_codes v1 (ci_corrected info) 3)
                    (get_validated_context_codes v2 (ci_corrected info) 3) true);
           c_type := Erweiterte_OCR_Korrektur |} (fst final)
     /\ In (ci_corrected info) (snd final))
  /\ (forall info, In info correction_info_pdf2 ->
        In {| c_original := ci_original info; c_corrected := ci_corrected info;
              c_probability :=
                fst (calculate_precise_probability (ci_corrected info) 0
                       (count_corrections_needed (ci_original info) (ci_corrected info))
                       (get_validated_context_codes v1 (ci_corrected info) 3)
                       (get_validated_context_codes v2 (ci_corrected info) 3) true);
              c_type := Erweiterte_OCR_Korrektur |} (fst final)).
Proof.
  intros final v1 v2. subst final. unfold discover_corrections. fold v1 v2.
  split; intros info Hinfo.
  - destruct (resolver_corrections_pdf1_recorded v1 v2 info ([], codes_pdf1) Hinfo)
      as [He Hc].
    split.
    + apply add_substitution_corrections_keeps; [exact (ci_corrected info)|].
      apply add_whitespace_corrections_keeps; [exact (ci_corrected info)|].
      apply add_resolver_corrections_pdf2_keeps; [exact (ci_corrected info)|].
      exact He.
    + lazymatch type of He with
      | In ?e _ =>
          apply (add_substitution_corrections_keeps _ _ _ _ _ e);
          apply (add_whitespace_corrections_keeps _ _ _ _ _ e);
          apply (add_resolver_corrections_pdf2_keeps _ _ _ e)
      end.
      exact Hc.
  - apply add_substitution_corrections_keeps; [exact (ci_corrected info)|].
    apply add_whitespace_corrections_keeps; [exact (ci_corrected info)|].
    apply resolver_corrections_pdf2_recorded. exact Hinfo.
Qed.

End Discovery.

Section EngineTheorems.

Import CodeFilters Core.

(** C10: every code validated for document 1 is in document 1's corrected
    set, hence still reported, as "in both" or "only in 1", after correction
    discovery: the discovery passes only add codes. *)
Theorem corrected_set_superset
    (h : HashOrder) (codes_pdf1 codes_pdf2 : list str)
    (raw_codes_pdf1 raw_codes_pdf2 : list raw_code)
    (master_codes_set all_text_lines_pdf1 : list str)
    (correction_info_pdf1 correction_info_pdf2 : list corr_info) (c : str) :
  In c codes_pdf1 ->
  let r := compare_codes_with_correction h codes_pdf1 codes_pdf2
             raw_codes_pdf1 raw_codes_pdf2 master_codes_set all_text_lines_pdf1
             correction_info_pdf1 correction_info_pdf2 in
  In c (snd (discover_corrections h codes_pdf1 codes_pdf2
               raw_codes_pdf1 raw_codes_pdf2 master_codes_set all_text_lines_pdf1
               correction_info_pdf1 correction_info_pdf2))
  /\ (In c (in_both (overall (corrected r)))
      \/ In c (only_in_pdf1 (overall (corrected r)))).
Proof.
  intros Hc r.
  pose proof (discover_corrections_invariant h codes_pdf1 correction_info_pdf1
                codes_pdf2 raw_codes_pdf1 raw_codes_pdf2 master_codes_set
                all_text_lines_pdf1 correction_info_pdf2) as (_ & Hkeep & _).
  split; [now apply Hkeep|].
  subst r. unfold compare_codes_with_correction.
  destruct (discover_corrections _ _ _ _ _ _ _ _ _) as [all s].
  cbn [corrected]. apply compare_sets_pdf1. now apply Hkeep.
Qed.

Lemma corrected_set_superset_witness :
  let r := run_comparison insertion_order
             [(lit "A1X", 1%Z, 0%Z); (lit "FLW", 1%Z, 1%Z)]
             [(lit "A1X", 1%Z, 0%Z); (lit "ELW", 1%Z, 1%Z)]
             [lit "A1X"; lit "ELW"] [] in
  In (lit "A1X") (in_both (overall (corrected r)))
  \/ In (lit "A1X") (only_in_pdf1 (overall (corrected r))).
Proof.
  intros r.
  apply (corrected_set_superset insertion_order [lit "A1X"] [lit "A1X"; lit "ELW"]
           [(lit "A1X", 1%Z, 0%Z); (lit "FLW", 1%Z, 1%Z)]
           [(lit "A1X", 1%Z, 0%Z); (lit "ELW", 1%Z, 1%Z)]
           [lit "A1X"; lit "ELW"] [] [] [] (lit "A1X")).
  now left.
Defined.

(** C1 (counterexample): with the vocabulary {BBB}, document 1 reading 888
    and document 2 reading BBB, the resolver-sourced correction 888 -> BBB
    has probability 0.5 and its code is in the corrected "in both" set. *)
Lemma resolver_correction_below_gate :
  ~ admitted_corrections_pass_gate
      (run_comparison insertion_order
         [(lit "888", 1%Z, 0%Z)] [(lit "BBB", 1%Z, 0%Z)] [lit "BBB"] []).
Proof.
  intros H.
  specialize (H {| c_original := lit "888"; c_corrected := lit "BBB";
                   c_probability := 0.5%float; c_type := Erweiterte_OCR_Korrektur |}).
  assert (F : passes_gate
                {| c_original := lit "888"; c_corrected := lit "BBB";
                   c_probability := 0.5%float; c_type := Erweiterte_OCR_Korrektur |}).
  { apply H.
    - vm_compute. left. reflexivity.
    - discriminate.
    - left. vm_compute. left. reflexivity. }
  vm_compute in F. discriminate F.
Qed.

(** C1 (amended): the corrections admitted by the fragment-merge and the
    cross-document substitution passes (type Korrekturmatch) have a
    probability of at least 0.60, and a code is in document 1's corrected
    membership only as an originally validated code, as the corrected code of
    a resolver-sourced record of document 1, or through such a gated
    correction.  Resolver-sourced corrections pass no gate: every resolver
    record of either document is written to the list of corrections with the
    probability computed for it, whatever that probability is, and its code
    is kept in the corrected sets (for document 1 it is added to the set; for
    document 2 it stays where the validated set of document 2 has it). *)
Theorem admission_gate
    (h : HashOrder) (codes_pdf1 codes_pdf2 : list str)
    (raw_codes_pdf1 raw_codes_pdf2 : list raw_code)
    (master_codes_set all_text_lines_pdf1 : list str)
    (correction_info_pdf1 correction_info_pdf2 : list corr_info) :
  let r := compare_codes_with_correction h codes_pdf1 codes_pdf2
             raw_codes_pdf1 raw_codes_pdf2 master_codes_set all_text_lines_pdf1
             correction_info_pdf1 correction_info_pdf2 in
  let all_validated_pdf1 := all_validated h raw_codes_pdf1 master_codes_set in
  let all_validated_pdf2 := all_validated h raw_codes_pdf2 master_codes_set in
  (forall e, In e (corrections r) -> c_type e = Korrekturmatch -> passes_gate e)
  /\ (forall c,
         In c (in_both (overall (corrected r)))
         \/ In c (only_in_pdf1 (overall (corrected r))) ->
         In c codes_pdf1
         \/ In c (map ci_corrected correction_info_pdf1)
         \/ exists e, In e (corrections r) /\ c_type e = Korrekturmatch
                      /\ c_corrected e = c /\ passes_gate e)
  /\ (forall info, In info correction_info_pdf1 ->
         In {| c_original := ci_original info; c_corrected := ci_corrected info;
               c_probability :=
                 fst (calculate_precise_probability (ci_corrected info)
                        (count_corrections_needed (ci_original info) (ci_corrected info)) 0
                        (get_validated_context_codes all_validated_pdf1 (ci_corrected info) 3)
                        (get_validated_context_codes all_validated_pdf2 (ci_corrected info) 3)
                        true);
               c_type := Erweiterte_OCR_Korrektur |} (corrections r)
         /\ (In (ci_corrected info) (in_both (overall (corrected r)))
             \/ In (ci_corrected info) (only_in_pdf1 (overall (corrected r)))))
  /\ (forall info, In info correction_info_pdf2 ->
         In {| c_original := ci_original info; c_corrected := ci_corrected info;
               c_probability :=
                 fst (calculate_precise_probability (ci_corrected info) 0
                        (count_corrections_needed (ci_original info) (ci_corrected info))
                        (get_validated_context_codes all_validated_pdf1 (ci_corrected info) 3)
                        (get_validated_context_codes all_validated_pdf2 (ci_corrected info) 3)
                        true);
               c_type := Erweiterte_OCR_Korrektur |} (corrections r)
         /\ (In (ci_corrected info) codes_pdf2 ->
             In (ci_corrected info) (in_both (overall (corrected r)))
             \/ In (ci_corrected info) (only_in_pdf2 (overall (corrected r))))).
Proof.
  intros r all_validated_pdf1 all_validated_pdf2.
  pose proof (discover_corrections_invariant h codes_pdf1 correction_info_pdf1
                codes_pdf2 raw_codes_pdf1 raw_codes_pdf2 master_codes_set
                all_text_lines_pdf1 correction_info_pdf2) as (Hgate & _ & Horigin).
  pose proof (resolver_corrections_recorded h codes_pdf1 correction_info_pdf1
                codes_pdf2 raw_codes_pdf1 raw_codes_pdf2 master_codes_set
                all_text_lines_pdf1 correction_info_pdf2) as Hrec.
  cbv zeta in Hrec. fold all_validated_pdf1 all_validated_pdf2 in Hrec.
  destruct Hrec as [Hrec1 Hrec2].
  subst r. unfold compare_codes_with_correction.
  destruct (discover_corrections _ _ _ _ _ _ _ _ _) as [all s].
  cbn [corrected corrections fst snd] in *.
  split; [|split; [|split]].
  - intros e He Ht.
    apply add_direct_matches_entries in He as [He|He]; [now apply Hgate | congruence].
  - intros c Hc. apply compare_sets_pdf1 in Hc.
    destruct (Horigin c Hc) as [H|[H|(e & He & Hr)]]; auto.
    right; right. exists e. split; [now apply add_direct_matches_entries | exact Hr].
  - intros info Hinfo. destruct (Hrec1 info Hinfo) as [He Hc]. split.
    + now apply add_direct_matches_entries.
    + now apply compare_sets_pdf1.
  - intros info Hinfo. split.
    + apply add_direct_matches_entries. now apply Hrec2.
    + intros Hc. now apply compare_sets_pdf2.
Qed.

Lemma admission_gate_witness :
  let r := compare_codes_with_correction insertion_order
             [lit "A1X"; lit "BBB"] [lit "A1X"; lit "ELW"; lit "BBB"]
             [(lit "A1X", 1%Z, 0%Z); (lit "FLW", 1%Z, 1%Z); (lit "888", 1%Z, 2%Z)]
             [(lit "A1X", 1%Z, 0%Z); (lit "ELW", 1%Z, 1%Z); (lit "BBB", 1%Z, 2%Z)]
             [lit "A1X"; lit "ELW"; lit "BBB"] []
             [{| ci_original := lit "888"; ci_corrected := lit "BBB";
                 ci_page := 1%Z; ci_position := 2%Z;
                 ci_corrections_applied :=
                   [[Substituted "8" "B"; Substituted "8" "B"; Substituted "8" "B"]];
                 ci_corrections_count := 1 |}] [] in
  let resolved :=
    {| c_original := lit "888"; c_corrected := lit "BBB";
       c_probability := 0.5%float; c_type := Erweiterte_OCR_Korrektur |} in
  (In (lit "ELW") (in_both (overall (corrected r)))
   /\ exists e, In e (corrections r) /\ c_type e = Korrekturmatch
                /\ c_corrected e = lit "ELW" /\ passes_gate e)
  /\ (In resolved (corrections r) /\ ~ passes_gate resolved
      /\ (In (lit "BBB") (in_both (overall (corrected r)))
          \/ In (lit "BBB") (only_in_pdf1 (overall (corrected r))))).
Proof.
  intros r resolved.
  assert (Hin : In (lit "ELW") (in_both (overall (corrected r)))).
  { vm_compute. right. right. left. reflexivity. }
  destruct (admission_gate insertion_order
              [lit "A1X"; lit "BBB"] [lit "A1X"; lit "ELW"; lit "BBB"]
              [(lit "A1X", 1%Z, 0%Z); (lit "FLW", 1%Z, 1%Z); (lit "888", 1%Z, 2%Z)]
              [(lit "A1X", 1%Z, 0%Z); (lit "ELW", 1%Z, 1%Z); (lit "BBB", 1%Z, 2%Z)]
              [lit "A1X"; lit "ELW"; lit "BBB"] []
              [{| ci_original := lit "888"; ci_corrected := lit "BBB";
                  ci_page := 1%Z; ci_position := 2%Z;
                  ci_corrections_applied :=
                    [[Substituted "8" "B"; Substituted "8" "B"; Substituted "8" "B"]];
                  ci_corrections_count := 1 |}] [])
    as (_ & Horigin & Hresolver & _).
  split.
  - split; [exact Hin|].
    destruct (Horigin (lit "ELW") (or_introl Hin)) as [H|[H|H]].
    + exfalso. simpl in H. destruct H as [H|[H|[]]]; discriminate H.
    + exfalso. simpl in H. destruct H as [H|[]]. discriminate H.
    + exact H.
  - destruct (Hresolver _ (or_introl eq_refl)) as [He Hc].
    split; [|split].
    + vm_compute in He. vm_compute. exact He.
    + unfold passes_gate. vm_compute. discriminate.
    + exact Hc.
Defined.

End EngineTheorems.

(* ================================================================== *)
(** * The empty vocabulary *)
(* ================================================================== *)

Section EmptyVocabulary.

Import CodeFilters Core.

Variable h : HashOrder.

(** Nothing is validated against an empty vocabulary. *)
Lemma validate_code_empty (entry : nat * str) :
  validate_code h [] ([], []) entry = ([], []).
Proof.
  destruct entry as [i code]. unfold validate_code.
  rewrite mem_nil, !first_hit_nil. cbn [truthy negb andb].
  destruct ((3 <? List.length _) && (1 <? List.length _) && char_in _ _);
    [|reflexivity].
  destruct (3 <=? List.length _); reflexivity.
Qed.

Lemma validate_codes_empty (raw_codes : list str) :
  validate_codes h raw_codes [] = ([], []).
Proof.
  unfold validate_codes.
  apply (fold_left_invariant _ _ (fun st => st = ([], []))); [|reflexivity].
  intros st entry _ ->. apply validate_code_empty.
Qed.

Lemma all_validated_empty (raw_codes : list raw_code) :
  all_validated h raw_codes [] = [].
Proof. unfold all_validated. apply filter_mem_nil. Qed.

Lemma add_whitespace_corrections_empty
      (codes_pdf2 v1 v2 : list str) (combos : list combination) (st : state) :
  add_whitespace_corrections h codes_pdf2 [] v1 v2 combos st = st.
Proof.
  unfold add_whitespace_corrections.
  apply (fold_left_invariant _ _ (fun s => s = st)); [|reflexivity].
  intros s combo _ ->. destruct st as [all c]. now rewrite mem_nil.
Qed.

End EmptyVocabulary.

(** C8 (counterexample): with an empty vocabulary the candidate A1X of
    document 1 is not reported as exclusive to document 1. *)
Lemma empty_vocabulary_candidate_not_reported :
  ~ candidates_reported_exclusive
      [(lit "A1X", 1%Z, 0%Z)] [(lit "B2Y", 1%Z, 0%Z)]
      (Core.run_comparison insertion_order
         [(lit "A1X", 1%Z, 0%Z)] [(lit "B2Y", 1%Z, 0%Z)] [] []).
Proof.
  intros [H _]. specialize (H (lit "A1X", 1%Z, 0%Z) (or_introl eq_refl)).
  vm_compute in H. exact H.
Qed.

(** C8 (amended): with an empty vocabulary every candidate ends unmatched
    (no code is validated and no correction is recorded for either document),
    the comparison completes, all membership sets, original and corrected,
    are empty, and the list of corrections and matches is empty: no corrected
    match and no probability is reported. *)
Theorem empty_vocabulary
    (h : HashOrder) (raw_codes_pdf1 raw_codes_pdf2 : list Core.raw_code)
    (all_text_lines_pdf1 : list str) :
  (forall code, mem (Core.clean_code_advanced h code []) [] = false)
  /\ Core.validate_codes h (map (fun x : Core.raw_code => fst (fst x)) raw_codes_pdf1) []
     = ([], [])
  /\ Core.validate_codes h (map (fun x : Core.raw_code => fst (fst x)) raw_codes_pdf2) []
     = ([], [])
  /\ Core.run_comparison h raw_codes_pdf1 raw_codes_pdf2 [] all_text_lines_pdf1
     = {| Core.original := empty_comparison;
          Core.corrected := empty_comparison;
          Core.corrections := [] |}.
Proof.
  split; [reflexivity|].
  split; [apply validate_codes_empty|].
  split; [apply validate_codes_empty|].
  unfold Core.run_comparison. rewrite !validate_codes_empty.
  unfold Core.compare_codes_with_correction, Core.discover_corrections.
  rewrite !all_validated_empty.
  cbn [Core.add_resolver_corrections_pdf1 Core.add_resolver_corrections_pdf2 fold_left].
  rewrite add_whitespace_corrections_empty.
  reflexivity.
Qed.

(* ================================================================== *)
(** * Worked examples *)
(* ================================================================== *)

Section Examples.

Import Core.

(** The variants of I23 when the character sets iterate in insertion order. *)
Example variants_of_I23 :
  generate_all_ocr_variants insertion_order (lit "I23")
  = map lit ["I23"; "IZ3"; "123"; "L23"; "1Z3"; "LZ3"]%string.
Proof. vm_compute. reflexivity. Qed.

(** One substitution in document 1, no context: 0.80 - 0.10. *)
Example one_substitution_scores_070 :
  corrections (run_comparison insertion_order
                 [(lit "P08", 1%Z, 0%Z)] [(lit "P0B", 1%Z, 0%Z)] [lit "P0B"] [])
  = [{| c_original := lit "P08"; c_corrected := lit "P0B";
        c_probability := 0.70000000000000007%float;
        c_type := Erweiterte_OCR_Korrektur |}].
Proof. vm_compute. reflexivity. Qed.

(** A merged fragment "X YZ" counts three operations against XYZ and stays
    below the gate. *)
Example fragment_merge_below_gate :
  count_corrections_needed (lit "X YZ") (lit "XYZ") = 3%Z
  /\ corrections (run_comparison insertion_order
                    [(lit "X", 1%Z, 0%Z); (lit "YZ", 1%Z, 1%Z)] [(lit "XYZ", 1%Z, 0%Z)]
                    [lit "XYZ"] [lit "X YZ"]) = [].
Proof. split; vm_compute; reflexivity. Qed.

(** A zero in second place is dropped when no variant of the full form is in
    the vocabulary. *)
Example shortening_pass :
  clean_code_advanced insertion_order (lit "P0AB") [lit "PA8"] = lit "PA8".
Proof. vm_compute. reflexivity. Qed.

End Examples.

(* ================================================================== *)
(** * Range of the probabilities *)
(* ================================================================== *)

(** A probability between 0 and 1. *)
Definition in_unit_interval (p : float) : Prop :=
  PrimFloat.leb 0%float p = true /\ PrimFloat.leb p 1%float = true.

Section FloatFacts.

Lemma float_ltb_leb (x y : float) :
  PrimFloat.ltb x y = true -> PrimFloat.leb x y = true.
Proof.
  rewrite ltb_spec, leb_spec. unfold SFltb, SFleb.
  destruct (SFcompare (Prim2SF x) (Prim2SF y)) as [[]|]; congruence.
Qed.

(** What lies above a positive number lies above zero. *)
Lemma float_above_positive (c q : float) (m : positive) (e : Z) :
  Prim2SF c = S754_finite false m e ->
  PrimFloat.ltb c q = true -> PrimFloat.leb 0%float q = true.
Proof.
  intros Hc. rewrite ltb_spec, leb_spec, Hc.
  replace (Prim2SF 0%float) with (S754_zero false) by (vm_compute; reflexivity).
  unfold SFltb, SFleb.
  destruct (Prim2SF q) as [s|s| |s m' e']; simpl; try destruct s; simpl;
    try congruence.
Qed.

Lemma clamp_in_unit_interval (p : float) :
  in_unit_interval (fmax 0%float (fmin 1%float p)).
Proof.
  unfold in_unit_interval, fmax, fmin.
  destruct (PrimFloat.ltb p 1%float) eqn:E1.
  - destruct (PrimFloat.ltb 0%float p) eqn:E0.
    + split; now apply float_ltb_leb.
    + split; vm_compute; reflexivity.
  - replace (PrimFloat.ltb 0%float 1%float) with true by (vm_compute; reflexivity).
    split; vm_compute; reflexivity.
Qed.

Lemma clamp_from_tenth_in_unit_interval (p : float) :
  in_unit_interval (fmax 0.1%float (fmin 1%float p)).
Proof.
  unfold in_unit_interval, fmax, fmin.
  destruct (PrimFloat.ltb p 1%float) eqn:E1.
  - destruct (PrimFloat.ltb 0.1%float p) eqn:E0.
    + split; [|now apply float_ltb_leb].
      eapply (float_above_positive 0.1%float); [vm_compute; reflexivity | exact E0].
    + split; vm_compute; reflexivity.
  - replace (PrimFloat.ltb 0.1%float 1%float) with true by (vm_compute; reflexivity).
    split; vm_compute; reflexivity.
Qed.

End FloatFacts.

Lemma scorer_in_unit_interval
    (code : str) (c1 c2 : Z) (context_pdf1 context_pdf2 : Core.context)
    (is_in_both : bool) :
  in_unit_interval
    (fst (Core.calculate_precise_probability code c1 c2 context_pdf1 context_pdf2
                                             is_in_both)).
Proof.
  unfold Core.calculate_precise_probability.
  destruct is_in_both; [|apply clamp_in_unit_interval].
  destruct (if (c1 + c2 =? 0)%Z then _ else _) as [bw aw].
  destruct (Core.context_loop (rev _) _ _ _ _) as [b bm].
  destruct (Core.context_loop (Core.after _) _ _ _ _) as [a am].
  apply clamp_in_unit_interval.
Qed.

(** X1: whatever the correction counts and the context windows, the
    probability returned by [calculate_precise_probability] lies between 0
    and 1. *)
Theorem calculate_precise_probability_range
    (code : str) (c1 c2 : Z) (context_pdf1 context_pdf2 : Core.context)
    (is_in_both : bool) :
  in_unit_interval
    (fst (Core.calculate_precise_probability code c1 c2 context_pdf1 context_pdf2
                                             is_in_both)).
Proof. apply scorer_in_unit_interval. Qed.

(* ================================================================== *)
(** * Categories and the baseline comparison *)
(* ================================================================== *)

Section Categories.

Import CodeFilters Core.

Lemma upper_char_is_I (a : ascii) :
  Ascii.eqb "I"%char (upper_char a) = true <-> a = "I"%char \/ a = "i"%char.
Proof.
  destruct a as [[] [] [] [] [] [] [] []]; cbv; split; intros H;
    try discriminate H; try (destruct H as [H|H]; discriminate H); auto.
Qed.

Lemma is_control_code_spec (code : str) :
  is_control_code code = true <->
  exists rest, code = "I"%char :: rest \/ code = "i"%char :: rest.
Proof.
  destruct code as [|a rest].
  - simpl. split; [discriminate | intros [r [H|H]]; discriminate H].
  - unfold is_control_code, upper. cbn [map is_prefix].
    rewrite andb_true_r, upper_char_is_I. split.
    + intros [->| ->]; exists rest; auto.
    + intros [r [H|H]]; inversion H; auto.
Qed.

End Categories.

(** X2: [categorize_codes_by_type] splits a set of codes in two: every code
    lands in exactly one of the sets normal and control, and the control
    codes are exactly those that start with I or i. *)
Theorem categorize_codes_by_type_partition (codes_set : list str) (code : str) :
  let cats := CodeFilters.categorize_codes_by_type codes_set in
  (In code codes_set <->
   In code (CodeFilters.normal cats) \/ In code (CodeFilters.control cats))
  /\ ~ (In code (CodeFilters.normal cats) /\ In code (CodeFilters.control cats))
  /\ (In code (CodeFilters.control cats) <->
      In code codes_set
      /\ exists rest, code = "I"%char :: rest \/ code = "i"%char :: rest).
Proof.
  unfold CodeFilters.categorize_codes_by_type. cbn [CodeFilters.normal CodeFilters.control].
  rewrite !filter_In, <- is_control_code_spec, negb_true_iff.
  destruct (CodeFilters.is_control_code code); intuition congruence.
Qed.

(** X3: the three sets of [compare_codes] sort the codes of the two
    documents: a code of document 1 is in exactly one of "in both" and "only
    in 1", a code of document 2 in exactly one of "in both" and "only in 2",
    and nothing else is in any of the sets. *)
Theorem compare_codes_partition (codes_pdf1 codes_pdf2 : list str) (code : str) :
  let r := Core.compare_codes codes_pdf1 codes_pdf2 in
  (In code codes_pdf1 <-> In code (Core.in_both r) \/ In code (Core.only_in_pdf1 r))
  /\ (In code codes_pdf2 <-> In code (Core.in_both r) \/ In code (Core.only_in_pdf2 r))
  /\ ~ (In code (Core.in_both r) /\ In code (Core.only_in_pdf1 r))
  /\ ~ (In code (Core.in_both r) /\ In code (Core.only_in_pdf2 r))
  /\ ~ (In code (Core.only_in_pdf1 r) /\ In code (Core.only_in_pdf2 r)).
Proof.
  unfold Core.compare_codes. cbn [Core.in_both Core.only_in_pdf1 Core.only_in_pdf2].
  rewrite intersection_In, !difference_In.
  destruct (In_decidable code codes_pdf1), (In_decidable code codes_pdf2); tauto.
Qed.

(** X4: the split into normal and control codes does not change the overall
    result: the original "in both", "only in 1" and "only in 2" sets returned
    by [compare_codes_with_correction] hold the same codes as the sets of
    [compare_codes], and the per-category sets hold their normal, respectively
    control, part. *)
Theorem original_sets_are_compare_codes
    (h : HashOrder) (codes_pdf1 codes_pdf2 : list str)
    (raw_codes_pdf1 raw_codes_pdf2 : list Core.raw_code)
    (master_codes_set all_text_lines_pdf1 : list str)
    (correction_info_pdf1 correction_info_pdf2 : list Core.corr_info) (code : str) :
  let r := Core.original
             (Core.compare_codes_with_correction h codes_pdf1 codes_pdf2
                raw_codes_pdf1 raw_codes_pdf2 master_codes_set all_text_lines_pdf1
                correction_info_pdf1 correction_info_pdf2) in
  let plain := Core.compare_codes codes_pdf1 codes_pdf2 in
  (In code (Core.in_both (Core.overall r)) <-> In code (Core.in_both plain))
  /\ (In code (Core.only_in_pdf1 (Core.overall r)) <-> In code (Core.only_in_pdf1 plain))
  /\ (In code (Core.only_in_pdf2 (Core.overall r)) <-> In code (Core.only_in_pdf2 plain))
  /\ (In code (Core.in_both (Core.normal_sets r)) <->
      In code (Core.in_both plain) /\ CodeFilters.is_control_code code = false)
  /\ (In code (Core.in_both (Core.control_sets r)) <->
      In code (Core.in_both plain) /\ CodeFilters.is_control_code code = true).
Proof.
  unfold Core.compare_codes_with_correction.
  destruct (Core.discover_corrections _ _ _ _ _ _ _ _ _) as [all s].
  cbn [Core.original].
  unfold Core.compare_sets, Core.compare_codes, CodeFilters.categorize_codes_by_type.
  cbn [Core.overall Core.normal_sets Core.control_sets Core.in_both Core.only_in_pdf1
       Core.only_in_pdf2 CodeFilters.normal CodeFilters.control].
  rewrite !union_In, !intersection_In, !difference_In, !filter_In, !negb_true_iff.
  destruct (CodeFilters.is_control_code code); intuition congruence.
Qed.

(* ================================================================== *)
(** * What the resolver returns *)
(* ================================================================== *)

Section ResolverResult.

Import Core Spec.

Variable h : HashOrder.

(** The first hit of a search through a list in ascending order is a hit
    with the smallest key. *)
Lemma find_ascending_minimal (A : Type) (key : A -> nat) (p : A -> bool)
      (l : list A) (w : A) :
  ascending key l -> In w l -> p w = true ->
  exists v, find p l = Some v /\ key v <= key w.
Proof.
  unfold ascending. induction l as [|x l IH]; intros Hs Hw Hp; [destruct Hw|].
  inversion Hs as [|? ? Hl Hx]; subst. simpl.
  destruct (p x) eqn:Ex.
  - exists x. split; [reflexivity|].
    destruct Hw as [->|Hw]; [lia|].
    rewrite Forall_forall in Hx. now apply Hx.
  - destruct Hw as [->|Hw]; [congruence|]. now apply IH.
Qed.

Lemma count_changes_refl (code : str) : count_changes code code = 0.
Proof.
  induction code as [|c code IH]; simpl; [reflexivity|].
  now rewrite Ascii.eqb_refl.
Qed.

(** The whole variant list, original included, is in ascending order. *)
Lemma generate_all_ocr_variants_ascending (code : str) :
  ascending (count_changes code) (generate_all_ocr_variants h code).
Proof.
  unfold generate_all_ocr_variants, ascending. constructor.
  - apply sort_by_ascending.
  - rewrite count_changes_refl. apply Forall_forall. intros; lia.
Qed.

Lemma first_hit_some (master variants : list str) (v : str) :
  first_hit master variants = Some v -> In v variants /\ In v master.
Proof.
  unfold first_hit. intros H. apply find_some in H as [Hv Hm].
  split; [assumption | now apply mem_In].
Qed.

Lemma normalize_nil : normalize [] = [].
Proof. reflexivity. Qed.

Lemma generate_all_ocr_variants_nil : generate_all_ocr_variants h [] = [[]].
Proof. reflexivity. Qed.

(** The three ways in which the resolver ends. *)
Inductive resolution (code : str) (master : list str) : str -> Prop :=
| Resolved_by_substitution (v : str) :
    first_hit master (generate_all_ocr_variants h (normalize code)) = Some v ->
    resolution code master v
| Resolved_after_shortening (v : str) :
    first_hit master (generate_all_ocr_variants h (normalize code)) = None ->
    3 < List.length (normalize code) ->
    char_in (nth 1 (normalize code) " "%char) ["0"%char; "O"%char] = true ->
    first_hit master
      (generate_all_ocr_variants h
         (firstn 1 (normalize code) ++ skipn 2 (normalize code))) = Some v ->
    resolution code master v
| Unresolved :
    first_hit master (generate_all_ocr_variants h (normalize code)) = None ->
    ~ In (normalize code) master ->
    (forall v, 3 < List.length (normalize code) ->
               char_in (nth 1 (normalize code) " "%char) ["0"%char; "O"%char] = true ->
               first_hit master
                 (generate_all_ocr_variants h
                    (firstn 1 (normalize code) ++ skipn 2 (normalize code))) <> Some v) ->
    resolution code master (normalize code).

Lemma first_hit_none_not_member (master : list str) (code : str) :
  first_hit master (generate_all_ocr_variants h code) = None -> ~ In code master.
Proof.
  intros H Hin. rewrite first_hit_original in H by assumption. discriminate H.
Qed.

(** [clean_code_advanced] ends in one of the three ways, for a vocabulary
    that is not empty. *)
Lemma clean_code_advanced_resolution (code : str) (master : list str) :
  master <> [] ->
  resolution code master (clean_code_advanced h code master).
Proof.
  intros Hm. unfold clean_code_advanced.
  destruct code as [|c code].
  - (* the empty candidate *)
    change (upper (strip [])) with (normalize []).
    destruct (first_hit master (generate_all_ocr_variants h (normalize []))) as [v|] eqn:F.
    + pose proof (first_hit_some _ _ _ F) as [Hv _].
      destruct Hv as [<-|[]]. now apply Resolved_by_substitution.
    + apply Unresolved; [assumption | now apply first_hit_none_not_member|].
      intros v Hlen. simpl in Hlen. lia.
  - destruct master as [|m ms]; [contradiction|].
    fold (normalize (c :: code)).
    set (n := normalize (c :: code)).
    destruct (first_hit (m :: ms) (generate_all_ocr_variants h n)) as [v|] eqn:F1.
    + now apply Resolved_by_substitution.
    + destruct ((3 <? List.length n) && (1 <? List.length n)
                && char_in (nth 1 n " "%char) ["0"%char; "O"%char]) eqn:C.
      * apply andb_true_iff in C as [C C3]. apply andb_true_iff in C as [C1 _].
        apply Nat.ltb_lt in C1.
        destruct (3 <=? List.length (firstn 1 n ++ skipn 2 n)) eqn:L.
        -- destruct (first_hit (m :: ms) (generate_all_ocr_variants h (firstn 1 n ++ skipn 2 n)))
             as [v|] eqn:F2.
           ++ now apply Resolved_after_shortening.
           ++ apply Unresolved; [assumption | now apply first_hit_none_not_member|].
              intros v _ _. subst n. rewrite F2. discriminate.
        -- apply Nat.leb_gt in L.
           rewrite length_app, length_firstn, length_skipn in L. lia.
      * apply Unresolved; [assumption | now apply first_hit_none_not_member|].
        intros v Hlen Hz. exfalso.
        apply Nat.ltb_lt in Hlen. fold n in Hlen, Hz.
        rewrite Hlen, Hz in C.
        assert (H1 : (1 <? List.length n) = true) by (apply Nat.ltb_lt; apply Nat.ltb_lt in Hlen; lia).
        rewrite H1 in C. discriminate C.
Qed.

End ResolverResult.

(** X5: [clean_code_advanced] never invents a code: its result is a
    vocabulary member or the normalized candidate itself, and a result that
    differs from the normalized candidate is a confusable-character variant
    of the normalized candidate or of that form without its second
    character. *)
Theorem clean_code_advanced_result
    (h : HashOrder) (code : str) (master_codes_set : list str) :
  let r := Core.clean_code_advanced h code master_codes_set in
  (In r master_codes_set \/ r = Spec.normalize code)
  /\ (r <> Spec.normalize code ->
      In r master_codes_set
      /\ (substitution_permutation (Spec.normalize code) r
          \/ substitution_permutation
               (firstn 1 (Spec.normalize code) ++ skipn 2 (Spec.normalize code)) r)).
Proof.
  intros r. subst r.
  destruct master_codes_set as [|m ms] eqn:Em.
  - assert (E : Core.clean_code_advanced h code [] = Spec.normalize code)
      by (destruct code; reflexivity).
    rewrite E. split; [now right | congruence].
  - rewrite <- Em.
    assert (Hne : master_codes_set <> []) by (rewrite Em; discriminate).
    destruct (clean_code_advanced_resolution h code master_codes_set Hne)
      as [v F | v _ _ _ F | ].
    + apply first_hit_some in F as [Hv Hm]. split; [now left|].
      intros _. split; [assumption | left]. now apply (generate_all_ocr_variants_In h).
    + apply first_hit_some in F as [Hv Hm]. split; [now left|].
      intros _. split; [assumption | right]. now apply (generate_all_ocr_variants_In h).
    + split; [now right | congruence].
Qed.

(** X6: when a confusable-character variant of the normalized candidate is
    in the vocabulary, [clean_code_advanced] returns a vocabulary member that
    is such a variant, and none of the variants in the vocabulary differs
    from the normalized candidate in fewer positions. *)
Theorem clean_code_advanced_minimal
    (h : HashOrder) (code : str) (master_codes_set : list str) (w : str) :
  In w master_codes_set ->
  substitution_permutation (Spec.normalize code) w ->
  let r := Core.clean_code_advanced h code master_codes_set in
  In r master_codes_set
  /\ substitution_permutation (Spec.normalize code) r
  /\ Spec.positional_mismatches (Spec.normalize code) r
     <= Spec.positional_mismatches (Spec.normalize code) w.
Proof.
  intros Hw Hperm r. subst r.
  rewrite <- !count_changes_positional_mismatches.
  assert (Hne : master_codes_set <> []) by (intros E; rewrite E in Hw; destruct Hw).
  destruct (find_ascending_minimal _
              (Core.count_changes (Spec.normalize code))
              (fun variant => mem variant master_codes_set)
              (Core.generate_all_ocr_variants h (Spec.normalize code)) w)
    as [v [Fv Hle]].
  - apply generate_all_ocr_variants_ascending.
  - now apply generate_all_ocr_variants_In.
  - now apply mem_In.
  - fold (Core.first_hit master_codes_set
            (Core.generate_all_ocr_variants h (Spec.normalize code))) in Fv.
    destruct (clean_code_advanced_resolution h code master_codes_set Hne)
      as [v' F | v' F _ _ _ | F _ _]; rewrite Fv in F; try discriminate F.
    inversion F; subst v'.
    apply first_hit_some in Fv as [Hv Hm].
    repeat split; [assumption | now apply (generate_all_ocr_variants_In h) | assumption].
Qed.

Lemma clean_code_advanced_minimal_witness :
  Spec.positional_mismatches (Spec.normalize (lit "b0i"))
    (Core.clean_code_advanced insertion_order (lit "b0i") [lit "801"; lit "BO1"])
  <= Spec.positional_mismatches (Spec.normalize (lit "b0i")) (lit "801").
Proof.
  apply (clean_code_advanced_minimal insertion_order (lit "b0i")
           [lit "801"; lit "BO1"] (lit "801")).
  - now left.
  - change (Spec.normalize (lit "b0i")) with (lit "B0I").
    repeat (apply Forall2_cons;
            [first [left; reflexivity
                   | right; eexists; split; [reflexivity | simpl; tauto]] |]).
    apply Forall2_nil.
Defined.

(* ================================================================== *)
(** * The validation loop of [extract_codes] *)
(* ================================================================== *)

Lemma analyze_corrections_cases (original corrected : str) :
  (Core.analyze_corrections original corrected = None <-> original = corrected)
  /\ (forall details,
         Core.analyze_corrections original corrected = Some details -> details <> []).
Proof.
  unfold Core.analyze_corrections.
  destruct (str_eqb original corrected) eqn:E.
  - apply str_eqb_eq in E. split; [tauto | discriminate].
  - apply str_eqb_neq in E.
    destruct (_ && str_eqb (firstn 1 original ++ skipn 2 original) corrected).
    + split; [split; [discriminate | contradiction]|].
      intros details H. inversion H. discriminate.
    + split; [split; [discriminate | contradiction]|].
      intros details H. inversion H as [H']. clear H H'.
      destruct (if _ && negb _ then _ else _); discriminate.
Qed.

(** X7: [analyze_corrections] returns nothing exactly for two equal strings;
    for different strings it returns a description with at least one
    clause. *)
Theorem analyze_corrections_describes (original corrected : str) :
  (Core.analyze_corrections original corrected = None <-> original = corrected)
  /\ (forall details,
         Core.analyze_corrections original corrected = Some details -> details <> []).
Proof. apply analyze_corrections_cases. Qed.

Section Validation.

Import Core Spec.

Variable h : HashOrder.

(** The record that the loop appends for candidate number [i]. *)
Definition correction_record (i : nat) (code found : str)
    (applied : list (list correction_detail)) : corr_info :=
  {| ci_original := strip (upper code);
     ci_corrected := found;
     ci_page := (Z.of_nat i / 10 + 1)%Z;
     ci_position := Z.of_nat i;
     ci_corrections_applied := applied;
     ci_corrections_count := List.length applied |}.

(** What one turn of the loop does to its state. *)
Inductive validation_step (master : list str) (validated : list str)
          (info : list corr_info) (i : nat) (code : str)
  : list str * list corr_info -> Prop :=
| Direct_match :
    In (normalize code) master ->
    clean_code_advanced h code master = normalize code ->
    validation_step master validated info i code
      (set_add (normalize code) validated, info)
| Corrected_match (found : str) (applied : list (list correction_detail)) :
    ~ In (normalize code) master ->
    In found master ->
    clean_code_advanced h code master = found ->
    1 <= List.length applied <= 2 ->
    validation_step master validated info i code
      (set_add found validated, info ++ [correction_record i code found applied])
| No_match :
    ~ In (normalize code) master ->
    clean_code_advanced h code master = normalize code ->
    validation_step master validated info i code (validated, info).

Lemma mem_false (x : str) (l : list str) : mem x l = false <-> ~ In x l.
Proof.
  split.
  - intros E H. apply mem_In in H. congruence.
  - intros H. destruct (mem x l) eqn:E; [apply mem_In in E; contradiction | reflexivity].
Qed.

Lemma clean_code_advanced_empty_vocabulary (code : str) :
  clean_code_advanced h code [] = normalize code.
Proof. destruct code; reflexivity. Qed.

(** A variant found in the vocabulary is not the empty string, unless the
    candidate itself is a member. *)
Lemma hit_not_empty (master : list str) (n v : str) :
  ~ In n master ->
  first_hit master (generate_all_ocr_variants h n) = Some v ->
  exists c m, v = c :: m.
Proof.
  intros Hn F. apply first_hit_some in F as [Hv Hm].
  destruct v as [|c m]; [|now exists c, m].
  exfalso. apply generate_all_ocr_variants_length in Hv.
  destruct n; [contradiction | discriminate Hv].
Qed.

Lemma clean_code_advanced_member (code : str) (master : list str) :
  In (normalize code) master -> clean_code_advanced h code master = normalize code.
Proof.
  intros Hin. unfold clean_code_advanced.
  destruct code as [|c code]; [reflexivity|].
  destruct master as [|m ms]; [destruct Hin|].
  fold (normalize (c :: code)).
  now rewrite first_hit_original.
Qed.

Lemma description_length (current variant : str)
      (applied : list (list correction_detail)) :
  List.length applied
  <= List.length
       (if negb (str_eqb variant current)
        then match analyze_corrections current variant with
             | Some d => applied ++ [d]
             | None => applied
             end
        else applied)
  <= S (List.length applied).
Proof.
  destruct (negb _); [|lia].
  destruct (analyze_corrections current variant); [|lia].
  rewrite length_app. simpl. lia.
Qed.

Lemma validate_code_step (master validated : list str) (info : list corr_info)
      (i : nat) (code : str) :
  validation_step master validated info i code
    (validate_code h master (validated, info) (i, code)).
Proof.
  unfold validate_code. cbv zeta.
  rewrite basic_cleaned_normalize.
  set (n := normalize code).
  destruct (mem n master) eqn:Hn.
  - (* direct match *)
    apply mem_In in Hn. apply Direct_match; [exact Hn|].
    now apply clean_code_advanced_member.
  - apply mem_false in Hn.
    destruct master as [|m ms].
    { (* empty vocabulary *)
      rewrite !first_hit_nil. cbn [truthy negb andb app].
      replace (match (if (3 <? List.length n) && (1 <? List.length n)
                         && char_in (nth 1 n " "%char) ["0"%char; "O"%char]
                      then if 3 <=? List.length (firstn 1 n ++ skipn 2 n)
                           then (None, [[Zero_removed]]) else (None, [])
                      else (None, []))
               with (found_match, corrections_applied) => _ end)
        with (validated, info).
      - apply No_match; [exact Hn | apply clean_code_advanced_empty_vocabulary].
      - destruct (_ && char_in _ _); [destruct (3 <=? _)|]; reflexivity. }
    pose proof (clean_code_advanced_resolution h code (m :: ms) ltac:(discriminate)) as R.
    fold n in R.
    destruct (first_hit (m :: ms) (generate_all_ocr_variants h n)) as [v|] eqn:F1.
    + (* found among the variants of the full form *)
      destruct (hit_not_empty _ _ _ Hn F1) as (c & t & Ev).
      pose proof (first_hit_some _ _ _ F1) as [_ Hvm].
      assert (Hneq : str_eqb v n = false).
      { apply str_eqb_neq. intros E. rewrite E in Hvm. contradiction. }
      rewrite Hneq. cbn [negb].
      destruct (analyze_corrections n v) as [d|] eqn:A.
      2:{ apply (proj1 (analyze_corrections_cases n v)) in A.
          apply str_eqb_neq in Hneq. congruence. }
      subst v. cbn [truthy negb andb app].
      apply (Corrected_match _ _ _ _ _ (c :: t) [d]); try assumption; [|simpl; lia].
      destruct R as [v F | v F Hlen Hz F' | F Hnin Hno]; fold n in F;
        rewrite F1 in F; [now inversion F | discriminate F | discriminate F].
    + cbn [truthy negb andb app].
      destruct ((3 <? List.length n) && (1 <? List.length n)
                && char_in (nth 1 n " "%char) ["0"%char; "O"%char]) eqn:C.
      * assert (Clen : 3 < List.length n).
        { apply andb_true_iff in C as [C _].
          apply andb_true_iff in C as [C _]. now apply Nat.ltb_lt. }
        assert (Cz : char_in (nth 1 n " "%char) ["0"%char; "O"%char] = true).
        { apply andb_true_iff in C as [_ C]. exact C. }
        destruct (3 <=? List.length (firstn 1 n ++ skipn 2 n)) eqn:L.
        -- destruct (first_hit (m :: ms)
                       (generate_all_ocr_variants h (firstn 1 n ++ skipn 2 n)))
             as [v|] eqn:F2.
           ++ pose proof (first_hit_some _ _ _ F2) as [Hvl Hvm].
              apply generate_all_ocr_variants_length in Hvl.
              apply Nat.leb_le in L.
              destruct v as [|c t]; [rewrite <- Hvl in L; simpl in L; lia|].
              set (a := if negb (str_eqb (c :: t) (firstn 1 n ++ skipn 2 n))
                        then _ else _).
              assert (Ha : 1 <= List.length a <= 2).
              { subst a. destruct (negb _); [destruct (analyze_corrections _ _)|];
                  simpl; lia. }
              destruct a as [|a0 a']; [simpl in Ha; lia|].
              apply (Corrected_match _ _ _ _ _ (c :: t) (a0 :: a')); try assumption.
              destruct R as [v F | v F Hlen Hz F' | F Hnin Hno]; 
                try fold n in F; try fold n in F'; try fold n in Hlen;
                try fold n in Hz; try fold n in Hno.
              ** rewrite F1 in F. discriminate F.
              ** rewrite F2 in F'. now inversion F'.
              ** exfalso. now apply (Hno (c :: t)).
           ++ apply No_match; [exact Hn|].
              destruct R as [v F | v F Hlen Hz F' | F Hnin Hno]; 
                try fold n in F; try fold n in F'; try fold n in Hlen;
                try fold n in Hz; try fold n in Hno.
              ** rewrite F1 in F. discriminate F.
              ** rewrite F2 in F'. discriminate F'.
              ** reflexivity.
        -- exfalso. apply Nat.leb_gt in L.
           rewrite length_app, length_firstn, length_skipn in L. lia.
      * apply No_match; [exact Hn|].
        destruct R as [v F | v F Hlen Hz F' | F Hnin Hno]; 
                try fold n in F; try fold n in F'; try fold n in Hlen;
                try fold n in Hz; try fold n in Hno.
        -- rewrite F1 in F. discriminate F.
        -- exfalso. apply Nat.ltb_lt in Hlen. rewrite Hlen, Hz in C.
           assert (H1 : (1 <? List.length n) = true)
             by (apply Nat.ltb_lt; apply Nat.ltb_lt in Hlen; lia).
           rewrite H1 in C. discriminate C.
        -- reflexivity.
Qed.

End Validation.

Section ValidationLoop.

Import Core Spec.

Variable h : HashOrder.
Variable master : list str.

Ltac close :=
  repeat split; try assumption; try reflexivity; try (simpl; tauto); try lia.

(** What the loop has done after a number of turns. *)
Lemma validate_fold (l : list (nat * str)) (validated : list str) (info : list corr_info) :
  let st := fold_left (validate_code h master) l (validated, info) in
  (forall x, In x (fst st) <->
             In x validated
             \/ exists i code, In (i, code) l
                               /\ clean_code_advanced h code master = x /\ In x master)
  /\ (forall r, In r (snd st) ->
                In r info
                \/ exists i code applied,
                     In (i, code) l
                     /\ ~ In (normalize code) master
                     /\ In (clean_code_advanced h code master) master
                     /\ 1 <= List.length applied <= 2
                     /\ r = correction_record i code
                              (clean_code_advanced h code master) applied)
  /\ (forall r, In r info -> In r (snd st))
  /\ (forall i code, In (i, code) l ->
                     ~ In (normalize code) master ->
                     In (clean_code_advanced h code master) master ->
                     exists r, In r (snd st)
                               /\ ci_original r = strip (upper code)
                               /\ ci_corrected r = clean_code_advanced h code master).
Proof.
  revert validated info.
  induction l as [|[i code] l IH]; intros validated info; cbn [fold_left].
  - simpl. split; [intros x; split | split; [intros r Hr; now left | split]].
    + now left.
    + intros [H|(j & c & [] & _)]; exact H.
    + auto.
    + intros j c [].
  - pose proof (validate_code_step h master validated info i code) as Hstep.
    destruct (validate_code h master (validated, info) (i, code)) as [validated' info'].
    specialize (IH validated' info'). cbv zeta in IH. destruct IH as (IH1 & IH2 & IH3 & IH4).
    inversion Hstep as [Hin Hc Hv | found applied Hnin Hf Hc Ha Hv | Hnin Hc Hv];
      subst validated' info'.
    + (* direct match *)
      split; [intros x; split | split; [intros r Hr | split; [|intros j c Hjc Hn Hm]]].
      * rewrite IH1, set_add_In.
        intros [[->|H]|(j & c & Hjc & Hr)]; [right | now left | right].
        -- exists i, code. rewrite Hc. close.
        -- exists j, c. close.
      * rewrite IH1, set_add_In.
        intros [H|(j & c & [E|Hjc] & Hr & Hm)]; [left; right; assumption | |].
        -- inversion E; subst j c. left; left; congruence.
        -- right. exists j, c. close.
      * destruct (IH2 _ Hr) as [H|(j & c & a & Hjc & Hrest)]; [now left|].
        right. exists j, c, a. close.
      * exact IH3.
      * destruct Hjc as [E|Hjc].
        -- inversion E; subst j c. contradiction.
        -- now apply (IH4 j c).
    + (* corrected match *)
      split; [intros x; split | split; [intros r Hr | split; [|intros j c Hjc Hn Hm]]].
      * rewrite IH1, set_add_In.
        intros [[->|H]|(j & c & Hjc & Hr)]; [right | now left | right].
        -- exists i, code. close.
        -- exists j, c. close.
      * rewrite IH1, set_add_In.
        intros [H|(j & c & [E|Hjc] & Hr & Hm)]; [left; right; assumption | |].
        -- inversion E; subst j c. left; left; congruence.
        -- right. exists j, c. close.
      * destruct (IH2 _ Hr) as [H|(j & c & a & Hjc & Hrest)].
        -- apply in_app_iff in H as [H|[<-|[]]]; [now left|].
           right. exists i, code, applied. rewrite Hc. close.
        -- right. exists j, c, a. close.
      * intros r Hr. apply IH3, in_app_iff. now left.
      * destruct Hjc as [E|Hjc].
        -- inversion E; subst j c.
           eexists. split; [apply IH3, in_app_iff; right; left; reflexivity|].
           rewrite Hc. split; reflexivity.
        -- now apply (IH4 j c).
    + (* no match *)
      split; [intros x; split | split; [intros r Hr | split; [|intros j c Hjc Hn Hm]]].
      * rewrite IH1. intros [H|(j & c & Hjc & Hr)]; [now left|].
        right. exists j, c. close.
      * rewrite IH1. intros [H|(j & c & [E|Hjc] & Hr & Hm)]; [now left | |].
        -- inversion E; subst j c. rewrite Hc in Hr. subst x. contradiction.
        -- right. exists j, c. close.
      * destruct (IH2 _ Hr) as [H|(j & c & a & Hjc & Hrest)]; [now left|].
        right. exists j, c, a. close.
      * exact IH3.
      * destruct Hjc as [E|Hjc].
        -- inversion E; subst j c. rewrite Hc in Hm. contradiction.
        -- now apply (IH4 j c).
Qed.

Lemma enumerate_In (A : Type) (l : list A) (x : A) :
  In x l <-> exists i, In (i, x) (OCRCorrector.enumerate l).
Proof.
  unfold OCRCorrector.enumerate. split.
  - generalize 0 as k. induction l as [|y l IH]; intros k Hx; [destruct Hx|].
    simpl. destruct Hx as [->|Hx].
    + exists k. now left.
    + destruct (IH (S k) Hx) as [i Hi]. exists i. now right.
  - intros [i Hi]. now apply in_combine_r in Hi.
Qed.

End ValidationLoop.

(** X8: the validation loop of [extract_codes] and the resolver agree: a
    code is validated for a document exactly when it is a vocabulary member
    and [clean_code_advanced] returns it for one of the raw codes of the
    document.  In particular every validated code is a vocabulary member. *)
Theorem validate_codes_resolver
    (h : HashOrder) (raw_codes master_codes_set : list str) (x : str) :
  In x (fst (Core.validate_codes h raw_codes master_codes_set)) <->
  In x master_codes_set
  /\ exists code, In code raw_codes
                  /\ Core.clean_code_advanced h code master_codes_set = x.
Proof.
  unfold Core.validate_codes.
  destruct (validate_fold h master_codes_set (OCRCorrector.enumerate raw_codes) [] [])
    as (H1 & _).
  rewrite H1. split.
  - intros [[]|(i & code & Hi & Hc & Hm)]. split; [assumption|].
    exists code. split; [|assumption]. apply enumerate_In. now exists i.
  - intros (Hm & code & Hcode & Hc). right.
    apply enumerate_In in Hcode as [i Hi]. exists i, code. auto.
Qed.

(** X9: every correction record written by [extract_codes] belongs to a raw
    code whose normalized form is not in the vocabulary; its corrected code
    is the vocabulary member that the resolver returns for that raw code, the
    code is among the validated codes, and the record counts one or two
    corrections. *)
Theorem correction_records_sound
    (h : HashOrder) (raw_codes master_codes_set : list str) (r : Core.corr_info) :
  In r (snd (Core.validate_codes h raw_codes master_codes_set)) ->
  exists code,
    In code raw_codes
    /\ Core.ci_original r = strip (upper code)
    /\ ~ In (Spec.normalize code) master_codes_set
    /\ Core.ci_corrected r = Core.clean_code_advanced h code master_codes_set
    /\ In (Core.ci_corrected r) master_codes_set
    /\ In (Core.ci_corrected r) (fst (Core.validate_codes h raw_codes master_codes_set))
    /\ 1 <= Core.ci_corrections_count r <= 2
    /\ Core.ci_corrections_count r = List.length (Core.ci_corrections_applied r).
Proof.
  unfold Core.validate_codes. intros Hr.
  destruct (validate_fold h master_codes_set (OCRCorrector.enumerate raw_codes) [] [])
    as (H1 & H2 & _).
  destruct (H2 r Hr) as [[]|(i & code & applied & Hi & Hn & Hm & Ha & ->)].
  exists code. cbn [Core.ci_original Core.ci_corrected Core.ci_corrections_count
                    Core.ci_corrections_applied correction_record].
  repeat split; auto; try lia.
  - apply enumerate_In. now exists i.
  - apply H1. right. exists i, code. auto.
Qed.

Lemma correction_records_sound_witness :
  exists code,
    In code [lit "P08"; lit "A1X"]
    /\ ~ In (Spec.normalize code) [lit "P0B"; lit "A1X"]
    /\ lit "P0B" = Core.clean_code_advanced insertion_order code [lit "P0B"; lit "A1X"].
Proof.
  destruct (correction_records_sound insertion_order [lit "P08"; lit "A1X"]
              [lit "P0B"; lit "A1X"]
              {| Core.ci_original := lit "P08"; Core.ci_corrected := lit "P0B";
                 Core.ci_page := 1%Z; Core.ci_position := 0%Z;
                 Core.ci_corrections_applied := [[Core.Substituted "8" "B"]];
                 Core.ci_corrections_count := 1 |})
    as (code & Hc & _ & Hn & He & _).
  - vm_compute. left. reflexivity.
  - exists code. auto.
Defined.

(** X10: every match that [extract_codes] finds through a correction is
    documented: a raw code that the resolver maps to a vocabulary member,
    while its normalized form is no member, has a correction record with this
    raw code (upper-cased and trimmed) as original and the member as
    corrected code. *)
Theorem corrected_matches_recorded
    (h : HashOrder) (raw_codes master_codes_set : list str) (code : str) :
  In code raw_codes ->
  ~ In (Spec.normalize code) master_codes_set ->
  In (Core.clean_code_advanced h code master_codes_set) master_codes_set ->
  exists r,
    In r (snd (Core.validate_codes h raw_codes master_codes_set))
    /\ Core.ci_original r = strip (upper code)
    /\ Core.ci_corrected r = Core.clean_code_advanced h code master_codes_set.
Proof.
  unfold Core.validate_codes. intros Hcode Hn Hm.
  destruct (validate_fold h master_codes_set (OCRCorrector.enumerate raw_codes) [] [])
    as (_ & _ & _ & H4).
  apply enumerate_In in Hcode as [i Hi].
  now apply (H4 i code).
Qed.

Lemma corrected_matches_recorded_witness :
  exists r,
    In r (snd (Core.validate_codes insertion_order [lit "P08"; lit "A1X"]
                 [lit "P0B"; lit "A1X"]))
    /\ Core.ci_corrected r
       = Core.clean_code_advanced insertion_order (lit "P08") [lit "P0B"; lit "A1X"].
Proof.
  destruct (corrected_matches_recorded insertion_order [lit "P08"; lit "A1X"]
              [lit "P0B"; lit "A1X"] (lit "P08")) as (r & Hr & _ & Hc).
  - now left.
  - vm_compute. intros [H|[H|[]]]; discriminate H.
  - vm_compute. left. reflexivity.
  - exists r. auto.
Defined.

(* ================================================================== *)
(** * The operation count as a distance *)
(* ================================================================== *)

Section OperationCountFacts.

Import Core Spec.

Lemma count_corrections_needed_forms (original corrected : str) :
  count_corrections_needed original corrected
  = operation_count (strip (upper original)) (strip (upper corrected)).
Proof.
  unfold count_corrections_needed.
  destruct (str_eqb original corrected) eqn:E.
  - apply str_eqb_eq in E. subst. now rewrite operation_count_refl.
  - now rewrite substitution_loop_mismatches.
Qed.

Lemma positional_mismatches_sym (a b : str) :
  positional_mismatches a b = positional_mismatches b a.
Proof.
  unfold positional_mismatches. revert b.
  induction a as [|x a IH]; intros [|y b]; simpl; try reflexivity.
  rewrite (Ascii.eqb_sym x y). destruct (Ascii.eqb y x); simpl; now rewrite IH.
Qed.

Lemma positional_mismatches_bound (a b : str) :
  positional_mismatches a b <= Nat.min (List.length a) (List.length b).
Proof.
  unfold positional_mismatches. revert b.
  induction a as [|x a IH]; intros [|y b]; simpl; try lia.
  specialize (IH b). destruct (Ascii.eqb x y); simpl; lia.
Qed.

Lemma positional_mismatches_zero (a b : str) :
  List.length a = List.length b -> positional_mismatches a b = 0 -> a = b.
Proof.
  unfold positional_mismatches. revert b.
  induction a as [|x a IH]; intros [|y b]; simpl; try discriminate; [reflexivity|].
  intros Hl. destruct (Ascii.eqb x y) eqn:E; simpl; [|discriminate].
  intros H. apply Ascii.eqb_eq in E. subst. f_equal. apply IH; [lia | assumption].
Qed.

End OperationCountFacts.

(** X11: [count_corrections_needed] behaves as a distance between the
    compared forms (upper-cased and trimmed): it does not depend on the order
    of its arguments, it lies between 0 and the length of the longer form,
    and it is 0 only if the two forms are equal. *)
Theorem count_corrections_needed_distance (original corrected : str) :
  Core.count_corrections_needed original corrected
  = Core.count_corrections_needed corrected original
  /\ (0 <= Core.count_corrections_needed original corrected
      <= Z.of_nat (Nat.max (List.length (strip (upper original)))
                           (List.length (strip (upper corrected)))))%Z
  /\ (Core.count_corrections_needed original corrected = 0%Z <->
      strip (upper original) = strip (upper corrected)).
Proof.
  rewrite !count_corrections_needed_forms. unfold Spec.operation_count.
  set (a := strip (upper original)). set (b := strip (upper corrected)).
  pose proof (positional_mismatches_bound a b) as Hb.
  split; [|split].
  - rewrite (positional_mismatches_sym a b). lia.
  - lia.
  - split.
    + intros H. apply positional_mismatches_zero; lia.
    + intros ->. rewrite positional_mismatches_refl. lia.
Qed.

(* ================================================================== *)
(** * What correction discovery does to the sets *)
(* ================================================================== *)

Section DiscoverySteps.

Import CodeFilters Core.

Variable h : HashOrder.

(** The overall sets of a comparison, by membership. *)
Lemma compare_sets_overall (codes_pdf1 codes_pdf2 : list str) (x : str) :
  (In x (in_both (overall (compare_sets codes_pdf1 codes_pdf2)))
   <-> In x codes_pdf1 /\ In x codes_pdf2)
  /\ (In x (only_in_pdf1 (overall (compare_sets codes_pdf1 codes_pdf2)))
      <-> In x codes_pdf1 /\ ~ In x codes_pdf2)
  /\ (In x (only_in_pdf2 (overall (compare_sets codes_pdf1 codes_pdf2)))
      <-> In x codes_pdf2 /\ ~ In x codes_pdf1).
Proof.
  unfold compare_sets, categorize_codes_by_type.
  cbn [overall in_both only_in_pdf1 only_in_pdf2 normal control].
  rewrite !union_In, !intersection_In, !difference_In, !filter_In, !negb_true_iff.
  destruct (is_control_code x); intuition congruence.
Qed.

Variables (codes_pdf1 codes_pdf2 : list str).
Variables (correction_info_pdf1 correction_info_pdf2 : list corr_info).

(** A property of the loop state that every kind of turn of the three
    discovery passes preserves holds when the passes are done. *)
Lemma discovery_induction (P : state -> Prop)
      (raw_codes_pdf1 raw_codes_pdf2 : list raw_code) (master lines : list str) :
  P ([], codes_pdf1) ->
  (forall all s e info,
      In info correction_info_pdf1 ->
      c_type e = Erweiterte_OCR_Korrektur -> c_corrected e = ci_corrected info ->
      in_unit_interval (c_probability e) ->
      P (all, s) -> P (all ++ [e], set_add (ci_corrected info) s)) ->
  (forall all s e info,
      In info correction_info_pdf2 ->
      c_type e = Erweiterte_OCR_Korrektur -> c_corrected e = ci_corrected info ->
      in_unit_interval (c_probability e) ->
      P (all, s) -> P (all ++ [e], s)) ->
  (forall all s e,
      c_type e = Korrekturmatch -> passes_gate e ->
      in_unit_interval (c_probability e) ->
      In (c_corrected e) codes_pdf2 ->
      P (all, s) -> P (all ++ [e], set_add (c_corrected e) s)) ->
  P (discover_corrections h codes_pdf1 codes_pdf2 raw_codes_pdf1 raw_codes_pdf2
                          master lines correction_info_pdf1 correction_info_pdf2).
Proof.
  intros Hinit Hres1 Hres2 Hadmit. unfold discover_corrections.
  unfold add_substitution_corrections.
  apply fold_left_invariant.
  { intros st target Htarget. apply fold_left_invariant.
    intros [all s] raw _ HP.
    destruct (mem _ _ && negb (mem _ master)); [|assumption].
    destruct (calculate_precise_probability target _ _ _ _ _) as [p d] eqn:Ep.
    destruct (PrimFloat.leb 0.6%float p) eqn:Hg; [|assumption].
    match goal with
    | |- P (_ ++ [?e], _) => apply (Hadmit all s e); try assumption; try reflexivity
    end.
    - cbn [c_probability]. replace p with (fst (p, d)) by reflexivity.
      rewrite <- Ep. apply scorer_in_unit_interval.
    - cbn [c_corrected]. now apply (compare_sets_overall codes_pdf1 codes_pdf2 target). }
  unfold add_whitespace_corrections.
  apply fold_left_invariant.
  { intros [all s] combo _ HP.
    destruct (mem _ master && mem _ codes_pdf2) eqn:Hm; [|assumption].
    apply andb_true_iff in Hm as [_ Hm2]. apply mem_In in Hm2.
    destruct (calculate_precise_probability _ _ _ _ _ _) as [p d] eqn:Ep.
    assert (Hp : in_unit_interval p).
    { replace p with (fst (p, d)) by reflexivity.
      rewrite <- Ep. apply scorer_in_unit_interval. }
    match goal with
    | |- context [PrimFloat.leb 0.6%float ?q] =>
        assert (Hq : in_unit_interval q)
          by (destruct (0 <? List.length (substitutions combo));
              [apply clamp_from_tenth_in_unit_interval | exact Hp]);
        destruct (PrimFloat.leb 0.6%float q) eqn:Hg; [|assumption]
    end.
    match goal with
    | |- P (_ ++ [?e], _) => apply (Hadmit all s e); try assumption; reflexivity
    end. }
  unfold add_resolver_corrections_pdf2.
  apply fold_left_invariant.
  { intros [all s] info Hinfo HP.
    destruct (calculate_precise_probability _ _ _ _ _ _) as [p d] eqn:Ep.
    match goal with
    | |- P (_ ++ [?e], _) => apply (Hres2 all s e info); try assumption; try reflexivity
    end.
    cbn [c_probability]. replace p with (fst (p, d)) by reflexivity.
    rewrite <- Ep. apply scorer_in_unit_interval. }
  unfold add_resolver_corrections_pdf1.
  apply fold_left_invariant; [|exact Hinit].
  intros [all s] info Hinfo HP.
  destruct (calculate_precise_probability _ _ _ _ _ _) as [p d] eqn:Ep.
  match goal with
  | |- P (_ ++ [?e], _) => apply (Hres1 all s e info); try assumption; try reflexivity
  end.
  cbn [c_probability]. replace p with (fst (p, d)) by reflexivity.
  rewrite <- Ep. apply scorer_in_unit_interval.
Qed.

End DiscoverySteps.

Section DirectMatches.

Import CodeFilters Core.

(** The codes for which a resolver record counts at least one correction:
    the set [codes_with_corrections]. *)
Lemma codes_with_corrections_In (infos : list corr_info) (acc : list str) (code : str) :
  In code
     (fold_left (fun acc info =>
                   if 0 <? ci_corrections_count info
                   then set_add (ci_corrected info) acc else acc)
                infos acc)
  <-> In code acc
      \/ exists info, In info infos /\ 0 < ci_corrections_count info
                      /\ ci_corrected info = code.
Proof.
  revert acc. induction infos as [|info infos IH]; intros acc; simpl.
  - split; [now left | intros [H|(i & [] & _)]; exact H].
  - rewrite IH. destruct (0 <? ci_corrections_count info) eqn:E.
    + apply Nat.ltb_lt in E. rewrite set_add_In. split.
      * intros [[->|H]|(i & Hi & Hr)]; [right | now left | right].
        -- exists info. auto.
        -- exists i. tauto.
      * intros [H|(i & [<-|Hi] & Hc & Hr)]; [left; now right | left; left; now subst | right].
        exists i. auto.
    + apply Nat.ltb_ge in E. split.
      * intros [H|(i & Hi & Hr)]; [now left | right]. exists i. tauto.
      * intros [H|(i & [<-|Hi] & Hc & Hr)]; [now left | lia | right].
        exists i. auto.
Qed.

(** The entry written for a direct match. *)
Definition direct_match_entry (v1 v2 : list str) (code : str) : correction :=
  {| c_original := code; c_corrected := code;
     c_probability :=
       fst (calculate_precise_probability code 0 0
              (get_validated_context_codes v1 code 1)
              (get_validated_context_codes v2 code 1) true);
     c_type := Direkter_Match |}.

(** The classification loop keeps the entries found so far and appends the
    entry of every code without a counted correction. *)
Lemma add_direct_matches_In (codes v1 v2 : list str) (ci1 ci2 : list corr_info)
      (all : list correction) (e : correction) :
  In e (add_direct_matches codes v1 v2 ci1 ci2 all) <->
  In e all
  \/ exists code,
       In code codes
       /\ ~ (exists info, In info (ci1 ++ ci2) /\ 0 < ci_corrections_count info
                          /\ ci_corrected info = code)
       /\ e = direct_match_entry v1 v2 code.
Proof.
  unfold add_direct_matches.
  set (cwc := fold_left _ (ci1 ++ ci2) []).
  assert (Hcwc : forall code, mem code cwc = true <->
                              exists info, In info (ci1 ++ ci2)
                                           /\ 0 < ci_corrections_count info
                                           /\ ci_corrected info = code).
  { intros code. rewrite mem_In. subst cwc. rewrite codes_with_corrections_In.
    split; [intros [[]|H]; exact H | now right]. }
  rewrite (fold_left_append _ _
             (fun code => if mem code cwc then [] else [direct_match_entry v1 v2 code])).
  - rewrite in_app_iff, in_flat_map. split.
    + intros [H|(code & Hcode & H)]; [now left | right].
      destruct (mem code cwc) eqn:E; [destruct H|].
      destruct H as [<-|[]]. exists code. split; [assumption|]. split; [|reflexivity].
      intros Hex. apply Hcwc in Hex. congruence.
    + intros [H|(code & Hcode & Hno & ->)]; [now left | right].
      exists code. split; [assumption|].
      destruct (mem code cwc) eqn:E; [apply Hcwc in E; contradiction | now left].
  - intros a code. destruct (mem code cwc); [now rewrite app_nil_r|].
    unfold direct_match_entry.
    destruct (calculate_precise_probability code 0 0 _ _ true) as [p d]. reflexivity.
Qed.

(** A slice is not longer than the distance of its bounds. *)
Lemma slice_length (A : Type) (l : list A) (a b : Z) :
  (0 <= a)%Z -> (0 <= b)%Z -> List.length (slice l a b) <= Z.to_nat (b - a).
Proof.
  intros Ha Hb. unfold slice, slice_bound. rewrite length_firstn.
  destruct (a <? 0)%Z eqn:E; [apply Z.ltb_lt in E; lia|].
  destruct (b <? 0)%Z eqn:E'; [apply Z.ltb_lt in E'; lia|].
  lia.
Qed.

(** A window of size [k >= 0] holds at most [k] codes on either side. *)
Lemma context_window_length (l : list str) (target : str) (k : Z) :
  (0 <= k)%Z ->
  List.length (before (get_validated_context_codes l target k)) <= Z.to_nat k
  /\ List.length (after (get_validated_context_codes l target k)) <= Z.to_nat k.
Proof.
  intros Hk. unfold get_validated_context_codes.
  destruct (index target l) as [i|]; cbn [before after]; [|simpl; lia].
  split.
  - etransitivity; [apply slice_length; lia | lia].
  - etransitivity; [apply slice_length; lia | lia].
Qed.

(** The four scores of a match without corrections whose windows hold at most
    one code on either side. *)
Lemma direct_score (code : str) (w1 w2 : context) :
  List.length (before w1) <= 1 -> List.length (after w1) <= 1 ->
  List.length (before w2) <= 1 -> List.length (after w2) <= 1 ->
  In (fst (calculate_precise_probability code 0 0 w1 w2 true))
     [0.8%float; 0.88%float; 0.9%float; 0.98%float].
Proof.
  destruct w1 as [b1 a1], w2 as [b2 a2]. cbn [before after].
  intros Hb1 Ha1 Hb2 Ha2.
  destruct b1 as [|x1 [|]]; [| |simpl in Hb1; lia];
  destruct a1 as [|y1 [|]]; try (simpl in Ha1; lia);
  destruct b2 as [|x2 [|]]; try (simpl in Hb2; lia);
  destruct a2 as [|y2 [|]]; try (simpl in Ha2; lia);
  unfold calculate_precise_probability; cbn [before after rev app List.length Nat.min
    Z.add Z.eqb context_loop seq fold_left nth fst];
  try destruct (str_eqb x1 x2); try destruct (str_eqb y1 y2);
  vm_compute; tauto.
Qed.

End DirectMatches.
Section EngineFacts.

Import CodeFilters Core.

Variable h : HashOrder.
Variables (codes_pdf1 codes_pdf2 : list str).
Variables (raw_codes_pdf1 raw_codes_pdf2 : list raw_code).
Variables (master_codes_set all_text_lines_pdf1 : list str).
Variables (correction_info_pdf1 correction_info_pdf2 : list corr_info).

Let final : state :=
  discover_corrections h codes_pdf1 codes_pdf2 raw_codes_pdf1 raw_codes_pdf2
                       master_codes_set all_text_lines_pdf1
                       correction_info_pdf1 correction_info_pdf2.

(** Where the codes of document 1's corrected set come from, what the
    recorded corrections look like. *)
Lemma discovery_facts :
  (forall c, In c codes_pdf1 -> In c (snd final))
  /\ (forall c, In c (snd final) ->
                In c codes_pdf1 \/ In c (map ci_corrected correction_info_pdf1)
                \/ In c codes_pdf2)
  /\ (forall e, In e (fst final) ->
                in_unit_interval (c_probability e)
                /\ c_type e <> Direkter_Match
                /\ (c_type e = Korrekturmatch ->
                    passes_gate e /\ In (c_corrected e) (snd final)
                    /\ In (c_corrected e) codes_pdf2)
                /\ (c_type e = Erweiterte_OCR_Korrektur ->
                    In (c_corrected e)
                       (map ci_corrected (correction_info_pdf1 ++ correction_info_pdf2)))).
Proof.
  subst final.
  apply (discovery_induction h codes_pdf1 codes_pdf2
           correction_info_pdf1 correction_info_pdf2
           (fun st =>
              (forall c, In c codes_pdf1 -> In c (snd st))
              /\ (forall c, In c (snd st) ->
                            In c codes_pdf1
                            \/ In c (map ci_corrected correction_info_pdf1)
                            \/ In c codes_pdf2)
              /\ (forall e, In e (fst st) ->
                    in_unit_interval (c_probability e)
                    /\ c_type e <> Direkter_Match
                    /\ (c_type e = Korrekturmatch ->
                        passes_gate e /\ In (c_corrected e) (snd st)
                        /\ In (c_corrected e) codes_pdf2)
                    /\ (c_type e = Erweiterte_OCR_Korrektur ->
                        In (c_corrected e)
                           (map ci_corrected
                                (correction_info_pdf1 ++ correction_info_pdf2)))))).
  - cbn [fst snd]. split; [auto | split; [auto | intros e []]].
  - intros all s e info Hinfo Ht Hc Hp (H1 & H2 & H3). cbn [fst snd] in *.
    split; [|split].
    + intros c Hin. apply set_add_In. right. auto.
    + intros c Hin. apply set_add_In in Hin as [->|Hin]; [|auto].
      right; left. now apply in_map.
    + intros e' He'. apply in_app_iff in He' as [He'|[<-|[]]].
      * destruct (H3 e' He') as (A & B & C & D).
        split; [assumption | split; [assumption | split; [|assumption]]].
        intros Hk. destruct (C Hk) as (C1 & C2 & C3).
        split; [assumption | split; [|assumption]]. apply set_add_In. now right.
      * split; [assumption | split; [congruence | split; [congruence|]]].
        intros _. rewrite Hc. apply in_map, in_app_iff. now left.
  - intros all s e info Hinfo Ht Hc Hp (H1 & H2 & H3). cbn [fst snd] in *.
    split; [assumption | split; [assumption|]].
    intros e' He'. apply in_app_iff in He' as [He'|[<-|[]]]; [now apply H3|].
    split; [assumption | split; [congruence | split; [congruence|]]].
    intros _. rewrite Hc. apply in_map, in_app_iff. now right.
  - intros all s e Ht Hg Hp Hc (H1 & H2 & H3). cbn [fst snd] in *.
    split; [|split].
    + intros c Hin. apply set_add_In. right. auto.
    + intros c Hin. apply set_add_In in Hin as [->|Hin]; auto.
    + intros e' He'. apply in_app_iff in He' as [He'|[<-|[]]].
      * destruct (H3 e' He') as (A & B & C & D).
        split; [assumption | split; [assumption | split; [|assumption]]].
        intros Hk. destruct (C Hk) as (C1 & C2 & C3).
        split; [assumption | split; [|assumption]]. apply set_add_In. now right.
      * split; [assumption | split; [congruence | split; [|congruence]]].
        intros _. split; [assumption | split; [|assumption]].
        apply set_add_In. now left.
Qed.

End EngineFacts.

Section EngineExtras.

Import CodeFilters Core.

(** X12: every probability in the list returned by
    [compare_codes_with_correction] lies between 0 and 1, also after the
    bonus and penalty applied to merged fragments with a substitution. *)
Theorem reported_probabilities_range
    (h : HashOrder) (codes_pdf1 codes_pdf2 : list str)
    (raw_codes_pdf1 raw_codes_pdf2 : list raw_code)
    (master_codes_set all_text_lines_pdf1 : list str)
    (correction_info_pdf1 correction_info_pdf2 : list corr_info) (e : correction) :
  In e (corrections
          (compare_codes_with_correction h codes_pdf1 codes_pdf2
             raw_codes_pdf1 raw_codes_pdf2 master_codes_set all_text_lines_pdf1
             correction_info_pdf1 correction_info_pdf2)) ->
  in_unit_interval (c_probability e).
Proof.
  unfold compare_codes_with_correction.
  pose proof (discovery_facts h codes_pdf1 codes_pdf2 raw_codes_pdf1 raw_codes_pdf2
                master_codes_set all_text_lines_pdf1
                correction_info_pdf1 correction_info_pdf2) as (_ & _ & H3).
  destruct (discover_corrections _ _ _ _ _ _ _ _ _) as [all s].
  cbn [corrections fst snd] in *.
  intros He. apply add_direct_matches_In in He as [He|(code & _ & _ & ->)].
  - now apply H3.
  - apply scorer_in_unit_interval.
Qed.

Lemma reported_probabilities_range_witness :
  let e := {| c_original := lit "888"; c_corrected := lit "BBB";
              c_probability := 0.5%float; c_type := Erweiterte_OCR_Korrektur |} in
  let r := compare_codes_with_correction insertion_order [lit "BBB"] [lit "BBB"]
             [(lit "888", 1%Z, 0%Z)] [(lit "BBB", 1%Z, 0%Z)] [lit "BBB"] []
             [{| ci_original := lit "888"; ci_corrected := lit "BBB"; ci_page := 1%Z;
                 ci_position := 0%Z;
                 ci_corrections_applied := [[Substituted "8" "B"]];
                 ci_corrections_count := 1 |}] [] in
  In e (corrections r) /\ in_unit_interval (c_probability e).
Proof.
  intros e r.
  assert (Hin : In e (corrections r)) by (vm_compute; left; reflexivity).
  split; [exact Hin|].
  exact (reported_probabilities_range insertion_order [lit "BBB"] [lit "BBB"]
           [(lit "888", 1%Z, 0%Z)] [(lit "BBB", 1%Z, 0%Z)] [lit "BBB"] []
           [{| ci_original := lit "888"; ci_corrected := lit "BBB"; ci_page := 1%Z;
               ci_position := 0%Z;
               ci_corrections_applied := [[Substituted "8" "B"]];
               ci_corrections_count := 1 |}] [] e Hin).
Defined.

(** X13: correction discovery only moves codes of document 2 from "only in
    2" to "in both": after correction every code of document 2 is still in
    exactly these two sets, "in both" has lost nothing, "only in 2" has gained
    nothing, and a code that is "only in 1" after correction was validated
    for document 1 or is the corrected code of one of its resolver records. *)
Theorem correction_moves_codes_of_document_2
    (h : HashOrder) (codes_pdf1 codes_pdf2 : list str)
    (raw_codes_pdf1 raw_codes_pdf2 : list raw_code)
    (master_codes_set all_text_lines_pdf1 : list str)
    (correction_info_pdf1 correction_info_pdf2 : list corr_info) (x : str) :
  let r := compare_codes_with_correction h codes_pdf1 codes_pdf2
             raw_codes_pdf1 raw_codes_pdf2 master_codes_set all_text_lines_pdf1
             correction_info_pdf1 correction_info_pdf2 in
  (In x codes_pdf2 <->
   In x (in_both (overall (corrected r))) \/ In x (only_in_pdf2 (overall (corrected r))))
  /\ ~ (In x (in_both (overall (corrected r)))
        /\ In x (only_in_pdf2 (overall (corrected r))))
  /\ (In x (in_both (overall (original r))) -> In x (in_both (overall (corrected r))))
  /\ (In x (only_in_pdf2 (overall (corrected r))) ->
      In x (only_in_pdf2 (overall (original r))))
  /\ (In x (only_in_pdf1 (overall (corrected r))) ->
      (In x codes_pdf1 \/ In x (map ci_corrected correction_info_pdf1))
      /\ ~ In x codes_pdf2).
Proof.
  intros r. subst r. unfold compare_codes_with_correction.
  pose proof (discovery_facts h codes_pdf1 codes_pdf2 raw_codes_pdf1 raw_codes_pdf2
                master_codes_set all_text_lines_pdf1
                correction_info_pdf1 correction_info_pdf2) as (H1 & H2 & _).
  destruct (discover_corrections _ _ _ _ _ _ _ _ _) as [all s].
  cbn [corrected original fst snd] in *.
  destruct (compare_sets_overall codes_pdf1 codes_pdf2 x) as (B & O1 & O2).
  destruct (compare_sets_overall s codes_pdf2 x) as (B' & O1' & O2').
  rewrite B, O2, B', O2', O1'.
  specialize (H1 x). specialize (H2 x).
  destruct (In_decidable x s); tauto.
Qed.

Lemma correction_moves_codes_of_document_2_witness :
  let r := compare_codes_with_correction insertion_order
             [lit "A1X"] [lit "A1X"; lit "ELW"]
             [(lit "A1X", 1%Z, 0%Z); (lit "FLW", 1%Z, 1%Z)]
             [(lit "A1X", 1%Z, 0%Z); (lit "ELW", 1%Z, 1%Z)]
             [lit "A1X"; lit "ELW"] [] [] [] in
  In (lit "A1X") (in_both (overall (corrected r))).
Proof.
  intros r.
  destruct (correction_moves_codes_of_document_2 insertion_order
              [lit "A1X"] [lit "A1X"; lit "ELW"]
              [(lit "A1X", 1%Z, 0%Z); (lit "FLW", 1%Z, 1%Z)]
              [(lit "A1X", 1%Z, 0%Z); (lit "ELW", 1%Z, 1%Z)]
              [lit "A1X"; lit "ELW"] [] [] [] (lit "A1X")) as (_ & _ & H & _).
  apply H. vm_compute. left. reflexivity.
Defined.

(** X14: a correction of type Korrekturmatch always turns its code into a
    match: the corrected code is a code of document 2 and is reported "in
    both" after correction. *)
Theorem korrekturmatch_is_in_both
    (h : HashOrder) (codes_pdf1 codes_pdf2 : list str)
    (raw_codes_pdf1 raw_codes_pdf2 : list raw_code)
    (master_codes_set all_text_lines_pdf1 : list str)
    (correction_info_pdf1 correction_info_pdf2 : list corr_info) (e : correction) :
  let r := compare_codes_with_correction h codes_pdf1 codes_pdf2
             raw_codes_pdf1 raw_codes_pdf2 master_codes_set all_text_lines_pdf1
             correction_info_pdf1 correction_info_pdf2 in
  In e (corrections r) -> c_type e = Korrekturmatch ->
  In (c_corrected e) codes_pdf2
  /\ In (c_corrected e) (in_both (overall (corrected r))).
Proof.
  intros r. subst r. unfold compare_codes_with_correction.
  pose proof (discovery_facts h codes_pdf1 codes_pdf2 raw_codes_pdf1 raw_codes_pdf2
                master_codes_set all_text_lines_pdf1
                correction_info_pdf1 correction_info_pdf2) as (_ & _ & H3).
  destruct (discover_corrections _ _ _ _ _ _ _ _ _) as [all s].
  cbn [corrected corrections fst snd] in *.
  intros He Ht. apply add_direct_matches_In in He as [He|(code & _ & _ & ->)];
    [|discriminate Ht].
  destruct (H3 e He) as (_ & _ & Hk & _). destruct (Hk Ht) as (_ & Hs & H2).
  split; [assumption|]. now apply compare_sets_overall.
Qed.

Lemma korrekturmatch_is_in_both_witness :
  let r := compare_codes_with_correction insertion_order
             [lit "A1X"] [lit "A1X"; lit "ELW"]
             [(lit "A1X", 1%Z, 0%Z); (lit "FLW", 1%Z, 1%Z)]
             [(lit "A1X", 1%Z, 0%Z); (lit "ELW", 1%Z, 1%Z)]
             [lit "A1X"; lit "ELW"] [] [] [] in
  In (lit "ELW") (in_both (overall (corrected r))).
Proof.
  intros r.
  destruct (korrekturmatch_is_in_both insertion_order
              [lit "A1X"] [lit "A1X"; lit "ELW"]
              [(lit "A1X", 1%Z, 0%Z); (lit "FLW", 1%Z, 1%Z)]
              [(lit "A1X", 1%Z, 0%Z); (lit "ELW", 1%Z, 1%Z)]
              [lit "A1X"; lit "ELW"] [] [] []
              {| c_original := lit "FLW"; c_corrected := lit "ELW";
                 c_probability := 0.70000000000000007%float;
                 c_type := Korrekturmatch |}) as [_ H].
  - vm_compute. left. reflexivity.
  - reflexivity.
  - exact H.
Defined.

(** X15: the baseline matches are all accounted for in the list of
    corrections: a code that is "in both" before correction has an entry of
    type Direkter Match, unless a resolver record of either document counts a
    correction for it; the entry repeats the code as original and corrected
    form and carries one of the scores 0.80, 0.88, 0.90 and 0.98 (the base
    plus the bonus of one agreeing neighbour before and after). *)
Theorem direct_matches_classified
    (h : HashOrder) (codes_pdf1 codes_pdf2 : list str)
    (raw_codes_pdf1 raw_codes_pdf2 : list raw_code)
    (master_codes_set all_text_lines_pdf1 : list str)
    (correction_info_pdf1 correction_info_pdf2 : list corr_info) :
  let r := compare_codes_with_correction h codes_pdf1 codes_pdf2
             raw_codes_pdf1 raw_codes_pdf2 master_codes_set all_text_lines_pdf1
             correction_info_pdf1 correction_info_pdf2 in
  (forall code,
      In code (in_both (overall (original r))) ->
      (exists info, In info (correction_info_pdf1 ++ correction_info_pdf2)
                    /\ 0 < ci_corrections_count info /\ ci_corrected info = code)
      \/ (exists e, In e (corrections r) /\ c_type e = Direkter_Match
                    /\ c_corrected e = code))
  /\ (forall e,
         In e (corrections r) -> c_type e = Direkter_Match ->
         c_original e = c_corrected e
         /\ In (c_corrected e) (in_both (overall (original r)))
         /\ ~ (exists info, In info (correction_info_pdf1 ++ correction_info_pdf2)
                            /\ 0 < ci_corrections_count info
                            /\ ci_corrected info = c_corrected e)
         /\ In (c_probability e) [0.8%float; 0.88%float; 0.9%float; 0.98%float]).
Proof.
  intros r. subst r. unfold compare_codes_with_correction.
  pose proof (discovery_facts h codes_pdf1 codes_pdf2 raw_codes_pdf1 raw_codes_pdf2
                master_codes_set all_text_lines_pdf1
                correction_info_pdf1 correction_info_pdf2) as (_ & _ & H3).
  destruct (discover_corrections _ _ _ _ _ _ _ _ _) as [all s].
  cbn [original corrections fst snd] in *.
  split.
  - intros code Hcode.
    set (cwc := fold_left
                  (fun acc info => if 0 <? ci_corrections_count info
                                   then set_add (ci_corrected info) acc else acc)
                  (correction_info_pdf1 ++ correction_info_pdf2) []).
    destruct (mem code cwc) eqn:E.
    + left. apply mem_In in E. subst cwc.
      apply codes_with_corrections_In in E as [[]|E]. exact E.
    + right.
      exists (direct_match_entry (all_validated h raw_codes_pdf1 master_codes_set)
                                 (all_validated h raw_codes_pdf2 master_codes_set) code).
      split; [|split; reflexivity].
      apply add_direct_matches_In. right. exists code.
      split; [assumption|]. split; [|reflexivity].
      intros Hex. apply mem_false in E. apply E. subst cwc.
      apply codes_with_corrections_In. now right.
  - intros e He Ht.
    apply add_direct_matches_In in He as [He|(code & Hcode & Hno & ->)].
    + destruct (H3 e He) as (_ & Hn & _). contradiction.
    + cbn [c_original c_corrected c_probability direct_match_entry].
      repeat split; try assumption.
      apply direct_score;
        apply (context_window_length _ code 1); lia.
Qed.

Lemma direct_matches_classified_witness :
  let e := {| c_original := lit "A1X"; c_corrected := lit "A1X";
              c_probability := 0.88%float; c_type := Direkter_Match |} in
  let r := compare_codes_with_correction insertion_order
             [lit "A1X"; lit "B2Y"] [lit "A1X"; lit "B2Y"]
             [(lit "A1X", 1%Z, 0%Z); (lit "B2Y", 1%Z, 1%Z)]
             [(lit "A1X", 1%Z, 0%Z); (lit "B2Y", 1%Z, 1%Z)]
             [lit "A1X"; lit "B2Y"] [] [] [] in
  In e (corrections r)
  /\ In (c_corrected e) (in_both (overall (original r)))
  /\ In (c_probability e) [0.8%float; 0.88%float; 0.9%float; 0.98%float].
Proof.
  intros e r.
  assert (Hin : In e (corrections r)) by (vm_compute; left; reflexivity).
  split; [exact Hin|].
  destruct (direct_matches_classified insertion_order
              [lit "A1X"; lit "B2Y"] [lit "A1X"; lit "B2Y"]
              [(lit "A1X", 1%Z, 0%Z); (lit "B2Y", 1%Z, 1%Z)]
              [(lit "A1X", 1%Z, 0%Z); (lit "B2Y", 1%Z, 1%Z)]
              [lit "A1X"; lit "B2Y"] [] [] []) as [_ H].
  destruct (H e Hin eq_refl) as (_ & Hb & _ & Hp).
  split; [exact Hb | exact Hp].
Defined.

End EngineExtras.

(* ================================================================== *)
(** * The whole run *)
(* ================================================================== *)

Section WholeRun.

Import CodeFilters Core.

Variable h : HashOrder.

(** What [extract_codes] hands to the comparison. *)
Lemma validate_codes_facts (raw_codes master : list str) :
  (forall x, In x (fst (validate_codes h raw_codes master)) -> In x master)
  /\ (forall r, In r (snd (validate_codes h raw_codes master)) ->
                In (ci_corrected r) master
                /\ In (ci_corrected r) (fst (validate_codes h raw_codes master))).
Proof.
  unfold validate_codes.
  destruct (validate_fold h master (OCRCorrector.enumerate raw_codes) [] [])
    as (H1 & H2 & _).
  split.
  - intros x Hx. apply H1 in Hx as [[]|(i & code & _ & _ & Hm)]. exact Hm.
  - intros r Hr. destruct (H2 r Hr) as [[]|(i & code & a & Hi & _ & Hm & _ & ->)].
    cbn [ci_corrected correction_record]. split; [assumption|].
    apply H1. right. exists i, code. auto.
Qed.

End WholeRun.

(** X16: in a whole run (both documents validated by [extract_codes], then
    compared) every code that is reported, in one of the corrected sets or as
    the corrected code of an entry of the correction list, is a member of the
    vocabulary, and correction discovery leaves "only in 1" as it was. *)
Theorem run_reports_vocabulary_members
    (h : HashOrder) (raw_codes_pdf1 raw_codes_pdf2 : list Core.raw_code)
    (master_codes_set all_text_lines_pdf1 : list str) :
  let r := Core.run_comparison h raw_codes_pdf1 raw_codes_pdf2
             master_codes_set all_text_lines_pdf1 in
  (forall x,
      In x (Core.in_both (Core.overall (Core.corrected r)))
      \/ In x (Core.only_in_pdf1 (Core.overall (Core.corrected r)))
      \/ In x (Core.only_in_pdf2 (Core.overall (Core.corrected r))) ->
      In x master_codes_set)
  /\ (forall e, In e (Core.corrections r) -> In (Core.c_corrected e) master_codes_set)
  /\ (forall x,
         In x (Core.only_in_pdf1 (Core.overall (Core.corrected r)))
         <-> In x (Core.only_in_pdf1 (Core.overall (Core.original r)))).
Proof.
  intros r. subst r. unfold Core.run_comparison.
  pose proof (validate_codes_facts h
                (map (fun x : Core.raw_code => fst (fst x)) raw_codes_pdf1)
                master_codes_set) as [V1 R1].
  pose proof (validate_codes_facts h
                (map (fun x : Core.raw_code => fst (fst x)) raw_codes_pdf2)
                master_codes_set) as [V2 R2].
  destruct (Core.validate_codes h (map _ raw_codes_pdf1) master_codes_set)
    as [codes_pdf1 ci1].
  destruct (Core.validate_codes h (map _ raw_codes_pdf2) master_codes_set)
    as [codes_pdf2 ci2].
  cbn [fst snd] in *.
  unfold Core.compare_codes_with_correction.
  pose proof (discovery_facts h codes_pdf1 codes_pdf2 raw_codes_pdf1 raw_codes_pdf2
                master_codes_set all_text_lines_pdf1 ci1 ci2) as (H1 & H2 & H3).
  destruct (Core.discover_corrections _ _ _ _ _ _ _ _ _) as [all s].
  cbn [Core.corrected Core.original Core.corrections fst snd] in *.
  assert (Hs : forall c, In c s -> In c codes_pdf1 \/ In c codes_pdf2).
  { intros c Hc. destruct (H2 c Hc) as [H|[H|H]]; auto.
    apply in_map_iff in H as (info & <- & Hinfo). left. now apply R1. }
  split; [|split].
  - intros x.
    destruct (compare_sets_overall s codes_pdf2 x) as (B & O1 & O2).
    rewrite B, O1, O2.
    intros [[Hx _]|[[Hx _]|[Hx _]]]; auto; destruct (Hs x Hx); auto.
  - intros e He. apply add_direct_matches_In in He as [He|(code & Hcode & _ & ->)].
    + destruct (H3 e He) as (_ & _ & Hk & He').
      destruct (Core.c_type e) eqn:T.
      * specialize (He' eq_refl). apply in_map_iff in He' as (info & <- & Hinfo).
        apply in_app_iff in Hinfo as [Hinfo|Hinfo]; [now apply R1 | now apply R2].
      * destruct (Hk eq_refl) as (_ & _ & Hc). auto.
      * destruct (H3 e He) as (_ & Hn & _). contradiction.
    + cbn [Core.c_corrected direct_match_entry].
      apply (compare_sets_overall codes_pdf1 codes_pdf2 code) in Hcode as [Hc _]. auto.
  - intros x.
    destruct (compare_sets_overall s codes_pdf2 x) as (_ & O1 & _).
    destruct (compare_sets_overall codes_pdf1 codes_pdf2 x) as (_ & O1' & _).
    rewrite O1, O1'. split.
    + intros [Hx Hn]. destruct (Hs x Hx); tauto.
    + intros [Hx Hn]. auto.
Qed.

(* ================================================================== *)
(** * The resolver and the form of its input *)
(* ================================================================== *)

Section ResolverInput.

Import Core Spec.

Variable h : HashOrder.

(** The way in which the resolver ends is fixed by the normalized
    candidate. *)
Lemma resolution_functional (a b : str) (master : list str) (r r' : str) :
  normalize a = normalize b ->
  resolution h a master r -> resolution h b master r' -> r = r'.
Proof.
  intros E Ha Hb.
  destruct Ha as [v F | v F Hlen Hz F' | F Hnin Hno];
    destruct Hb as [w G | w G Glen Gz G' | G Gnin Gno];
    rewrite <- ?E in *; try congruence.
  - exfalso. now apply (Gno v).
  - exfalso. now apply (Hno w).
Qed.

Lemma strip_blank (code : str) :
  forallb is_space code = true -> strip code = [].
Proof.
  intros H. unfold strip, lstrip.
  assert (E : dropwhile is_space code = []).
  { induction code as [|c code IH]; simpl in *; [reflexivity|].
    apply andb_true_iff in H as [Hc Hr]. rewrite Hc. now apply IH. }
  now rewrite E.
Qed.

Lemma normalize_upper (code : str) : normalize (upper code) = normalize code.
Proof.
  unfold normalize.
  now rewrite strip_upper, sub_trailing_punct_upper, upper_idempotent.
Qed.

Lemma normalize_strip (code : str) : normalize (strip code) = normalize code.
Proof. unfold normalize. now rewrite strip_idempotent. Qed.

Lemma clean_code_advanced_normal_form (a b : str) (master : list str) :
  normalize a = normalize b ->
  clean_code_advanced h a master = clean_code_advanced h b master.
Proof.
  intros E. destruct master as [|m ms].
  - now rewrite !clean_code_advanced_empty_vocabulary.
  - apply (resolution_functional a b (m :: ms)); [assumption| |];
      apply clean_code_advanced_resolution; discriminate.
Qed.

End ResolverInput.

(** X17: the resolver looks at a candidate only through its normalized form:
    two candidates with the same normalized form get the same result; in
    particular the result does not change when the candidate is upper-cased
    or trimmed first. *)
Theorem clean_code_advanced_reads_normal_form
    (h : HashOrder) (a b : str) (master_codes_set : list str) :
  (Spec.normalize a = Spec.normalize b ->
   Core.clean_code_advanced h a master_codes_set
   = Core.clean_code_advanced h b master_codes_set)
  /\ Core.clean_code_advanced h (upper a) master_codes_set
     = Core.clean_code_advanced h a master_codes_set
  /\ Core.clean_code_advanced h (strip a) master_codes_set
     = Core.clean_code_advanced h a master_codes_set.
Proof.
  split; [apply clean_code_advanced_normal_form|].
  split; apply clean_code_advanced_normal_form;
    [apply normalize_upper | apply normalize_strip].
Qed.

Lemma clean_code_advanced_reads_normal_form_witness :
  Core.clean_code_advanced insertion_order (lit " p08.") [lit "P0B"]
  = Core.clean_code_advanced insertion_order (lit "P08") [lit "P0B"].
Proof.
  apply (proj1 (clean_code_advanced_reads_normal_form insertion_order
                  (lit " p08.") (lit "P08") [lit "P0B"])).
  reflexivity.
Defined.

(** X18: an empty candidate, or one that consists of whitespace only, is
    resolved to the empty string, whatever the vocabulary. *)
Theorem clean_code_advanced_blank
    (h : HashOrder) (code : str) (master_codes_set : list str) :
  forallb is_space code = true ->
  Core.clean_code_advanced h code master_codes_set = [].
Proof.
  intros Hb.
  rewrite (clean_code_advanced_normal_form h code [] master_codes_set).
  - reflexivity.
  - unfold Spec.normalize. now rewrite (strip_blank code Hb).
Qed.

Lemma clean_code_advanced_blank_witness :
  Core.clean_code_advanced insertion_order (lit "   ") [lit "P0B"] = [].
Proof.
  apply (clean_code_advanced_blank insertion_order (lit "   ") [lit "P0B"]).
  reflexivity.
Defined.

(* ================================================================== *)
(** * The confusion tables *)
(* ================================================================== *)

Section Tables.

Import Core.

Lemma char_variant_sym (c v : ascii) : char_variant c v -> char_variant v c.
Proof.
  intros [->|(l & E & Hin)]; [now left|].
  destruct c as [[] [] [] [] [] [] [] []]; simpl in E; try discriminate E;
    inversion E; subst l; simpl in Hin;
    repeat (destruct Hin as [<-|Hin];
            [right; eexists; split; [reflexivity | simpl; tauto]|]);
    destruct Hin.
Qed.

Lemma substitution_permutation_sym (a b : str) :
  substitution_permutation a b -> substitution_permutation b a.
Proof.
  unfold substitution_permutation. intros H.
  induction H; constructor; [now apply char_variant_sym | assumption].
Qed.

Lemma count_changes_sym (a b : str) :
  List.length a = List.length b -> count_changes a b = count_changes b a.
Proof.
  revert b. induction a as [|x a IH]; intros [|y b] Hl; simpl; try reflexivity;
    try discriminate.
  rewrite (Ascii.eqb_sym y x). f_equal. apply IH. simpl in Hl. lia.
Qed.

End Tables.

(** X19: the confusion table of [generate_all_ocr_variants] works in both
    directions: a string is among the variants of a code exactly when the
    code is among the variants of the string, at the same number of changed
    positions, and that number is 0 for the code itself only. *)
Theorem generate_all_ocr_variants_symmetric (h : HashOrder) (c v : str) :
  (In v (Core.generate_all_ocr_variants h c) <->
   In c (Core.generate_all_ocr_variants h v))
  /\ (In v (Core.generate_all_ocr_variants h c) ->
      Core.count_changes c v = Core.count_changes v c)
  /\ (In v (Core.generate_all_ocr_variants h c) ->
      (Core.count_changes c v = 0 <-> v = c)).
Proof.
  rewrite !generate_all_ocr_variants_In. split; [|split].
  - split; apply substitution_permutation_sym.
  - intros H. apply count_changes_sym. symmetry.
    now apply substitution_permutation_length.
  - intros H. apply substitution_permutation_length in H. split.
    + revert c H. induction v as [|y v IH]; intros [|x c] Hl; simpl; try discriminate;
        [reflexivity|].
      destruct (Ascii.eqb y x) eqn:E; [|discriminate].
      intros Hc. apply Ascii.eqb_eq in E. subst. f_equal. apply IH; [|assumption].
      simpl in Hl. lia.
    + intros ->. apply count_changes_refl.
Qed.

Lemma generate_all_ocr_variants_symmetric_witness :
  In (lit "P08") (Core.generate_all_ocr_variants insertion_order (lit "POB")).
Proof.
  apply (generate_all_ocr_variants_symmetric insertion_order (lit "P08") (lit "POB")).
  vm_compute. tauto.
Defined.

(* ================================================================== *)
(** * The context methods of [OCRCorrector] *)
(* ================================================================== *)

Section ContextMethods.

Import Core OCRCorrector OCRCorrectorContext.

Lemma slice_bound_min (len b : Z) :
  (0 <= len)%Z -> slice_bound len (Z.min len b) = slice_bound len b.
Proof.
  intros Hl. unfold slice_bound.
  destruct (b <? 0)%Z eqn:E.
  - apply Z.ltb_lt in E. rewrite Z.min_r by lia. now rewrite (proj2 (Z.ltb_lt b 0) E).
  - apply Z.ltb_ge in E.
    destruct (Z.min len b <? 0)%Z eqn:E'; [apply Z.ltb_lt in E' | apply Z.ltb_ge in E']; lia.
Qed.

Lemma slice_min (A : Type) (l : list A) (a b : Z) :
  slice l a (Z.min (Z.of_nat (List.length l)) b) = slice l a b.
Proof. unfold slice. rewrite slice_bound_min by lia. reflexivity. Qed.

Lemma index_some_bound (x : str) (l : list str) (i : nat) :
  index x l = Some i -> i < List.length l.
Proof.
  revert i. induction l as [|y l IH]; intros i; simpl; [discriminate|].
  destruct (str_eqb y x); [intros H; inversion H; lia|].
  destruct (index x l) as [j|]; [|discriminate].
  intros H. inversion H. specialize (IH j eq_refl). lia.
Qed.

End ContextMethods.

(** X20: [get_context_codes] returns two empty windows for a position
    outside the list, and for the position at which [list.index] finds a code
    it returns the windows that [get_validated_context_codes] of [core.py]
    returns for that code, whatever the window size. *)
Theorem get_context_codes_agrees
    (codes_list : list str) (position context_size : Z) :
  ((position < 0 \/ Z.of_nat (List.length codes_list) <= position)%Z ->
   OCRCorrectorContext.get_context_codes codes_list position context_size
   = {| Core.before := []; Core.after := [] |})
  /\ (forall target i,
         index target codes_list = Some i -> position = Z.of_nat i ->
         OCRCorrectorContext.get_context_codes codes_list position context_size
         = Core.get_validated_context_codes codes_list target context_size).
Proof.
  unfold OCRCorrectorContext.get_context_codes. split.
  - intros H.
    destruct ((0 <=? position)%Z && (position <? Z.of_nat (List.length codes_list))%Z)
      eqn:E; [|reflexivity].
    apply andb_true_iff in E as [E1 E2].
    apply Z.leb_le in E1. apply Z.ltb_lt in E2. lia.
  - intros target i Hi ->. unfold Core.get_validated_context_codes. rewrite Hi.
    apply index_some_bound in Hi.
    replace ((0 <=? Z.of_nat i)%Z && (Z.of_nat i <? Z.of_nat (List.length codes_list))%Z)
      with true
      by (symmetry; apply andb_true_iff; split; [apply Z.leb_le | apply Z.ltb_lt]; lia).
    rewrite slice_min.
    replace (Z.of_nat i + context_size + 1)%Z with (Z.of_nat i + 1 + context_size)%Z by lia.
    reflexivity.
Qed.

Lemma get_context_codes_agrees_witness :
  OCRCorrectorContext.get_context_codes (map lit ["A1X"; "B2Y"; "C3Z"]%string) 5 3
  = {| Core.before := []; Core.after := [] |}.
Proof.
  apply (get_context_codes_agrees (map lit ["A1X"; "B2Y"; "C3Z"]%string) 5 3).
  right. simpl. lia.
Defined.

Section ValidatedContext.

Import Core OCRCorrector OCRCorrectorContext.

Lemma insert_sorted_permutation (A K : Type) (key : A -> K) (leb : K -> K -> bool)
      (x : A) (l : list A) :
  Permutation (x :: l) (insert_sorted key leb x l).
Proof.
  induction l as [|y l IH]; simpl; [apply Permutation_refl|].
  destruct (leb (key x) (key y)); [apply Permutation_refl|].
  eapply perm_trans; [apply perm_swap | apply perm_skip, IH].
Qed.

Lemma sort_by_permutation (A K : Type) (key : A -> K) (leb : K -> K -> bool)
      (l : list A) :
  Permutation l (sort_by key leb l).
Proof.
  induction l as [|x l IH]; simpl; [constructor|].
  eapply perm_trans; [apply perm_skip, IH | apply insert_sorted_permutation].
Qed.

(** The cleaning written out in the method is the zero rule applied to the
    upper-cased code without whitespace. *)
Lemma clean_for_context_zero_rule (code : str) :
  clean_for_context code = apply_zero_rule (upper (clean_whitespace code)).
Proof.
  unfold clean_for_context, apply_zero_rule.
  set (cleaned := upper (clean_whitespace code)).
  destruct (3 <? List.length cleaned) eqn:E; [|reflexivity].
  apply Nat.ltb_lt in E.
  replace (1 <? List.length cleaned) with true
    by (symmetry; apply Nat.ltb_lt; lia).
  reflexivity.
Qed.

Lemma find_position_bound (position : Z) (l : list raw_code) (i : nat) :
  find_position position l = Some i -> i < List.length l.
Proof.
  revert i. induction l as [|x l IH]; intros i; simpl; [discriminate|].
  destruct (snd x =? position)%Z; [intros H; inversion H; lia|].
  destruct (find_position position l) as [j|]; [|discriminate].
  intros H. inversion H. specialize (IH j eq_refl). lia.
Qed.

Lemma codes_between_In (l : list raw_code) (a b : Z) (c : str) :
  (0 <= a)%Z -> (b <= Z.of_nat (List.length l))%Z ->
  In c (codes_between l a b) -> exists x, In x l /\ c = fst (fst x).
Proof.
  intros Ha Hb H. unfold codes_between in H.
  apply in_map_iff in H as (i & <- & Hi). apply in_seq in Hi.
  exists (nth i l ([], 0%Z, 0%Z)). split; [|reflexivity].
  apply nth_In. lia.
Qed.

End ValidatedContext.

(** X21: the context returned by the method [get_validated_context_codes]
    of [OCRCorrector] holds vocabulary members only, each the cleaned form
    (upper-cased, whitespace removed, zero rule applied) of one of the codes
    passed in. *)
Theorem context_holds_validated_codes
    (all_codes_with_positions : list Core.raw_code) (master_codes_set : list str)
    (position context_size : Z) (c : str) :
  let context := OCRCorrectorContext.get_validated_context_codes
                   all_codes_with_positions master_codes_set position context_size in
  In c (Core.before context) \/ In c (Core.after context) ->
  In c master_codes_set
  /\ exists x, In x all_codes_with_positions
               /\ c = OCRCorrector.apply_zero_rule
                        (upper (OCRCorrector.clean_whitespace (fst (fst x)))).
Proof.
  intros context. subst context.
  unfold OCRCorrectorContext.get_validated_context_codes.
  set (validated := flat_map _ all_codes_with_positions).
  set (sorted := sort_by (fun x : Core.raw_code => (snd (fst x), snd x))
                         Core.position_leb validated).
  assert (Hsorted : forall x, In x sorted ->
            In (fst (fst x)) master_codes_set
            /\ exists y, In y all_codes_with_positions
                         /\ fst (fst x) = OCRCorrector.apply_zero_rule
                              (upper (OCRCorrector.clean_whitespace (fst (fst y))))).
  { intros x Hx.
    apply (Permutation_in _ (Permutation_sym
             (sort_by_permutation _ _ (fun x : Core.raw_code => (snd (fst x), snd x))
                Core.position_leb validated))) in Hx.
    subst validated. apply in_flat_map in Hx as (y & Hy & Hx).
    destruct (mem _ master_codes_set) eqn:E; [|destruct Hx].
    destruct Hx as [<-|[]]. cbn [fst snd]. split; [now apply mem_In|].
    exists y. split; [assumption | apply clean_for_context_zero_rule]. }
  destruct (OCRCorrectorContext.find_position position sorted) as [idx|] eqn:F;
    cbn [Core.before Core.after]; [|intros [[]|[]]].
  apply find_position_bound in F.
  intros [H|H]; apply codes_between_In in H; try lia;
    destruct H as (x & Hx & ->); now apply Hsorted.
Qed.

Lemma context_holds_validated_codes_witness :
  In (lit "B2Y") (map lit ["A1X"; "B2Y"; "PB1"; "C3Z"]%string).
Proof.
  apply (context_holds_validated_codes
           [(lit "A1X", 1%Z, 0%Z); (lit "zz", 1%Z, 1%Z); (lit "b2y", 1%Z, 2%Z);
            (lit "P0B1", 1%Z, 3%Z); (lit "C3Z", 2%Z, 0%Z)]
           (map lit ["A1X"; "B2Y"; "PB1"; "C3Z"]%string) 3 1 (lit "B2Y")).
  left. vm_compute. left. reflexivity.
Defined.

Section MinusOptions.

Import OCRCorrectorContext.

Lemma find_minus_options_none (all_text_lines : list str) (line_idx : nat) :
  (forall text, In text all_text_lines -> mentions_minus_options text = false) ->
  find_minus_options line_idx all_text_lines = None.
Proof.
  revert line_idx.
  induction all_text_lines as [|text rest IH]; intros line_idx H; simpl; [reflexivity|].
  rewrite (H text (or_introl eq_refl)). apply IH. intros t Ht. apply H. now right.
Qed.

Lemma find_minus_options_first (all_text_lines : list str) (line_idx m : nat) :
  m < List.length all_text_lines ->
  mentions_minus_options (nth m all_text_lines []) = true ->
  (forall k, k < m -> mentions_minus_options (nth k all_text_lines []) = false) ->
  find_minus_options line_idx all_text_lines = Some (line_idx + m).
Proof.
  revert line_idx m.
  induction all_text_lines as [|text rest IH]; intros line_idx m Hm Ht Hk;
    simpl in *; [lia|].
  destruct m as [|m].
  - rewrite Ht. f_equal. lia.
  - rewrite (Hk 0) by lia.
    rewrite (IH (S line_idx) m); [f_equal; lia | lia | assumption |].
    intros k Hlt. apply (Hk (S k)). lia.
Qed.

Lemma filter_idempotent (A : Type) (f : A -> bool) (l : list A) :
  filter f (filter f l) = filter f l.
Proof.
  induction l as [|x l IH]; simpl; [reflexivity|].
  destruct (f x) eqn:E; simpl; [rewrite E, IH|]; auto.
Qed.

End MinusOptions.

(** X22: [filter_codes_before_minus_options] returns the codes unchanged
    when no line mentions the marker; when line [m] is the first that does,
    it keeps exactly the codes whose position, divided by ten and rounded
    down, is at most [m], and filtering the result again changes nothing. *)
Theorem filter_codes_before_minus_options_keeps
    (all_text_lines : list str) (raw_codes_with_positions : list Core.raw_code) :
  ((forall text, In text all_text_lines ->
                 OCRCorrectorContext.mentions_minus_options text = false) ->
   OCRCorrectorContext.filter_codes_before_minus_options
     all_text_lines raw_codes_with_positions = raw_codes_with_positions)
  /\ (forall m,
         m < List.length all_text_lines ->
         OCRCorrectorContext.mentions_minus_options (nth m all_text_lines []) = true ->
         (forall k, k < m ->
            OCRCorrectorContext.mentions_minus_options (nth k all_text_lines []) = false) ->
         OCRCorrectorContext.filter_codes_before_minus_options
           all_text_lines raw_codes_with_positions
         = filter (fun x : Core.raw_code => (snd x / 10 <=? Z.of_nat m)%Z)
                  raw_codes_with_positions)
  /\ OCRCorrectorContext.filter_codes_before_minus_options all_text_lines
       (OCRCorrectorContext.filter_codes_before_minus_options
          all_text_lines raw_codes_with_positions)
     = OCRCorrectorContext.filter_codes_before_minus_options
         all_text_lines raw_codes_with_positions.
Proof.
  unfold OCRCorrectorContext.filter_codes_before_minus_options.
  split; [|split].
  - intros H. now rewrite (find_minus_options_none _ 0 H).
  - intros m Hm Ht Hk.
    now rewrite (find_minus_options_first _ 0 m Hm Ht Hk).
  - destruct (OCRCorrectorContext.find_minus_options 0 all_text_lines);
      [apply filter_idempotent | reflexivity].
Qed.

Lemma filter_codes_before_minus_options_keeps_witness :
  OCRCorrectorContext.filter_codes_before_minus_options
    (map lit ["Codes"; "see Minus-Options below"; "more"; "minus options"]%string)
    [(lit "A1X", 1%Z, 5%Z); (lit "B2Y", 1%Z, 19%Z); (lit "C3Z", 1%Z, 20%Z);
     (lit "D4W", 1%Z, (-3)%Z)]
  = [(lit "A1X", 1%Z, 5%Z); (lit "B2Y", 1%Z, 19%Z); (lit "D4W", 1%Z, (-3)%Z)].
Proof.
  destruct (filter_codes_before_minus_options_keeps
              (map lit ["Codes"; "see Minus-Options below"; "more"; "minus options"]%string)
              [(lit "A1X", 1%Z, 5%Z); (lit "B2Y", 1%Z, 19%Z); (lit "C3Z", 1%Z, 20%Z);
               (lit "D4W", 1%Z, (-3)%Z)]) as (_ & H & _).
  rewrite (H 1).
  - reflexivity.
  - simpl. lia.
  - vm_compute. reflexivity.
  - intros k Hk. assert (k = 0) as -> by lia. vm_compute. reflexivity.
Defined.

(* ================================================================== *)
(** * The variant generators of [OCRCorrector] *)
(* ================================================================== *)

Section SubstitutionVariants.

Import OCRCorrector OCRCorrectorContext.

Lemma enumerate_nth_error (A : Type) (l : list A) (i : nat) (x : A) :
  In (i, x) (enumerate l) -> nth_error l i = Some x.
Proof.
  unfold enumerate.
  assert (G : forall k, In (i, x) (combine (seq k (List.length l)) l) ->
                        k <= i /\ nth_error l (i - k) = Some x).
  { induction l as [|y l IH]; intros k H; [destruct H|].
    simpl in H. destruct H as [H|H].
    - inversion H; subst. rewrite Nat.sub_diag. split; [lia | reflexivity].
    - destruct (IH (S k) H) as [Hk Hn]. split; [lia|].
      replace (i - k) with (S (i - S k)) by lia. exact Hn. }
  intros H. destruct (G 0 H) as [_ Hn]. now rewrite Nat.sub_0_r in Hn.
Qed.

Lemma firstn_subset (A : Type) (n : nat) (l : list A) (x : A) :
  In x (firstn n l) -> In x l.
Proof.
  revert l. induction n as [|n IH]; intros [|y l]; simpl; try tauto.
  intros [H|H]; [now left | right; now apply IH].
Qed.

Lemma first_replacement_In (c r : ascii) :
  In r (first_replacement c) ->
  exists l, substitutions c = Some l /\ hd_error l = Some r.
Proof.
  unfold first_replacement. destruct (substitutions c) as [l|]; [|intros []].
  destruct l as [|x l]; simpl; [intros [] | intros [<-|[]]].
  now exists (x :: l).
Qed.

End SubstitutionVariants.

(** X23: [generate_substitution_variants] returns at most ten entries.  Each
    has the length of the text and is either the text with one character
    replaced by a character that the table lists for it, at penalty 0, or,
    for a text of at most five characters, the text with two characters
    replaced by the first character that the table lists for each, at
    penalty 0.2. *)
Theorem generate_substitution_variants_entries (text : str) :
  List.length (OCRCorrectorContext.generate_substitution_variants text) <= 10
  /\ forall v subs p,
       In (v, subs, p) (OCRCorrectorContext.generate_substitution_variants text) ->
       List.length v = List.length text
       /\ ((p = 0%float
            /\ exists i c r l,
                 nth_error text i = Some c
                 /\ OCRCorrector.substitutions c = Some l /\ In r l
                 /\ subs = [(c, r)]
                 /\ v = OCRCorrector.set_char i r text)
           \/ (p = 0.2%float
               /\ List.length text <= 5
               /\ exists i j c1 c2 r1 r2 l1 l2,
                    i < j < List.length text
                    /\ nth_error text i = Some c1 /\ nth_error text j = Some c2
                    /\ OCRCorrector.substitutions c1 = Some l1 /\ hd_error l1 = Some r1
                    /\ OCRCorrector.substitutions c2 = Some l2 /\ hd_error l2 = Some r2
                    /\ subs = [(c1, r1); (c2, r2)]
                    /\ v = OCRCorrector.set_char j r2 (OCRCorrector.set_char i r1 text))).
Proof.
  unfold OCRCorrectorContext.generate_substitution_variants. split.
  - rewrite length_firstn. lia.
  - intros v subs p Hin. apply firstn_subset in Hin.
    apply in_app_iff in Hin as [Hs|Hd].
    + apply in_flat_map in Hs as ([i c] & Hic & Hs).
      destruct (OCRCorrector.substitutions c) as [l|] eqn:E; [|destruct Hs].
      apply in_map_iff in Hs as (r & Heq & Hr). inversion Heq; subst.
      split; [apply set_char_length|]. left. split; [reflexivity|].
      exists i, c, r, l. repeat split; auto. now apply enumerate_nth_error.
    + destruct (List.length text <=? 5) eqn:L; [|destruct Hd].
      apply Nat.leb_le in L.
      apply in_flat_map in Hd as (i & Hi & Hd).
      apply in_flat_map in Hd as (j & Hj & Hd).
      apply in_seq in Hi, Hj.
      destruct (OCRCorrector.substitutions (nth i text " "%char)) as [l1|] eqn:E1;
        [|destruct Hd].
      destruct (OCRCorrector.substitutions (nth j text " "%char)) as [l2|] eqn:E2;
        [|destruct Hd].
      apply in_flat_map in Hd as (r1 & Hr1 & Hd).
      apply in_map_iff in Hd as (r2 & Heq & Hr2). inversion Heq; subst.
      apply first_replacement_In in Hr1 as (l1' & F1 & G1).
      apply first_replacement_In in Hr2 as (l2' & F2 & G2).
      split; [now rewrite !set_char_length|]. right.
      split; [reflexivity|]. split; [assumption|].
      exists i, j, (nth i text " "%char), (nth j text " "%char), r1, r2, l1', l2'.
      repeat split; try assumption; try lia.
      * apply nth_error_nth'. lia.
      * apply nth_error_nth'. lia.
Qed.

Lemma generate_substitution_variants_entries_witness :
  In (lit "BB", [("8"%char, "B"%char)], 0%float)
     (OCRCorrectorContext.generate_substitution_variants (lit "B8"))
  /\ List.length (lit "BB") = List.length (lit "B8").
Proof.
  assert (Hin : In (lit "BB", [("8"%char, "B"%char)], 0%float)
                   (OCRCorrectorContext.generate_substitution_variants (lit "B8"))).
  { vm_compute. right. left. reflexivity. }
  split; [exact Hin|].
  destruct (generate_substitution_variants_entries (lit "B8")) as [_ H].
  apply (H (lit "BB") [("8"%char, "B"%char)] 0%float Hin).
Defined.

Section SimpleVariants.

Import OCRCorrector.

Lemma nth_error_enumerate (A : Type) (l : list A) (i : nat) (x : A) :
  nth_error l i = Some x -> In (i, x) (enumerate l).
Proof.
  unfold enumerate.
  assert (G : forall k, nth_error l i = Some x ->
                        In (k + i, x) (combine (seq k (List.length l)) l)).
  { revert i. induction l as [|y l IH]; intros i k H; [destruct i; discriminate H|].
    destruct i as [|i]; simpl in *.
    - inversion H. left. f_equal. lia.
    - right. replace (k + S i) with (S k + i) by lia. now apply IH. }
  intros H. exact (G 0 H).
Qed.

(** A loop that collects elements into a list, seen through membership. *)
Lemma fold_left_collect (A B : Type) (f : list A -> B -> list A) (g : B -> A -> Prop)
      (l : list B) :
  (forall acc b x, In x (f acc b) <-> In x acc \/ g b x) ->
  forall acc x, In x (fold_left f l acc) <-> In x acc \/ exists b, In b l /\ g b x.
Proof.
  intros Hf. induction l as [|b l IH]; intros acc x; simpl.
  - split; [now left | intros [H|(b & [] & _)]; exact H].
  - rewrite IH, Hf. split.
    + intros [[H|H]|(b' & Hb' & H)]; [now left | right; exists b; auto | right; exists b'; auto].
    + intros [H|(b' & [<-|Hb'] & H)]; [left; now left | left; now right | right; exists b'; auto].
Qed.

Lemma NoDup_snoc (l : list str) (x : str) :
  NoDup l -> mem x l = false -> NoDup (l ++ [x]).
Proof.
  intros Hl Hx. apply mem_false in Hx.
  apply (Permutation_NoDup (Permutation_cons_append l x)).
  now constructor.
Qed.

(** One turn of the inner loop of [generate_simple_variants]. *)
Definition simple_variants_step (cleaned_code : str) (i : nat)
    (variants : list str) (replacement : ascii) : list str :=
  let variant_code := set_char i replacement cleaned_code in
  let variant_with_zero_rule := apply_zero_rule variant_code in
  let variants :=
    if negb (mem variant_code variants)
    then variants ++ [variant_code] else variants in
  if negb (mem variant_with_zero_rule variants)
     && negb (str_eqb variant_with_zero_rule variant_code)
  then variants ++ [variant_with_zero_rule] else variants.

Lemma simple_variants_step_In (cleaned : str) (i : nat) (variants : list str)
      (r : ascii) (x : str) :
  In x (simple_variants_step cleaned i variants r) <->
  In x variants
  \/ (x = set_char i r cleaned \/ x = apply_zero_rule (set_char i r cleaned)).
Proof.
  unfold simple_variants_step.
  set (vc := set_char i r cleaned). set (vz := apply_zero_rule vc).
  destruct (mem vc variants) eqn:E1; cbn [negb].
  - apply mem_In in E1.
    destruct (mem vz variants) eqn:E2; cbn [negb andb].
    + apply mem_In in E2. split; [now left | intros [H|[->| ->]]; assumption].
    + destruct (str_eqb vz vc) eqn:E3; cbn [negb].
      * apply str_eqb_eq in E3. rewrite E3.
        split; [now left | intros [H|[->| ->]]; assumption].
      * rewrite in_app_iff. simpl. split.
        -- intros [H|[<-|[]]]; auto.
        -- intros [H|[->| ->]]; auto.
  - destruct (mem vz (variants ++ [vc])) eqn:E2; cbn [negb andb].
    + apply mem_In in E2. rewrite in_app_iff in *. simpl in *. split.
      * intros [H|[<-|[]]]; auto.
      * intros [H|[->| ->]]; auto.
    + destruct (str_eqb vz vc) eqn:E3; cbn [negb].
      * apply str_eqb_eq in E3. rewrite E3, in_app_iff. simpl. split.
        -- intros [H|[<-|[]]]; auto.
        -- intros [H|[->| ->]]; auto.
      * rewrite !in_app_iff. simpl. split.
        -- intros [[H|[<-|[]]]|[<-|[]]]; auto.
        -- intros [H|[->| ->]]; auto.
Qed.

Lemma simple_variants_step_NoDup (cleaned : str) (i : nat) (variants : list str)
      (r : ascii) :
  NoDup variants -> NoDup (simple_variants_step cleaned i variants r).
Proof.
  intros Hn. unfold simple_variants_step.
  set (vc := set_char i r cleaned). set (vz := apply_zero_rule vc).
  assert (H1 : NoDup (if negb (mem vc variants) then variants ++ [vc] else variants)).
  { destruct (mem vc variants) eqn:E; cbn [negb]; [assumption | now apply NoDup_snoc]. }
  destruct (mem vz _) eqn:E2; cbn [negb andb]; [assumption|].
  destruct (str_eqb vz vc); cbn [negb]; [assumption | now apply NoDup_snoc].
Qed.

Lemma generate_simple_variants_fold (code : str) :
  generate_simple_variants code
  = fold_left
      (fun variants (p : nat * ascii) =>
         match substitutions (snd p) with
         | None => variants
         | Some replacements =>
             fold_left (simple_variants_step (upper (clean_whitespace code)) (fst p))
                       replacements variants
         end)
      (enumerate (upper (clean_whitespace code))) [].
Proof.
  unfold generate_simple_variants. apply fold_left_ext.
  intros variants [i c]. reflexivity.
Qed.

End SimpleVariants.

(** X24: [generate_simple_variants] returns a list without repetitions that
    holds exactly the single substitutions of the cleaned code (upper-cased,
    whitespace removed), that is the cleaned code with one character replaced
    by a character that the table lists for it, and what the zero rule makes
    of them. *)
Theorem generate_simple_variants_single_substitutions (code : str) :
  let cleaned_code := upper (OCRCorrector.clean_whitespace code) in
  NoDup (OCRCorrector.generate_simple_variants code)
  /\ forall v,
       In v (OCRCorrector.generate_simple_variants code) <->
       exists i c l r,
         nth_error cleaned_code i = Some c
         /\ OCRCorrector.substitutions c = Some l /\ In r l
         /\ (v = OCRCorrector.set_char i r cleaned_code
             \/ v = OCRCorrector.apply_zero_rule
                      (OCRCorrector.set_char i r cleaned_code)).
Proof.
  intros cleaned_code. rewrite generate_simple_variants_fold. fold cleaned_code.
  split.
  - apply (fold_left_invariant _ _ (fun variants : list str => NoDup variants));
      [|constructor].
    intros variants [i c] _ Hn. cbn [fst snd].
    destruct (OCRCorrector.substitutions c) as [l|]; [|assumption].
    revert Hn. apply fold_left_invariant.
    intros st r _. apply simple_variants_step_NoDup.
  - intros v.
    rewrite (fold_left_collect _ _ _
               (fun (p : nat * ascii) x =>
                  exists l r, OCRCorrector.substitutions (snd p) = Some l /\ In r l
                              /\ (x = OCRCorrector.set_char (fst p) r cleaned_code
                                  \/ x = OCRCorrector.apply_zero_rule
                                           (OCRCorrector.set_char (fst p) r cleaned_code)))).
    + split.
      * intros [[]|([i c] & Hic & l & r & Hl & Hr & Hv)]. cbn [fst snd] in *.
        exists i, c, l, r. repeat split; auto. now apply enumerate_nth_error.
      * intros (i & c & l & r & Hn & Hl & Hr & Hv). right.
        exists (i, c). split; [now apply nth_error_enumerate|].
        exists l, r. auto.
    + intros acc [i c] x. cbn [fst snd].
      destruct (OCRCorrector.substitutions c) as [l|].
      * rewrite (fold_left_collect _ _ _
                   (fun r x => x = OCRCorrector.set_char i r cleaned_code
                               \/ x = OCRCorrector.apply_zero_rule
                                        (OCRCorrector.set_char i r cleaned_code)))
          by (intros; apply simple_variants_step_In).
        split.
        -- intros [H|(r & Hr & Hx)]; [now left | right]. exists l, r. auto.
        -- intros [H|(l' & r & E & Hr & Hx)]; [now left | right].
           inversion E; subst l'. exists r. auto.
      * split; [now left | intros [H|(l & r & E & _)]; [assumption | discriminate E]].
Qed.

(* ================================================================== *)
(** * The merged fragments *)
(* ================================================================== *)

Section Fragments.

Import OCRCorrector Core.

Lemma slice_nat (A : Type) (l : list A) (a b : nat) :
  a <= b <= List.length l ->
  slice l (Z.of_nat a) (Z.of_nat b) = firstn (b - a) (skipn a l).
Proof.
  intros H. unfold slice, slice_bound.
  destruct (Z.of_nat a <? 0)%Z eqn:Ea; [apply Z.ltb_lt in Ea; lia|].
  destruct (Z.of_nat b <? 0)%Z eqn:Eb; [apply Z.ltb_lt in Eb; lia|].
  rewrite !Z.min_l by lia.
  replace (Z.to_nat (Z.of_nat b - Z.of_nat a)) with (b - a) by lia.
  now rewrite Nat2Z.id.
Qed.

(** What one text line contributes: groups of two or three neighbouring
    tokens, joined, and up to three of their single substitutions. *)
Lemma line_combinations_In (master : list str) (line_idx : nat) (text : str)
      (combo : combination) :
  In combo (line_combinations master line_idx text) ->
  let base := clean_whitespace (join [] (parts combo)) in
  line combo = line_idx
  /\ 3 <= List.length (combined combo) <= 7
  /\ 3 <= List.length base <= 7
  /\ (exists start n,
         (n = 2 \/ n = 3) /\ start + n <= List.length (split text)
         /\ parts combo = firstn n (skipn start (split text)))
  /\ (exists token master_code,
         In token (parts combo) /\ In master_code master
         /\ is_substring (upper (clean_whitespace token)) master_code = true)
  /\ ((Core.substitutions combo = [] /\ penalty combo = 0%float
       /\ combined combo = base)
      \/ (Core.substitutions combo = [lit "OCR-Korrektur"]
          /\ penalty combo = 0.1%float
          /\ In (combined combo) (firstn 3 (generate_simple_variants base))
          /\ combined combo <> base)).
Proof.
  unfold line_combinations. intros H.
  apply in_flat_map in H as (start & Hs & H).
  apply in_flat_map in H as (e & He & H).
  unfold range in Hs, He. apply in_seq in Hs, He.
  assert (Hb : start + 2 <= e /\ e < start + 4 /\ e <= List.length (split text)) by lia.
  clear He. destruct Hb as (Hb1 & Hb2 & Hb3).
  rewrite slice_nat in H by lia.
  set (group := firstn (e - start) (skipn start (split text))) in *.
  destruct ((3 <=? List.length (clean_whitespace (join [] group)))
            && (List.length (clean_whitespace (join [] group)) <=? 7)) eqn:L;
    [|destruct H].
  apply andb_true_iff in L as [L1 L2]. apply Nat.leb_le in L1, L2.
  destruct (existsb _ group) eqn:R; [|destruct H].
  apply existsb_exists in R as (token & Ht & R).
  apply existsb_exists in R as (master_code & Hm & R).
  assert (Hparts : exists start' n,
             (n = 2 \/ n = 3) /\ start' + n <= List.length (split text)
             /\ group = firstn n (skipn start' (split text))).
  { exists start, (e - start). split; [lia | split; [lia | reflexivity]]. }
  destruct H as [<-|H]; cbn [line combined parts Core.substitutions penalty].
  - repeat split; try assumption; try lia.
    + exists token, master_code. auto.
    + left. auto.
  - apply in_flat_map in H as (variant & Hv & H).
    destruct (negb (str_eqb variant (clean_whitespace (join [] group)))
              && (3 <=? List.length variant) && (List.length variant <=? 7)) eqn:C;
      [|destruct H].
    destruct H as [<-|[]]. cbn [line combined parts Core.substitutions penalty].
    apply andb_true_iff in C as [C C3]. apply andb_true_iff in C as [C1 C2].
    apply Nat.leb_le in C2, C3. apply negb_true_iff in C1. apply str_eqb_neq in C1.
    repeat split; try assumption; try lia.
    + exists token, master_code. auto.
    + right. auto.
Qed.

End Fragments.

(** X25: every merged fragment that [compare_codes_with_correction] tries
    (the list [whitespace_combinations]) is between three and seven
    characters long.  With text lines it joins two or three neighbouring
    tokens of one line, of which one is part of a vocabulary member, and is
    the joined text itself (penalty 0) or one of the first three single
    substitutions of the joined text (penalty 0.1); without text lines it
    joins two neighbouring raw codes. *)
Theorem whitespace_combinations_entries
    (raw_codes_pdf1 : list Core.raw_code) (master_codes_set all_text_lines_pdf1 : list str)
    (combo : Core.combination) :
  In combo (Core.whitespace_combinations raw_codes_pdf1 master_codes_set
                                         all_text_lines_pdf1) ->
  let base := OCRCorrector.clean_whitespace (join [] (Core.parts combo)) in
  3 <= List.length (Core.combined combo) <= 7
  /\ ((Core.substitutions combo = [] /\ Core.penalty combo = 0%float
       /\ Core.combined combo = base)
      \/ (all_text_lines_pdf1 <> []
          /\ Core.substitutions combo = [lit "OCR-Korrektur"]
          /\ Core.penalty combo = 0.1%float
          /\ In (Core.combined combo)
                (firstn 3 (OCRCorrector.generate_simple_variants base))
          /\ Core.combined combo <> base))
  /\ match all_text_lines_pdf1 with
     | [] =>
         exists first second,
           nth_error (map (fun x : Core.raw_code => fst (fst x)) raw_codes_pdf1)
                     (Core.line combo) = Some first
           /\ nth_error (map (fun x : Core.raw_code => fst (fst x)) raw_codes_pdf1)
                        (Core.line combo + 1) = Some second
           /\ Core.parts combo = [first; second]
     | _ :: _ =>
         exists text start n,
           nth_error all_text_lines_pdf1 (Core.line combo) = Some text
           /\ (n = 2 \/ n = 3) /\ start + n <= List.length (split text)
           /\ Core.parts combo = firstn n (skipn start (split text))
           /\ exists token master_code,
                In token (Core.parts combo) /\ In master_code master_codes_set
                /\ is_substring (upper (OCRCorrector.clean_whitespace token))
                                master_code = true
     end.
Proof.
  intros H base. unfold Core.whitespace_combinations in H.
  destruct all_text_lines_pdf1 as [|t ts].
  - apply in_flat_map in H as (i & Hi & H).
    unfold Core.range in Hi. apply in_seq in Hi.
    set (codes := map (fun x : Core.raw_code => fst (fst x)) raw_codes_pdf1) in *.
    destruct ((3 <=? List.length (OCRCorrector.clean_whitespace
                                    (nth i codes [] ++ nth (i + 1) codes [])))
              && (List.length (OCRCorrector.clean_whitespace
                                 (nth i codes [] ++ nth (i + 1) codes [])) <=? 7)) eqn:L;
      [|destruct H].
    destruct H as [<-|[]]. subst base.
    cbn [Core.line Core.combined Core.parts Core.substitutions Core.penalty].
    apply andb_true_iff in L as [L1 L2]. apply Nat.leb_le in L1, L2.
    split; [lia|]. split; [left; auto|].
    exists (nth i codes []), (nth (i + 1) codes []).
    split; [apply nth_error_nth'; lia|]. split; [apply nth_error_nth'; lia | reflexivity].
  - apply in_flat_map in H as ([line_idx text] & Hl & H).
    apply enumerate_nth_error in Hl.
    apply line_combinations_In in H. cbv zeta in H.
    destruct H as (-> & Hc & _ & (start & n & Hn & Hs & Hp) & Hrel & Hkind).
    split; [assumption|]. split.
    + destruct Hkind as [Hk|Hk]; [now left | right].
      split; [discriminate | exact Hk].
    + exists text, start, n. auto.
Qed.

Lemma whitespace_combinations_entries_witness :
  In {| Core.combined := lit "ELW"; Core.parts := [lit "EL"; lit "W"]; Core.line := 0;
        Core.substitutions := []; Core.penalty := 0%float |}
     (Core.whitespace_combinations [] [lit "ELW"] [lit "see EL W here"])
  /\ 3 <= List.length (lit "ELW") <= 7.
Proof.
  assert (Hin : In {| Core.combined := lit "ELW"; Core.parts := [lit "EL"; lit "W"];
                      Core.line := 0; Core.substitutions := [];
                      Core.penalty := 0%float |}
                   (Core.whitespace_combinations [] [lit "ELW"] [lit "see EL W here"])).
  { vm_compute. tauto. }
  split; [exact Hin|].
  apply (whitespace_combinations_entries [] [lit "ELW"] [lit "see EL W here"] _ Hin).
Defined.
